(** * ccbase worker groups: a shallow embedding of [src/ccbase/worker_group.cc]

    The file embeds the worker-thread pool of ccbase: the [Worker] run loop
    ([WorkerMainEntry], [BatchProcessTasks]), the posting interface of
    [WorkerGroup] (the [PostTask] overloads and [PostPeriodTask]), the
    thread-local producer cache behind [GetOutQueue], and construction and
    destruction of groups.  Program state is passed explicitly: every
    embedded member function takes the calling thread, the object it is
    invoked on and the current [State], and returns its C++ result together
    with the next [State].

    The translation unit uses three collaborators whose code it does not
    contain: the task queue, the timer wheel and the declarations of its
    own header.  They are modelled from the specification and marked so.

    Threads are interleaved by a scheduler ([step], [run]).  A scheduling
    quantum is one call into the posting interface by a client thread, or
    the entry or one pass of the run loop of a worker thread; the queue is
    the only object the threads share and it is synchronised internally, so
    that its operations are atomic.  The destruction of a group is a
    quantum of the destroying thread, within which the worker threads it
    joins, and the other threads, run the quanta that fall into the joins;
    constructors and other destructors do not.  The local storage of a
    thread is left as it is when the thread exits; what is said of a
    thread's cache is meant of a thread that runs.

    [size_t] is taken to be 64 bits wide and is represented by [N]; the one
    place where the source does arithmetic that can leave the range, the
    [fetch_add] on the group-id counter, has the reduction written out. *)

From Stdlib Require Import Ascii.
From stdpp Require Import base numbers option list gmap.

Local Open Scope N_scope.

(** ** Machine integers *)

Definition size_t_bits : N := 64.
Definition size_t_modulus : N := 2 ^ size_t_bits.
Definition size_t_wrap (n : N) : N := n mod size_t_modulus.

(** [useconds_t], the parameter type of [usleep], is an unsigned integer of
    32 bits. *)
Definition useconds_t_bits : N := 32.
Definition useconds_t_wrap (n : N) : N := n mod 2 ^ useconds_t_bits.

(** ** Object identities

    A [WorkerGroup] and the [TaskQueue] it creates with [make_shared] are
    heap objects; an address is the number of the construction that created
    the object (groups and queues live in separate heaps, so the queue of
    the n-th group sits at address n of the queue heap).  A [Worker] is
    addressed by the group that allocated it and its position in
    [workers_]. *)

Abbreviation Addr := N (only parsing).
Abbreviation WorkerPtr := (N * nat)%type (only parsing).

Inductive ThreadId : Type :=
| ClientThread (n : nat)
| WorkerThread (w : WorkerPtr).

Global Instance ThreadId_eq_dec : EqDecision ThreadId.
Proof. solve_decision. Defined.

Global Instance ThreadId_countable : Countable ThreadId.
Proof.
  refine (inj_countable'
    (λ t, match t with ClientThread n => inl n | WorkerThread w => inr w end)
    (λ x, match x with inl n => ClientThread n | inr w => WorkerThread w end) _).
  by intros [].
Defined.

(** ** Closures

    [ClosureFunc<void()>] values.  A user closure is opaque to the library
    except for the calls it makes back into the posting interface while it
    runs; the two wrappers are the lambdas built by the delayed and the
    periodic [PostTask] overloads. *)

Inductive Closure : Type :=
| UserFunc (tag : N) (calls : list ApiCall)
| DelayWrapper (func : Closure) (delay_ms : N)
| PeriodWrapper (func : Closure) (period_ms : N)
with ApiCall : Type :=
| CallPostTask (grp : Addr) (func : Closure)
| CallPostTaskTo (grp : Addr) (worker_id : N) (func : Closure)
| CallPostTaskDelay (grp : Addr) (func : Closure) (delay_ms : N)
| CallPostTaskToDelay (grp : Addr) (worker_id : N) (func : Closure) (delay_ms : N)
| CallPostPeriodTask (grp : Addr) (func : Closure) (period_ms : N)
| CallPostPeriodTaskTo (grp : Addr) (worker_id : N) (func : Closure) (period_ms : N)
| CallWorkerPostTask (w : WorkerPtr) (func : Closure).

(** ** Collaborators that are not part of the translation unit *)

(** Modelled from the spec: the timer wheel ([ccbase/timer_wheel.h] is not
    under src/).  The spec consumes it through three operations, advance,
    arm-one-shot and arm-periodic; a timer records its due time, whether it
    repeats, and its callback. *)
Record Timer : Type := mkTimer {
  due : N;
  period : option N;
  callback : Closure }.

Inductive Poller : Type :=
| DefaultWorkerPoller
| UserPoller (tag : N).

(** Who keeps a [shared_ptr<TaskQueue>]: the group's [queue_] member, or
    the [queue_holder] of one thread's cache entry for one group id.  The
    use count of the control block is the size of this set. *)
Inductive Holder : Type :=
| HolderGroup (g : Addr)
| HolderThread (t : ThreadId) (gid : N).

Global Instance Holder_eq_dec : EqDecision Holder.
Proof. solve_decision. Defined.

Global Instance Holder_countable : Countable Holder.
Proof.
  refine (inj_countable'
    (λ h, match h with HolderGroup g => inl g | HolderThread t i => inr (t, i) end)
    (λ x, match x with inl g => HolderGroup g | inr (t, i) => HolderThread t i end) _).
  by intros [].
Defined.

(** Modelled from the spec: the task queue ([ccbase/dispatch_queue.h] is not
    under src/).  One capacity shared by all lanes, one FIFO lane per
    registered consumer, any number of producers.  Untargeted pushes are
    placed round-robin, the policy the spec names as its example. *)
Record TaskQueue : Type := mkTaskQueue {
  capacity : N;
  lanes : list (list Closure);
  producers : N;
  rr_cursor : nat;
  holders : gset Holder }.

Definition in_flight (q : TaskQueue) : nat := length (concat (lanes q)).

Definition TaskQueue_new (queue_size : N) (first : Holder) : TaskQueue :=
  {| capacity := queue_size; lanes := []; producers := 0; rr_cursor := 0;
     holders := {[ first ]} |}.

Definition with_lanes (ls : list (list Closure)) (q : TaskQueue) : TaskQueue :=
  {| capacity := capacity q; lanes := ls; producers := producers q;
     rr_cursor := rr_cursor q; holders := holders q |}.

Definition with_holders (hs : gset Holder) (q : TaskQueue) : TaskQueue :=
  {| capacity := capacity q; lanes := lanes q; producers := producers q;
     rr_cursor := rr_cursor q; holders := hs |}.

(** Modelled from the spec: [register_consumer] of the queue (not under
    src/): a new lane, whose index is returned.  The source calls it only
    from the group's constructor, on the queue it has just made. *)
Definition RegisterConsumer (q : TaskQueue) : nat * TaskQueue :=
  (length (lanes q), with_lanes (lanes q ++ [[]]) q).

(** Modelled from the spec: [register_producer] of the queue (not under
    src/): a new producer handle, numbered in order. *)
Definition RegisterProducer (q : TaskQueue) : N * TaskQueue :=
  (producers q,
   {| capacity := capacity q; lanes := lanes q; producers := producers q + 1;
      rr_cursor := rr_cursor q; holders := holders q |}).

(** Modelled from the spec: the targeted [push(lane_id, item)] of the queue
    (not under src/).  Of the two reactions the spec allows to a lane that
    does not exist the model takes rejection; the push is also rejected
    when the shared capacity is used up; otherwise the item goes to the
    back of the lane. *)
Definition Push_to (lane : nat) (item : Closure) (q : TaskQueue) : option TaskQueue :=
  match lanes q !! lane with
  | None => None
  | Some items =>
      if decide (N.of_nat (in_flight q) < capacity q)
      then Some (with_lanes (<[lane := items ++ [item]]> (lanes q)) q)
      else None
  end.

Definition place (q : TaskQueue) : nat := (rr_cursor q mod length (lanes q))%nat.

(** Modelled from the spec: the untargeted [push(item)] of the queue (not
    under src/); the lane is chosen by the placement policy. *)
Definition Push (item : Closure) (q : TaskQueue) : option (nat * TaskQueue) :=
  match Push_to (place q) item q with
  | None => None
  | Some q' =>
      Some (place q,
            {| capacity := capacity q'; lanes := lanes q'; producers := producers q';
               rr_cursor := S (place q); holders := holders q' |})
  end.

(** Modelled from the spec: [pop(lane_id)] of the queue (not under src/):
    the oldest item of the lane, if there is one. *)
Definition Pop (lane : nat) (q : TaskQueue) : option (Closure * TaskQueue) :=
  match lanes q !! lane with
  | Some (item :: rest) => Some (item, with_lanes (<[lane := rest]> (lanes q)) q)
  | _ => None
  end.

(** ** Objects of the translation unit *)

Record OutQueue : Type := mkOutQueue { oq_queue : Addr; oq_producer : N }.

(** Modelled from the spec: [WorkerGroup::ClientContext] and its conversion
    to [bool] (declared in [ccbase/worker_group.h], not under src/).  An
    entry is absent until it is populated with the queue reference and the
    producer handle. *)
Record ClientContext : Type := mkClientContext {
  queue_holder : option Addr;
  out_queue : option OutQueue }.

Definition empty_ctx : ClientContext :=
  {| queue_holder := None; out_queue := None |}.

Definition ctx_bool (c : ClientContext) : bool :=
  match out_queue c with Some _ => true | None => false end.

Record ThreadLocal : Type := mkThreadLocal {
  tls_self_ : option WorkerPtr;
  tls_client_ctx_cache_ : list ClientContext;
  tls_client_ctx_ : gmap N ClientContext }.

Inductive ThreadPhase : Type := Created | Running | Exited.

Record Worker : Type := mkWorker {
  group_ : Addr;
  id_ : N;
  inq_ : N * nat;
  poller_ : Poller;
  stop_flag_ : bool;
  thread_ : ThreadId;
  timers_ : list Timer;
  phase : ThreadPhase }.

Record WorkerGroup : Type := mkWorkerGroup {
  group_id_ : N;
  workers_ : list WorkerPtr;
  queue_ : Addr }.

(** ** Observable events

    The state carries a log of what has happened; the properties below are
    stated over it. *)
Inductive Event : Type :=
| EvConstruct (g : Addr) (gid : N)
| EvRegister (t : ThreadId) (q : Addr) (producer : N)
| EvPush (q : Addr) (lane : nat) (item : Closure)
| EvEntry (w : WorkerPtr)
| EvMoveOn (w : WorkerPtr) (now : N)
| EvFire (w : WorkerPtr) (func : Closure)
| EvExec (w : WorkerPtr) (func : Closure)
| EvPoll (w : WorkerPtr) (timeout_ms : N)
| EvUsleep (usec : N)
| EvExit (w : WorkerPtr)
| EvArm (w : WorkerPtr) (tm : Timer)
| EvUser (t : ThreadId) (tag : N).

Record State : Type := mkState {
  s_next_group_id_ : N;
  next_addr : Addr;
  groups : gmap N WorkerGroup;
  workers : gmap (N * nat) Worker;
  queues : gmap N TaskQueue;
  tls : gmap ThreadId ThreadLocal;
  clock : N;
  null_deref : bool;
  trace : list Event }.

Definition init : State :=
  {| s_next_group_id_ := 0; next_addr := 0; groups := ∅; workers := ∅;
     queues := ∅; tls := ∅; clock := 0; null_deref := false; trace := [] |}.

Definition set_groups (f : gmap N WorkerGroup → gmap N WorkerGroup) (s : State) : State :=
  {| s_next_group_id_ := s_next_group_id_ s; next_addr := next_addr s;
     groups := f (groups s); workers := workers s; queues := queues s;
     tls := tls s; clock := clock s; null_deref := null_deref s; trace := trace s |}.

Definition set_workers (f : gmap (N * nat) Worker → gmap (N * nat) Worker) (s : State) : State :=
  {| s_next_group_id_ := s_next_group_id_ s; next_addr := next_addr s;
     groups := groups s; workers := f (workers s); queues := queues s;
     tls := tls s; clock := clock s; null_deref := null_deref s; trace := trace s |}.

Definition set_queues (f : gmap N TaskQueue → gmap N TaskQueue) (s : State) : State :=
  {| s_next_group_id_ := s_next_group_id_ s; next_addr := next_addr s;
     groups := groups s; workers := workers s; queues := f (queues s);
     tls := tls s; clock := clock s; null_deref := null_deref s; trace := trace s |}.

Definition set_tls (f : gmap ThreadId ThreadLocal → gmap ThreadId ThreadLocal) (s : State) : State :=
  {| s_next_group_id_ := s_next_group_id_ s; next_addr := next_addr s;
     groups := groups s; workers := workers s; queues := queues s;
     tls := f (tls s); clock := clock s; null_deref := null_deref s; trace := trace s |}.

Definition log (e : Event) (s : State) : State :=
  {| s_next_group_id_ := s_next_group_id_ s; next_addr := next_addr s;
     groups := groups s; workers := workers s; queues := queues s;
     tls := tls s; clock := clock s; null_deref := null_deref s;
     trace := trace s ++ [e] |}.

Definition fault (s : State) : State :=
  {| s_next_group_id_ := s_next_group_id_ s; next_addr := next_addr s;
     groups := groups s; workers := workers s; queues := queues s;
     tls := tls s; clock := clock s; null_deref := true; trace := trace s |}.

Definition with_timers (tms : list Timer) (wk : Worker) : Worker :=
  {| group_ := group_ wk; id_ := id_ wk; inq_ := inq_ wk; poller_ := poller_ wk;
     stop_flag_ := stop_flag_ wk; thread_ := thread_ wk; timers_ := tms;
     phase := phase wk |}.

Definition with_phase (ph : ThreadPhase) (wk : Worker) : Worker :=
  {| group_ := group_ wk; id_ := id_ wk; inq_ := inq_ wk; poller_ := poller_ wk;
     stop_flag_ := stop_flag_ wk; thread_ := thread_ wk; timers_ := timers_ wk;
     phase := ph |}.

Definition with_stop_flag (b : bool) (wk : Worker) : Worker :=
  {| group_ := group_ wk; id_ := id_ wk; inq_ := inq_ wk; poller_ := poller_ wk;
     stop_flag_ := b; thread_ := thread_ wk; timers_ := timers_ wk;
     phase := phase wk |}.

Definition with_self (w : option WorkerPtr) (tl : ThreadLocal) : ThreadLocal :=
  {| tls_self_ := w; tls_client_ctx_cache_ := tls_client_ctx_cache_ tl;
     tls_client_ctx_ := tls_client_ctx_ tl |}.

(** ** Constants of the translation unit *)

Definition kMaxBatchProcessTasks : N := 16.
Definition kPollerTimeoutMs : N := 1.

(** ** Tactics for concrete states

    [with_some] evaluates a lookup on a concrete state and hands the value
    found to the continuation; [by_compute] closes a goal by evaluation. *)

Ltac with_some t k :=
  let v := eval vm_compute in t in
  lazymatch v with
  | Some ?x => k x
  end.

Ltac by_compute := vm_compute; first [reflexivity | discriminate].

(** [absent_from_log tr] closes a goal [e ∉ tr] for a concrete log [tr] none
    of whose events can be [e]; [present_in_log] closes [e ∈ tr] for a
    concrete log that holds [e]. *)
Ltac absent_from_log tr :=
  let v := eval vm_compute in tr in
  let Ht := fresh in
  assert (Ht : tr = v) by (vm_compute; reflexivity);
  rewrite Ht; clear Ht;
  rewrite ?elem_of_cons, elem_of_nil; intuition discriminate.

Ltac present_in_log :=
  apply list_elem_of_In; vm_compute; repeat (first [left; reflexivity | right]).

Section WorkerGroup.

(** [WorkerGroup::kClientCtxCacheSize] is declared in the header, which is
    not part of the translation unit; every definition below is generic in
    it. *)
Variable kClientCtxCacheSize : N.

(** ** Thread-local storage *)

(** The value every thread starts with: [tls_self_ = nullptr], an array of
    default-constructed contexts, an empty map. *)
Definition tls_init : ThreadLocal :=
  {| tls_self_ := None;
     tls_client_ctx_cache_ := replicate (N.to_nat kClientCtxCacheSize) empty_ctx;
     tls_client_ctx_ := ∅ |}.

Definition thread_local (t : ThreadId) (s : State) : ThreadLocal :=
  default tls_init (tls s !! t).

(** Modelled from the spec: [Worker::self()] (defined in the header, not
    under src/), the current-worker accessor: it reads [tls_self_]. *)
Definition Worker_self (t : ThreadId) (s : State) : option WorkerPtr :=
  tls_self_ (thread_local t s).

(** The reference [client_ctx] bound in [GetOutQueue]: the array slot when
    the id is below the array's size, otherwise the map entry
    ([operator[]] yields a default-constructed context when the key is
    new). *)
Definition client_ctx (t : ThreadId) (gid : N) (s : State) : ClientContext :=
  let tl := thread_local t s in
  if decide (gid < kClientCtxCacheSize)
  then default empty_ctx (tls_client_ctx_cache_ tl !! N.to_nat gid)
  else default empty_ctx (tls_client_ctx_ tl !! gid).

Definition set_client_ctx (t : ThreadId) (gid : N) (c : ClientContext) (s : State) : State :=
  let tl := thread_local t s in
  let tl' :=
    if decide (gid < kClientCtxCacheSize)
    then {| tls_self_ := tls_self_ tl;
            tls_client_ctx_cache_ := <[N.to_nat gid := c]> (tls_client_ctx_cache_ tl);
            tls_client_ctx_ := tls_client_ctx_ tl |}
    else {| tls_self_ := tls_self_ tl;
            tls_client_ctx_cache_ := tls_client_ctx_cache_ tl;
            tls_client_ctx_ := <[gid := c]> (tls_client_ctx_ tl) |} in
  set_tls (insert t tl') s.

(** ** WorkerGroup: the posting interface *)

(** [TaskQueue::OutQueue* WorkerGroup::GetOutQueue()] *)
Definition GetOutQueue (t : ThreadId) (this : Addr) (s : State) : option OutQueue * State :=
  match groups s !! this with
  | None => (None, s)
  | Some g =>
      let ctx := client_ctx t (group_id_ g) s in
      if ctx_bool ctx then (out_queue ctx, s)
      else
        match queues s !! queue_ g with
        | None => (None, s)
        | Some q =>
            let '(p, q1) := RegisterProducer q in
            let q2 := with_holders ({[ HolderThread t (group_id_ g) ]} ∪ holders q1) q1 in
            let h := {| oq_queue := queue_ g; oq_producer := p |} in
            (Some h,
             log (EvRegister t (queue_ g) p)
               (set_client_ctx t (group_id_ g)
                  {| queue_holder := Some (queue_ g); out_queue := Some h |}
                  (set_queues (insert (queue_ g) q2) s)))
        end
  end.

(** Modelled from the spec: [OutQueue::Push(func)] and
    [OutQueue::Push(worker_id, func)] (not under src/): the queue's pushes,
    reached through a producer handle. *)
Definition OutQueue_Push (outq : option OutQueue) (func : Closure) (s : State) : bool * State :=
  match outq with
  | None => (false, s)
  | Some h =>
      match queues s !! oq_queue h with
      | None => (false, s)
      | Some q =>
          match Push func q with
          | None => (false, s)
          | Some (lane, q') =>
              (true, log (EvPush (oq_queue h) lane func)
                       (set_queues (insert (oq_queue h) q') s))
          end
      end
  end.

Definition OutQueue_Push_to (outq : option OutQueue) (worker_id : N) (func : Closure)
    (s : State) : bool * State :=
  match outq with
  | None => (false, s)
  | Some h =>
      match queues s !! oq_queue h with
      | None => (false, s)
      | Some q =>
          match Push_to (N.to_nat worker_id) func q with
          | None => (false, s)
          | Some q' =>
              (true, log (EvPush (oq_queue h) (N.to_nat worker_id) func)
                       (set_queues (insert (oq_queue h) q') s))
          end
      end
  end.

(** [bool WorkerGroup::PostTask(ClosureFunc<void()> func)] *)
Definition PostTask (t : ThreadId) (this : Addr) (func : Closure) (s : State) : bool * State :=
  let '(outq, s1) := GetOutQueue t this s in
  OutQueue_Push outq func s1.

(** [bool WorkerGroup::PostTask(size_t worker_id, ClosureFunc<void()> func)] *)
Definition PostTask_to (t : ThreadId) (this : Addr) (worker_id : N) (func : Closure)
    (s : State) : bool * State :=
  let '(outq, s1) := GetOutQueue t this s in
  OutQueue_Push_to outq worker_id func s1.

(** [bool WorkerGroup::PostTask(ClosureFunc<void()> func, size_t delay_ms)] *)
Definition PostTask_delay (t : ThreadId) (this : Addr) (func : Closure) (delay_ms : N)
    (s : State) : bool * State :=
  let '(outq, s1) := GetOutQueue t this s in
  OutQueue_Push outq (DelayWrapper func delay_ms) s1.

(** [bool WorkerGroup::PostTask(size_t worker_id, ClosureFunc<void()> func,
    size_t delay_ms)] *)
Definition PostTask_to_delay (t : ThreadId) (this : Addr) (worker_id : N) (func : Closure)
    (delay_ms : N) (s : State) : bool * State :=
  let '(outq, s1) := GetOutQueue t this s in
  OutQueue_Push_to outq worker_id (DelayWrapper func delay_ms) s1.

(** [bool WorkerGroup::PostPeriodTask(ClosureFunc<void()> func, size_t
    period_ms)] *)
Definition PostPeriodTask (t : ThreadId) (this : Addr) (func : Closure) (period_ms : N)
    (s : State) : bool * State :=
  let '(outq, s1) := GetOutQueue t this s in
  OutQueue_Push outq (PeriodWrapper func period_ms) s1.

(** [bool WorkerGroup::PostPeriodTask(size_t worker_id, ClosureFunc<void()>
    func, size_t period_ms)] *)
Definition PostPeriodTask_to (t : ThreadId) (this : Addr) (worker_id : N) (func : Closure)
    (period_ms : N) (s : State) : bool * State :=
  let '(outq, s1) := GetOutQueue t this s in
  OutQueue_Push_to outq worker_id (PeriodWrapper func period_ms) s1.

(** ** Worker *)

(** [bool Worker::PostTask(ClosureFunc<void()> func)]: the call goes through
    the worker's [group_] and [id_] members. *)
Definition Worker_PostTask (t : ThreadId) (this : WorkerPtr) (func : Closure)
    (s : State) : bool * State :=
  match workers s !! this with
  | None => (false, s)
  | Some wk => PostTask_to t (group_ wk) (id_ wk) func s
  end.

(** Modelled from the spec: arming a timer on a worker's wheel
    ([TimerWheel::AddTimer] and [AddPeriodTimer], not under src/).  The
    timer is due [delay_ms] after the moment of arming. *)
Definition AddTimer (this : WorkerPtr) (delay_ms : N) (func : Closure) (s : State) : State :=
  match workers s !! this with
  | None => s
  | Some wk =>
      let tm := {| due := clock s + delay_ms; period := None; callback := func |} in
      log (EvArm this tm) (set_workers (insert this (with_timers (timers_ wk ++ [tm]) wk)) s)
  end.

Definition AddPeriodTimer (this : WorkerPtr) (period_ms : N) (func : Closure)
    (s : State) : State :=
  match workers s !! this with
  | None => s
  | Some wk =>
      let tm := {| due := clock s + period_ms; period := Some period_ms; callback := func |} in
      log (EvArm this tm) (set_workers (insert this (with_timers (timers_ wk ++ [tm]) wk)) s)
  end.

(** A call into the posting interface, with its boolean result. *)
Definition do_call (t : ThreadId) (call : ApiCall) (s : State) : bool * State :=
  match call with
  | CallPostTask g f => PostTask t g f s
  | CallPostTaskTo g i f => PostTask_to t g i f s
  | CallPostTaskDelay g f d => PostTask_delay t g f d s
  | CallPostTaskToDelay g i f d => PostTask_to_delay t g i f d s
  | CallPostPeriodTask g f p => PostPeriodTask t g f p s
  | CallPostPeriodTaskTo g i f p => PostPeriodTask_to t g i f p s
  | CallWorkerPostTask w f => Worker_PostTask t w f s
  end.

(** The same call made from inside a user closure; what the closure does
    with the result is its own business. *)
Definition run_call (t : ThreadId) (call : ApiCall) (s : State) : State :=
  (do_call t call s).2.

(** Invoking a closure on thread [t].  The wrappers dereference
    [Worker::self()]; on a thread whose [tls_self_] is null that is a null
    dereference, recorded in [null_deref]. *)
Definition run_closure (t : ThreadId) (c : Closure) (s : State) : State :=
  match c with
  | UserFunc tag calls =>
      fold_left (λ s' call, run_call t call s') calls (log (EvUser t tag) s)
  | DelayWrapper func delay_ms =>
      match Worker_self t s with
      | None => fault s
      | Some w => AddTimer w delay_ms func s
      end
  | PeriodWrapper func period_ms =>
      match Worker_self t s with
      | None => fault s
      | Some w => AddPeriodTimer w period_ms func s
      end
  end.

Definition is_due (now : N) (tm : Timer) : bool := bool_decide (due tm ≤ now).

Definition rearm (now : N) (tm : Timer) : option Timer :=
  match period tm with
  | None => None
  | Some p => Some {| due := now + p; period := Some p; callback := callback tm |}
  end.

(** Modelled from the spec: [TimerWheel::MoveOn] (not under src/).  Every
    timer that is due fires once, on the calling thread, in the order of
    arming; one-shot timers are dropped and periodic ones armed again. *)
Definition MoveOn (t : ThreadId) (this : WorkerPtr) (s : State) : State :=
  match workers s !! this with
  | None => s
  | Some wk =>
      let now := clock s in
      let fired := List.filter (is_due now) (timers_ wk) in
      let kept := List.filter (λ tm, negb (is_due now tm)) (timers_ wk) in
      let s1 := log (EvMoveOn this now)
                  (set_workers (insert this (with_timers (kept ++ omap (rearm now) fired) wk)) s) in
      fold_left (λ s' tm, run_closure t (callback tm) (log (EvFire this (callback tm)) s'))
        fired s1
  end.

(** Modelled from the spec: [InQueue::Pop(&func)] (not under src/): the
    queue's pop, reached through the worker's lane handle. *)
Definition InQueue_Pop (inq : N * nat) (s : State) : option (Closure * State) :=
  match queues s !! inq.1 with
  | None => None
  | Some q =>
      match Pop inq.2 q with
      | None => None
      | Some (func, q') => Some (func, set_queues (insert inq.1 q') s)
      end
  end.

(** [size_t Worker::BatchProcessTasks(size_t max)]: [remaining] is
    [max - cnt]. *)
Fixpoint BatchProcessTasks_loop (t : ThreadId) (this : WorkerPtr) (remaining : nat) (cnt : N)
    (s : State) : N * State :=
  match remaining with
  | O => (cnt, s)
  | S remaining' =>
      match workers s !! this with
      | None => (cnt, s)
      | Some wk =>
          match InQueue_Pop (inq_ wk) s with
          | None => (cnt, s)
          | Some (func, s1) =>
              BatchProcessTasks_loop t this remaining' (cnt + 1)
                (run_closure t func (log (EvExec this func) s1))
          end
      end
  end.

Definition BatchProcessTasks (t : ThreadId) (this : WorkerPtr) (max : N) (s : State) : N * State :=
  BatchProcessTasks_loop t this (N.to_nat max) 0 s.

(** [WorkerPoller::Poll(timeout_ms)]; the default poller sleeps when the
    timeout is positive, a user-supplied poller is opaque.  The product
    [timeout_ms * 1000] is computed in [size_t] and converted to the
    [useconds_t] that [usleep] takes. *)
Definition Poll (p : Poller) (timeout_ms : N) (s : State) : State :=
  match p with
  | DefaultWorkerPoller =>
      if decide (0 < timeout_ms)
      then log (EvUsleep (useconds_t_wrap (size_t_wrap (timeout_ms * 1000)))) s
      else s
  | UserPoller _ => s
  end.

(** One pass through the body of the [while] loop of
    [Worker::WorkerMainEntry]. *)
Definition loop_body (t : ThreadId) (this : WorkerPtr) (s : State) : State :=
  let s1 := MoveOn t this s in
  let '(n, s2) := BatchProcessTasks t this kMaxBatchProcessTasks s1 in
  let timeout := if decide (n < kMaxBatchProcessTasks) then kPollerTimeoutMs else 0 in
  match workers s2 !! this with
  | None => s2
  | Some wk => Poll (poller_ wk) timeout (log (EvPoll this timeout) s2)
  end.

(** [void Worker::WorkerMainEntry()], one scheduling quantum at a time: the
    first quantum of the thread assigns [tls_self_]; each later one loads
    [stop_flag_] and either leaves the loop or runs its body once. *)
Definition WorkerMainEntry_step (t : ThreadId) (this : WorkerPtr) (s : State) : State :=
  match workers s !! this with
  | None => s
  | Some wk =>
      match phase wk with
      | Created =>
          log (EvEntry this)
            (set_workers (insert this (with_phase Running wk))
               (set_tls (insert t (with_self (Some this) (thread_local t s))) s))
      | Running =>
          if stop_flag_ wk
          then log (EvExit this) (set_workers (insert this (with_phase Exited wk)) s)
          else loop_body t this s
      | Exited => s
      end
  end.

(** [Worker::Worker(grp, id, q, poller)]; [CreateThread] hands back the
    thread that will run [WorkerMainEntry] on the new object. *)
Definition Worker_ctor (this : WorkerPtr) (grp : Addr) (id : N) (q : N * nat)
    (poller : Poller) : Worker :=
  {| group_ := grp; id_ := id; inq_ := q; poller_ := poller; stop_flag_ := false;
     thread_ := WorkerThread this; timers_ := []; phase := Created |}.

(** One pass through the constructor's [for] loop:
    [workers_.emplace_back(new Worker(this, id, queue_->RegisterConsumer(),
    poller_supplier(id)))]. *)
Definition emplace_worker (this : Addr) (supplier : N → Poller) (id : nat) (s : State) : State :=
  match groups s !! this with
  | None => s
  | Some g =>
      match queues s !! queue_ g with
      | None => s
      | Some q =>
          let '(lane, q') := RegisterConsumer q in
          let w := (this, id) in
          let wk := Worker_ctor w this (N.of_nat id) (queue_ g, lane) (supplier (N.of_nat id)) in
          set_groups (insert this {| group_id_ := group_id_ g;
                                     workers_ := workers_ g ++ [w];
                                     queue_ := queue_ g |})
            (set_workers (insert w wk)
               (set_queues (insert (queue_ g) q') s))
      end
  end.

Fixpoint construct_workers (this : Addr) (supplier : N → Poller) (remaining : nat) (id : nat)
    (s : State) : State :=
  match remaining with
  | O => s
  | S remaining' =>
      construct_workers this supplier remaining' (S id) (emplace_worker this supplier id s)
  end.

(** The start of [WorkerGroup::WorkerGroup(worker_num, queue_size,
    poller_supplier)]: the object is placed at the next free address,
    [queue_] is initialised with [make_shared<TaskQueue>(queue_size)], and
    [group_id_ = s_next_group_id_.fetch_add(1)], which hands out the old
    value of the counter and stores the sum reduced to [size_t]. *)
Definition WorkerGroup_init (queue_size : N) (s : State) : State :=
  let this := next_addr s in
  let gid := s_next_group_id_ s in
  {| s_next_group_id_ := size_t_wrap (gid + 1);
     next_addr := this + 1;
     groups := <[this := {| group_id_ := gid; workers_ := []; queue_ := this |}]> (groups s);
     workers := workers s;
     queues := <[this := TaskQueue_new queue_size (HolderGroup this)]> (queues s);
     tls := tls s; clock := clock s; null_deref := null_deref s;
     trace := trace s ++ [EvConstruct this gid] |}.

(** [WorkerGroup::WorkerGroup(worker_num, queue_size, poller_supplier)] *)
Definition WorkerGroup_ctor (worker_num queue_size : N) (supplier : N → Poller)
    (s : State) : State :=
  construct_workers (next_addr s) supplier (N.to_nat worker_num) 0
    (WorkerGroup_init queue_size s).

(** [WorkerGroup::WorkerGroup(worker_num, queue_size)] *)
Definition WorkerGroup_ctor_default (worker_num queue_size : N) (s : State) : State :=
  WorkerGroup_ctor worker_num queue_size (λ _, DefaultWorkerPoller) s.

(** The end of [Worker::~Worker()], from the moment the thread's load of
    [stop_flag_] yields the stored [true]: the thread, which is at the top
    of its loop or has not entered yet, gets the quanta it needs to leave,
    [join] returns and the object is freed. *)
Definition Worker_stop (this : WorkerPtr) (s : State) : State :=
  match workers s !! this with
  | None => s
  | Some wk =>
      let s1 := set_workers (insert this (with_stop_flag true wk)) s in
      let s2 := WorkerMainEntry_step (thread_ wk) this
                  (WorkerMainEntry_step (thread_ wk) this s1) in
      set_workers (delete this) s2
  end.

(** Time passing. *)
Definition advance_clock (elapsed : N) (s : State) : State :=
  {| s_next_group_id_ := s_next_group_id_ s; next_addr := next_addr s;
     groups := groups s; workers := workers s; queues := queues s;
     tls := tls s; clock := clock s + elapsed; null_deref := null_deref s;
     trace := trace s |}.

(** What the threads of the process do while a destructor waits in
    [join]: a call into the posting interface by a client thread, the
    entry or one pass of the run loop of a worker thread, time passing. *)
Inductive Quantum : Type :=
| QCall (client : nat) (call : ApiCall)
| QWorkerThread (w : WorkerPtr)
| QTick (elapsed : N).

Definition quantum (q : Quantum) (s : State) : State :=
  match q with
  | QCall n call => run_call (ClientThread n) call s
  | QWorkerThread w => WorkerMainEntry_step (WorkerThread w) w s
  | QTick d => advance_clock d s
  end.

Definition quanta (qs : list Quantum) (s : State) : State :=
  fold_left (λ s' q, quantum q s') qs s.

(** [Worker::~Worker()]: [stop_flag_.store(true, relaxed); thread_.join();].
    The thread loads the flag at the top of its loop only, and the store is
    relaxed, so the thread does not leave at once; and while the destructor
    waits, the other threads of the process run on.  [late] is what
    happens between the store and the load of the joined thread that
    yields [true]: the quanta of that thread, which are the pass it is in
    when the flag is stored and any pass it starts before the store is
    visible to it, and the quanta of the other threads, in the order in
    which they take effect.  The joined thread fires timers, runs closures
    and polls in its quanta as in any other; [join] waits for them. *)
Definition Worker_dtor (late : list Quantum) (this : WorkerPtr) (s : State) : State :=
  match workers s !! this with
  | None => s
  | Some _ => Worker_stop this (quanta late s)
  end.

(** Dropping one [shared_ptr<TaskQueue>]; the queue is freed with its last
    holder. *)
Definition release (h : Holder) (q : Addr) (s : State) : State :=
  match queues s !! q with
  | None => s
  | Some tq =>
      let hs := holders tq ∖ {[ h ]} in
      if decide (hs = ∅) then set_queues (delete q) s
      else set_queues (insert q (with_holders hs tq)) s
  end.

(** [WorkerGroup::~WorkerGroup()]: the members are destroyed, the workers
    one after the other and the group's reference to the queue.  [late]
    gives, for each worker, the quanta that run while it is being
    joined. *)
Definition WorkerGroup_dtor (late : WorkerPtr → list Quantum) (this : Addr) (s : State) : State :=
  match groups s !! this with
  | None => s
  | Some g =>
      let s1 := fold_left (λ s' w, Worker_dtor (late w) w s') (workers_ g) s in
      set_groups (delete this) (release (HolderGroup this) (queue_ g) s1)
  end.

(** ** The process: threads interleaved by a scheduler *)

Inductive Action : Type :=
| AConstruct (worker_num queue_size : N) (supplier : N → Poller)
| ADestroy (g : Addr) (late : WorkerPtr → list Quantum)
| ACall (client : nat) (call : ApiCall)
| AWorkerThread (w : WorkerPtr)
| ATick (elapsed : N).

Definition step (a : Action) (s : State) : State :=
  match a with
  | AConstruct n c supplier => WorkerGroup_ctor n c supplier s
  | ADestroy g late => WorkerGroup_dtor late g s
  | ACall n call => run_call (ClientThread n) call s
  | AWorkerThread w => WorkerMainEntry_step (WorkerThread w) w s
  | ATick d => advance_clock d s
  end.

Definition run (acts : list Action) (s : State) : State :=
  fold_left (λ s' a, step a s') acts s.

Definition reachable (s : State) : Prop := ∃ acts, s = run acts init.

(** ** Reading the state and the event log *)

(** The items waiting in a consumer lane (none when the queue is gone or
    the lane does not exist). *)
Definition lane_items (inq : N * nat) (s : State) : list Closure :=
  match queues s !! inq.1 with
  | Some tq => default [] (lanes tq !! inq.2)
  | None => []
  end.

(** The closures accepted into lane [lane] of queue [q], in the order of
    acceptance. *)
Definition pushed (q : Addr) (lane : nat) (tr : list Event) : list Closure :=
  omap (λ e, match e with
             | EvPush q' l' c => if decide (q' = q ∧ l' = lane) then Some c else None
             | _ => None
             end) tr.

(** The closures worker [w] has popped and invoked, in order. *)
Definition executed_by (w : WorkerPtr) (tr : list Event) : list Closure :=
  omap (λ e, match e with
             | EvExec w' c => if decide (w' = w) then Some c else None
             | _ => None
             end) tr.

(** Every accepted push, with the queue and lane it went to. *)
Definition push_events (tr : list Event) : list (N * nat * Closure) :=
  omap (λ e, match e with EvPush q l c => Some (q, l, c) | _ => None end) tr.

(** The parts of a call of a [WorkerGroup] posting member: the group, the
    lane named by the caller if any, and the closure handed to the
    queue. *)
Definition call_group (call : ApiCall) : option Addr :=
  match call with
  | CallPostTask g _ | CallPostTaskTo g _ _ | CallPostTaskDelay g _ _
  | CallPostTaskToDelay g _ _ _ | CallPostPeriodTask g _ _
  | CallPostPeriodTaskTo g _ _ _ => Some g
  | CallWorkerPostTask _ _ => None
  end.

Definition call_target (call : ApiCall) : option N :=
  match call with
  | CallPostTaskTo _ i _ | CallPostTaskToDelay _ i _ _ | CallPostPeriodTaskTo _ i _ _ => Some i
  | _ => None
  end.

Definition call_item (call : ApiCall) : Closure :=
  match call with
  | CallPostTask _ f | CallPostTaskTo _ _ f | CallWorkerPostTask _ f => f
  | CallPostTaskDelay _ f d | CallPostTaskToDelay _ _ f d => DelayWrapper f d
  | CallPostPeriodTask _ f p | CallPostPeriodTaskTo _ _ f p => PeriodWrapper f p
  end.


(** Thread [t]'s cache entry for the id of group [grp], when populated,
    holds a handle on that group's queue. *)
Definition handle_ok (t : ThreadId) (grp : WorkerGroup) (s : State) : Prop :=
  ∀ h, out_queue (client_ctx t (group_id_ grp) s) = Some h → oq_queue h = queue_ grp.

(** Events a closure can cause while it runs on thread [t]. *)
Definition client_event (t : ThreadId) (e : Event) : Prop :=
  match e with
  | EvRegister t' _ _ | EvUser t' _ => t' = t
  | EvPush _ _ _ | EvArm _ _ => True
  | _ => False
  end.

(** The events that mark the control flow of worker [w]'s thread. *)
Definition loop_event_of (w : WorkerPtr) (e : Event) : option Event :=
  match e with
  | EvEntry w' | EvExit w' | EvMoveOn w' _ | EvExec w' _ | EvPoll w' _ =>
      if decide (w' = w) then Some e else None
  | _ => None
  end.

Definition loop_events (w : WorkerPtr) (tr : list Event) : list Event :=
  omap (loop_event_of w) tr.

(** Events caused on thread [t] by closures and timer callbacks. *)
Definition quiet_event (t : ThreadId) (e : Event) : Prop :=
  match e with
  | EvFire _ _ | EvUsleep _ => True
  | _ => client_event t e
  end.

(** An event that names the thread on which user code ran names [t]. *)
Definition on_thread (t : ThreadId) (e : Event) : Prop :=
  match e with
  | EvRegister t' _ _ | EvUser t' _ => t' = t
  | _ => True
  end.

(** Events of one call of [BatchProcessTasks] by worker [w] on thread [t]. *)
Definition batch_event (t : ThreadId) (w : WorkerPtr) (e : Event) : Prop :=
  client_event t e ∨ ∃ c, e = EvExec w c.

(** One pass of the run loop as it shows in the log of worker [w]: the
    wheel is advanced, the closures [cs] are popped and invoked, the poller
    is called. *)
Definition iteration (w : WorkerPtr) (now : N) (cs : list Closure) : list Event :=
  EvMoveOn w now :: map (EvExec w) cs
    ++ [EvPoll w (if decide (N.of_nat (length cs) < kMaxBatchProcessTasks)
                  then kPollerTimeoutMs else 0)].

(** The members of a worker that never change after construction, and the
    thread's position. *)
Definition fixed_part (wk : Worker) : Worker := with_timers [] wk.

Definition queue_shape (tq : TaskQueue) : N * nat := (capacity tq, length (lanes tq)).

(** ** Atomic transitions

    Everything a closure does while it runs is a sequence of these. *)
Inductive cprim (t : ThreadId) : State → State → Prop :=
| cp_queue_meta s q tq tq' :
    queues s !! q = Some tq → lanes tq' = lanes tq → capacity tq' = capacity tq →
    cprim t s (set_queues (insert q tq') s)
| cp_ctx s gid c :
    cprim t s (set_client_ctx t gid c s)
| cp_log s e :
    match e with EvRegister t' _ _ | EvUser t' _ => t' = t | EvArm _ _ => True | _ => False end →
    cprim t s (log e s)
| cp_push s q tq lane c tq1 tq' :
    queues s !! q = Some tq → Push_to lane c tq = Some tq1 →
    lanes tq' = lanes tq1 → capacity tq' = capacity tq1 →
    cprim t s (log (EvPush q lane c) (set_queues (insert q tq') s))
| cp_timers s w wk tms :
    workers s !! w = Some wk →
    cprim t s (set_workers (insert w (with_timers tms wk)) s)
| cp_fault s :
    cprim t s (fault s).

(** What running closures, firing timers and draining a lane leave alone,
    and how the log grows: by events that satisfy [P], with every lane
    extended by exactly the pushes the log shows. *)
Record frame (P : Event → Prop) (s s' : State) : Prop := mkFrame {
  fr_groups : groups s' = groups s;
  fr_next_addr : next_addr s' = next_addr s;
  fr_next_id : s_next_group_id_ s' = s_next_group_id_ s;
  fr_clock : clock s' = clock s;
  fr_workers : ∀ w, fixed_part <$> workers s' !! w = fixed_part <$> workers s !! w;
  fr_self : ∀ t, Worker_self t s' = Worker_self t s;
  fr_shape : ∀ q, queue_shape <$> queues s' !! q = queue_shape <$> queues s !! q;
  fr_trace : ∃ evs, trace s' = trace s ++ evs ∧ Forall P evs ∧
               ∀ q l, lane_items (q, l) s' = lane_items (q, l) s ++ pushed q l evs }.

(** ** Invariants of the process *)

(** What worker [w]'s thread has done with closures: its entry into
    [WorkerMainEntry], the closures it invoked and the timers it fired. *)
Definition thread_event_of (w : WorkerPtr) (e : Event) : option Event :=
  match e with
  | EvEntry w' | EvExec w' _ | EvFire w' _ => if decide (w' = w) then Some e else None
  | _ => None
  end.

Definition thread_events (w : WorkerPtr) (tr : list Event) : list Event :=
  omap (thread_event_of w) tr.

(** The entry comes first and happens once. *)
Definition entered (w : WorkerPtr) (evs : list Event) : Prop :=
  ∃ rest, evs = EvEntry w :: rest ∧ EvEntry w ∉ rest.

(** The groups constructed so far, with the ids they were given. *)
Definition constructed (tr : list Event) : list (N * N) :=
  omap (λ e, match e with EvConstruct g gid => Some (g, gid) | _ => None end) tr.

Record wf (s : State) : Prop := mkWf {
  wf_worker : ∀ w wk, workers s !! w = Some wk →
    inq_ wk = w ∧ group_ wk = w.1 ∧ id_ wk = N.of_nat w.2 ∧ thread_ wk = WorkerThread w ∧
    (w.1 < next_addr s)%N ∧
    ∀ grp, groups s !! w.1 = Some grp → (w.2 < length (workers_ grp))%nat;
  wf_group : ∀ g grp, groups s !! g = Some grp →
    queue_ grp = g ∧ (g < next_addr s)%N ∧ group_id_ grp = size_t_wrap g ∧
    (∀ i w, workers_ grp !! i = Some w → w = (g, i)) ∧
    (∀ tq, queues s !! g = Some tq → length (lanes tq) = length (workers_ grp));
  wf_queue : ∀ q tq, queues s !! q = Some tq → (q < next_addr s)%N;
  wf_counter : s_next_group_id_ s = size_t_wrap (next_addr s);
  wf_self : ∀ w wk, workers s !! w = Some wk → phase wk ≠ Created →
    Worker_self (WorkerThread w) s = Some w;
  wf_fifo : ∀ q l,
    match queues s !! q with
    | Some _ => executed_by (q, l) (trace s) ++ lane_items (q, l) s = pushed q l (trace s)
    | None => (next_addr s ≤ q)%N →
              pushed q l (trace s) = [] ∧ executed_by (q, l) (trace s) = []
    end;
  wf_entered : ∀ w, thread_events w (trace s) = [] ∨ entered w (thread_events w (trace s));
  wf_phase : ∀ w wk, workers s !! w = Some wk →
    (phase wk = Created ↔ thread_events w (trace s) = []);
  wf_unborn : ∀ g grp i, groups s !! g = Some grp → (length (workers_ grp) ≤ i)%nat →
    thread_events (g, i) (trace s) = [];
  wf_unused : ∀ w, (next_addr s ≤ w.1)%N → thread_events w (trace s) = [];
  wf_constructed_len : length (constructed (trace s)) = N.to_nat (next_addr s);
  wf_constructed : ∀ i a gid, constructed (trace s) !! i = Some (a, gid) →
    a = N.of_nat i ∧ gid = size_t_wrap a }.

(** The invariants, and no null dereference so far. *)
Definition good (s : State) : Prop := wf s ∧ null_deref s = false.

(** Thread [t] is the thread of worker [this] and is inside the run loop. *)
Definition running (t : ThreadId) (this : WorkerPtr) (s : State) : Prop :=
  Worker_self t s = Some this ∧
  ∃ wk, workers s !! this = Some wk ∧ phase wk ≠ Created.

(** A process that does nothing but construct [n] groups without workers. *)
Definition many_groups (n : N) : State :=
  N.iter n (WorkerGroup_ctor_default 0 0) init.

(** ** A small process, used to exercise the statements below

    One group with two workers and a queue of capacity 3; client thread 0
    posts two closures to worker 1 and a delayed one to any worker, client
    thread 1 finds the queue full; then the two worker threads run. *)
Definition demo_user (tag : N) : Closure := UserFunc tag [].

Definition demo_posts : list Action :=
  [ AConstruct 2 3 (λ _, DefaultWorkerPoller);
    ACall 0 (CallPostTaskTo 0 1 (demo_user 1));
    ACall 0 (CallPostTaskTo 0 1 (demo_user 2));
    ACall 0 (CallPostTaskDelay 0 (demo_user 3) 5);
    ACall 1 (CallPostTask 0 (demo_user 4)) ].

Definition demo_acts : list Action :=
  demo_posts ++
  [ AWorkerThread (0%N, 1%nat); AWorkerThread (0%N, 1%nat);
    AWorkerThread (0%N, 0%nat); ATick 7 ].

Definition demo_full : State := run demo_posts init.
Definition demo : State := run demo_acts init.

(** After the posts, with both worker threads past their entry. *)
Definition demo_entered : State :=
  run (demo_posts ++ [AWorkerThread (0%N, 1%nat); AWorkerThread (0%N, 0%nat)]) init.

(** The small process followed by the construction of a second group. *)
Definition demo_two_groups : list Action :=
  demo_acts ++ [AConstruct 1 2 (λ _, UserPoller 0)].

(** ** A process in which the group ids wrap around

    A group with two workers and room for three items is constructed first,
    at address 0 and with the id 0.  Client thread 0 posts to it, naming a
    worker it does not have: the post is rejected, and the thread's cache
    holds a handle on that group's queue under the id 0 from then on.  The
    thread of worker 0 enters its loop.  Then [2^64 - 1] groups without
    workers are constructed ([fill]), and after them one more group, with
    one worker and room for one item: it sits at address [2^64]
    ([wrapped_group]) and is given the id 0 again. *)
Definition wrap_prefix : list Action :=
  [ AConstruct 2 3 (λ _, DefaultWorkerPoller);
    ACall 0 (CallPostTaskTo 0 7 (demo_user 0));
    AWorkerThread (0%N, 0%nat) ].

(** [n] more groups without workers. *)
Definition fill (n : N) (s : State) : State :=
  N.iter n (WorkerGroup_ctor_default 0 0) s.

Definition wrapped_group : Addr := 18446744073709551616.

Definition is_construct (e : Event) : Prop := ∃ g gid, e = EvConstruct g gid.

(** The producer handles thread [t] has registered for group id [gid]. *)
Definition registrations (t : ThreadId) (gid : N) (tr : list Event) : list OutQueue :=
  omap (λ e, match e with
             | EvRegister t' q p =>
                 if decide (t' = t ∧ size_t_wrap q = gid)
                 then Some {| oq_queue := q; oq_producer := p |} else None
             | _ => None
             end) tr.

(** The caches agree with the history: a thread's entry for a group id is
    populated exactly when the thread has registered a producer for that
    id, which it does at most once, and then holds the handle it was
    given. *)
Record cache_ok (s : State) : Prop := mkCacheOk {
  co_len : ∀ t, length (tls_client_ctx_cache_ (thread_local t s))
               = N.to_nat kClientCtxCacheSize;
  co_reg : ∀ t gid, registrations t gid (trace s)
                    = option_list (out_queue (client_ctx t gid s));
  co_addr : ∀ t gid h, out_queue (client_ctx t gid s) = Some h →
              (oq_queue h < next_addr s)%N }.

Definition sound (s : State) : Prop := good s ∧ cache_ok s.

(** ** Further readings of the log *)

(** The sleeps of the default poller, in microseconds, in order. *)
Definition usleeps (tr : list Event) : list N :=
  omap (λ e, match e with EvUsleep u => Some u | _ => None end) tr.

(** Events caused on thread [t] while a timer wheel is advanced: the firing
    of timers and what the callbacks do. *)
Definition fire_event (t : ThreadId) (e : Event) : Prop :=
  client_event t e ∨ ∃ w c, e = EvFire w c.

(** The registrations and pushes in a log, the only events a posting call
    can cause. *)
Definition is_register (e : Event) : bool :=
  match e with EvRegister _ _ _ => true | _ => false end.

Definition is_push (e : Event) : bool :=
  match e with EvPush _ _ _ => true | _ => false end.

(** What the thread of a worker still logs when the worker is destroyed in
    phase [ph]: a thread that has not run yet enters and leaves at once, a
    thread in its loop leaves. *)
Definition exit_log (w : WorkerPtr) (ph : ThreadPhase) : list Event :=
  match ph with
  | Created => [EvEntry w; EvExit w]
  | Running => [EvExit w]
  | Exited => []
  end.

(** What a call leaves alone, and the two events it can log. *)
Record call_shape (t : ThreadId) (item : Closure) (r : bool) (s s' : State) : Prop :=
  mkCallShape {
    cs_workers : workers s' = workers s;
    cs_groups : groups s' = groups s;
    cs_clock : clock s' = clock s;
    cs_next_addr : next_addr s' = next_addr s;
    cs_next_id : s_next_group_id_ s' = s_next_group_id_ s;
    cs_null : null_deref s' = null_deref s;
    cs_tls : ∀ t', t' ≠ t → thread_local t' s' = thread_local t' s;
    cs_self : Worker_self t s' = Worker_self t s;
    cs_trace : ∃ reg push, trace s' = trace s ++ reg ++ push ∧
      (reg = [] ∨ ∃ q p, reg = [EvRegister t q p]) ∧
      (if r then ∃ q l, push = [EvPush q l item] else push = []) }.


(** ** Ownership

    What the shared ownership of the queue and the life cycle of the
    workers rest on. *)

(** Who holds a queue and how many producers have registered with it. *)
Definition owner_view (tq : TaskQueue) : gset Holder * N := (holders tq, producers tq).

(** The stop flag of a worker and the position of its thread. *)
Definition worker_view (wk : Worker) : bool * ThreadPhase := (stop_flag_ wk, phase wk).

Record safe (s : State) : Prop := mkSafe {
  (** a worker that is allocated has not been told to stop *)
  sf_flag : ∀ w wk, workers s !! w = Some wk → stop_flag_ wk = false ∧ phase wk ≠ Exited;
  (** the group an allocated worker points back to is allocated *)
  sf_back : ∀ w wk, workers s !! w = Some wk → is_Some (groups s !! w.1);
  (** the queue of a group is allocated and held by the group *)
  sf_queue : ∀ g grp, groups s !! g = Some grp →
    ∃ tq, queues s !! queue_ grp = Some tq ∧ HolderGroup g ∈ holders tq;
  (** [tls_self_] is set on worker threads only, to the thread's worker *)
  sf_self : ∀ t w, Worker_self t s = Some w → t = WorkerThread w;
  (** a populated cache entry holds a reference to the queue its handle
      points into, and that queue is allocated *)
  sf_entry : ∀ t gid h, out_queue (client_ctx t gid s) = Some h →
    queue_holder (client_ctx t gid s) = Some (oq_queue h) ∧
    ∃ tq, queues s !! oq_queue h = Some tq ∧ HolderThread t gid ∈ holders tq ∧
      (oq_producer h < producers tq)%N;
  (** an empty cache entry holds nothing *)
  sf_empty : ∀ t gid, out_queue (client_ctx t gid s) = None →
    queue_holder (client_ctx t gid s) = None;
  (** an allocated queue has a holder, and its holders are its group, if
      that is allocated, and the cache entries that refer to it *)
  sf_holders : ∀ q tq, queues s !! q = Some tq →
    holders tq ≠ ∅ ∧
    ∀ h, h ∈ holders tq →
      match h with
      | HolderGroup g => g = q ∧ is_Some (groups s !! g)
      | HolderThread t gid => queue_holder (client_ctx t gid s) = Some q
      end }.

(** All the invariants of the process together. *)
Definition secure (s : State) : Prop := sound s ∧ safe s.

(** ** The name of a worker's thread

    [Worker::Worker] prints the name into [char name[16]] with
    [snprintf(name, sizeof(name), "w%lu-%lu", grp->id(), id)] and hands it
    to [CreateThread]. *)

Definition digit (d : N) : ascii := ascii_of_N (48 + d).

(** [%lu]: the decimal digits of [n], the most significant first; 20 digits
    hold every value of a 64-bit [unsigned long]. *)
Fixpoint print_lu_fuel (fuel : nat) (n : N) : list ascii :=
  match fuel with
  | O => []
  | S fuel' =>
      if decide (n < 10)%N then [digit n]
      else print_lu_fuel fuel' (n / 10) ++ [digit (n mod 10)]
  end.

Definition print_lu (n : N) : list ascii := print_lu_fuel 20 n.

(** What the format produces, before [snprintf] cuts it. *)
Definition Worker_thread_name_full (grp_id id : N) : list ascii :=
  "w"%char :: print_lu grp_id ++ "-"%char :: print_lu id.

(** The characters [snprintf] stores in a buffer of [size] bytes: at most
    [size - 1], the last byte being the terminating NUL. *)
Definition snprintf_stored (size : nat) (out : list ascii) : list ascii :=
  take (size - 1) out.

Definition Worker_thread_name (grp_id id : N) : list ascii :=
  snprintf_stored 16 (Worker_thread_name_full grp_id id).

(** The number a string of decimal digits stands for. *)
Definition digits_value (ds : list ascii) : N :=
  fold_left (λ acc c, 10 * acc + (N_of_ascii c - 48))%N ds 0%N.

(** User code named in an event ran on the thread of a worker. *)
Definition on_worker_thread (e : Event) : Prop :=
  match e with
  | EvUser t _ => ∃ w, t = WorkerThread w
  | _ => True
  end.

(** What a quantum of a thread keeps of the groups and workers: the
    groups, which workers are allocated, and the thread of each. *)
Definition crew_kept (s s' : State) : Prop :=
  groups s' = groups s ∧
  ∀ w, thread_ <$> workers s' !! w = thread_ <$> workers s !! w.

(** What a scheduling quantum keeps of the queues: the capacity and the
    number of lanes of every queue, and the addresses handed out. *)
Definition shape_kept (s s' : State) : Prop :=
  next_addr s' = next_addr s ∧
  ∀ q, queue_shape <$> queues s' !! q = queue_shape <$> queues s !! q.

(** [n] quanta in a row of the thread [t] of worker [w]. *)
Fixpoint passes (n : nat) (t : ThreadId) (w : WorkerPtr) (s : State) : State :=
  match n with
  | O => s
  | S n' => passes n' t w (WorkerMainEntry_step t w s)
  end.

(** Events of a quantum of worker [w] on thread [t]: the closures invoked
    are invoked by [w], user code runs on [t], nothing is constructed. *)
Definition worker_event (t : ThreadId) (w : WorkerPtr) (e : Event) : Prop :=
  match e with
  | EvExec w' _ => w' = w
  | EvRegister t' _ _ | EvUser t' _ => t' = t
  | EvConstruct _ _ => False
  | _ => True
  end.

(** * Proofs *)

(** ** The task queue *)

Lemma Push_to_lanes lane c tq tq1 :
  Push_to lane c tq = Some tq1 →
  ∃ items, lanes tq !! lane = Some items ∧
    lanes tq1 = <[lane := items ++ [c]]> (lanes tq) ∧ capacity tq1 = capacity tq ∧
    (N.of_nat (in_flight tq) < capacity tq)%N.
Proof.
  unfold Push_to. destruct (lanes tq !! lane) as [items|] eqn:E; [|done].
  case_decide; [|done]. intros [= <-]. eauto.
Qed.

Lemma Push_lanes c tq lane tq' :
  Push c tq = Some (lane, tq') →
  ∃ tq1, Push_to lane c tq = Some tq1 ∧ lanes tq' = lanes tq1 ∧
    capacity tq' = capacity tq1 ∧ lane = place tq.
Proof.
  unfold Push. destruct (Push_to (place tq) c tq) as [tq1|] eqn:E; [|done].
  intros [= <- <-]. eauto.
Qed.

Lemma pushed_app q l tr1 tr2 : pushed q l (tr1 ++ tr2) = pushed q l tr1 ++ pushed q l tr2.
Proof. apply omap_app. Qed.

Lemma executed_by_app w tr1 tr2 :
  executed_by w (tr1 ++ tr2) = executed_by w tr1 ++ executed_by w tr2.
Proof. apply omap_app. Qed.

(** ** Closures only take atomic client transitions *)

Lemma frame_refl P s : frame P s s.
Proof.
  split; try done. exists []. split_and!; [by rewrite app_nil_r | constructor |].
  intros. by rewrite app_nil_r.
Qed.

Lemma frame_trans P s1 s2 s3 : frame P s1 s2 → frame P s2 s3 → frame P s1 s3.
Proof.
  intros [A1 A2 A3 A4 A5 A6 A7 (e1 & T1 & C1 & L1)] [B1 B2 B3 B4 B5 B6 B7 (e2 & T2 & C2 & L2)].
  split; [congruence | congruence | congruence | congruence | | | |].
  - intros w. by rewrite B5.
  - intros t. by rewrite B6.
  - intros q. by rewrite B7.
  - exists (e1 ++ e2). split_and!.
    + by rewrite T2, T1, app_assoc.
    + by apply Forall_app.
    + intros q l. by rewrite L2, L1, pushed_app, app_assoc.
Qed.

Lemma lane_items_log inq e s : lane_items inq (log e s) = lane_items inq s.
Proof. done. Qed.

Lemma lane_items_set_workers inq f s : lane_items inq (set_workers f s) = lane_items inq s.
Proof. done. Qed.

Lemma lane_items_insert_other q q' l tq' s :
  q ≠ q' → lane_items (q, l) (set_queues (insert q' tq') s) = lane_items (q, l) s.
Proof. intros Hne. unfold lane_items. simpl. by rewrite lookup_insert_ne. Qed.

Lemma lane_items_insert_same q l tq' s :
  lane_items (q, l) (set_queues (insert q tq') s) = default [] (lanes tq' !! l).
Proof. unfold lane_items. simpl. by rewrite lookup_insert_eq. Qed.

Lemma cprim_frame t s s' : cprim t s s' → frame (client_event t) s s'.
Proof.
  destruct 1 as [s q tq tq' Hq Hl Hc | s gid c | s e He
                | s q tq lane c tq1 tq' Hq Hp Hl Hc | s w wk tms Hw | s].
  - split; try done.
    + intros q0. simpl. destruct (decide (q = q0)) as [->|Hne].
      * rewrite lookup_insert_eq, Hq. simpl. unfold queue_shape. by rewrite Hl, Hc.
      * by rewrite lookup_insert_ne.
    + exists []. split_and!; [by rewrite app_nil_r | constructor |].
      intros q0 l. rewrite app_nil_r. destruct (decide (q0 = q)) as [->|Hne].
      * rewrite lane_items_insert_same. unfold lane_items. simpl. by rewrite Hq, Hl.
      * by apply lane_items_insert_other.
  - split; try done.
    + intros t0. unfold Worker_self, thread_local, set_client_ctx. simpl.
      destruct (decide (t = t0)) as [->|Hne].
      * rewrite lookup_insert_eq. simpl. by case_decide.
      * by rewrite lookup_insert_ne.
    + exists []. split_and!; [by rewrite app_nil_r | constructor |].
      intros. by rewrite app_nil_r.
  - split; try done. exists [e]. split_and!; [done | | ].
    + constructor; [|constructor]. by destruct e.
    + intros q l. unfold pushed. destruct e; try done; simpl; by rewrite app_nil_r.
  - apply Push_to_lanes in Hp as (items & Hi & Hl1 & Hc1 & _).
    split; try done.
    + intros q0. simpl. destruct (decide (q = q0)) as [->|Hne].
      * rewrite lookup_insert_eq, Hq. simpl. unfold queue_shape.
        by rewrite Hl, Hc, Hl1, Hc1, length_insert.
      * by rewrite lookup_insert_ne.
    + exists [EvPush q lane c]. split_and!; [done | by repeat constructor |].
      intros q0 l. unfold pushed. simpl. case_decide as Hd.
      * destruct Hd as [-> ->]. unfold lane_items. simpl.
        rewrite lookup_insert_eq, Hq, Hl, Hl1.
        rewrite list_lookup_insert_eq by (by eapply lookup_lt_Some). by rewrite Hi.
      * rewrite app_nil_r. unfold lane_items. simpl.
        destruct (decide (q = q0)) as [->|Hne]; [|by rewrite lookup_insert_ne].
        rewrite lookup_insert_eq, Hq, Hl, Hl1.
        rewrite list_lookup_insert_ne; [done|]. intros ->. by apply Hd.
  - split; try done.
    + intros w0. simpl. destruct (decide (w = w0)) as [->|Hne].
      * by rewrite lookup_insert_eq, Hw.
      * by rewrite lookup_insert_ne.
    + exists []. split_and!; [by rewrite app_nil_r | constructor |].
      intros. by rewrite app_nil_r.
  - split; try done. exists []. split_and!; [by rewrite app_nil_r | constructor |].
    intros. by rewrite app_nil_r.
Qed.

Lemma rtc_cprim_frame t s s' : rtc (cprim t) s s' → frame (client_event t) s s'.
Proof.
  induction 1 as [|s1 s2 s3 H12 _ IH]; [apply frame_refl|].
  eapply frame_trans; [by eapply cprim_frame | done].
Qed.

Lemma GetOutQueue_steps t g s : rtc (cprim t) s (GetOutQueue t g s).2.
Proof.
  unfold GetOutQueue. destruct (groups s !! g) as [grp|] eqn:Hg; [|done].
  destruct (ctx_bool _); [done|].
  destruct (queues s !! queue_ grp) as [tq|] eqn:Hq; [|done].
  unfold RegisterProducer. cbv beta iota zeta. cbn [snd].
  eapply rtc_r; [|by apply cp_log]. eapply rtc_r; [|apply cp_ctx].
  apply rtc_once. by eapply cp_queue_meta.
Qed.

Lemma OutQueue_Push_steps t outq func s : rtc (cprim t) s (OutQueue_Push outq func s).2.
Proof.
  unfold OutQueue_Push. destruct outq as [h|]; [|done].
  destruct (queues s !! oq_queue h) as [tq|] eqn:Hq; [|done].
  destruct (Push func tq) as [[lane tq']|] eqn:Hp; [|done]. cbn [snd].
  apply Push_lanes in Hp as (tq1 & Hp & Hl & Hc & _).
  apply rtc_once. by eapply cp_push.
Qed.

Lemma OutQueue_Push_to_steps t outq i func s : rtc (cprim t) s (OutQueue_Push_to outq i func s).2.
Proof.
  unfold OutQueue_Push_to. destruct outq as [h|]; [|done].
  destruct (queues s !! oq_queue h) as [tq|] eqn:Hq; [|done].
  destruct (Push_to (N.to_nat i) func tq) as [tq'|] eqn:Hp; [|done]. cbn [snd].
  apply rtc_once. by eapply cp_push.
Qed.

Lemma post_steps t g func s : rtc (cprim t) s (PostTask t g func s).2.
Proof.
  unfold PostTask. pose proof (GetOutQueue_steps t g s) as H.
  destruct (GetOutQueue t g s) as [outq s1]. simpl in H.
  etrans; [done | apply OutQueue_Push_steps].
Qed.

Lemma post_to_steps t g i func s : rtc (cprim t) s (PostTask_to t g i func s).2.
Proof.
  unfold PostTask_to. pose proof (GetOutQueue_steps t g s) as H.
  destruct (GetOutQueue t g s) as [outq s1]. simpl in H.
  etrans; [done | apply OutQueue_Push_to_steps].
Qed.

Lemma run_call_steps t call s : rtc (cprim t) s (run_call t call s).
Proof.
  unfold run_call. destruct call; simpl;
    try apply post_steps; try apply post_to_steps.
  unfold Worker_PostTask. destruct (workers s !! w); [apply post_to_steps | done].
Qed.

Lemma fold_left_steps {A} (R : relation State) (f : State → A → State) l :
  (∀ s a, rtc R s (f s a)) → ∀ s, rtc R s (fold_left f l s).
Proof.
  intros Hf. induction l as [|a l IH]; intros s; simpl; [done|].
  etrans; [apply Hf | apply IH].
Qed.

Lemma AddTimer_steps t w d func s : rtc (cprim t) s (AddTimer w d func s).
Proof.
  unfold AddTimer. destruct (workers s !! w) as [wk|] eqn:Hw; [|done].
  eapply rtc_r; [|by apply cp_log]. apply rtc_once. by apply cp_timers.
Qed.

Lemma AddPeriodTimer_steps t w p func s : rtc (cprim t) s (AddPeriodTimer w p func s).
Proof.
  unfold AddPeriodTimer. destruct (workers s !! w) as [wk|] eqn:Hw; [|done].
  eapply rtc_r; [|by apply cp_log]. apply rtc_once. by apply cp_timers.
Qed.

Lemma run_closure_steps t c s : rtc (cprim t) s (run_closure t c s).
Proof.
  destruct c as [tag calls | func d | func p]; simpl.
  - eapply rtc_l; [by apply (cp_log t s (EvUser t tag))|].
    apply fold_left_steps. intros. apply run_call_steps.
  - destruct (Worker_self t s); [apply AddTimer_steps | apply rtc_once, cp_fault].
  - destruct (Worker_self t s); [apply AddPeriodTimer_steps | apply rtc_once, cp_fault].
Qed.

Lemma run_closure_frame t c s : frame (client_event t) s (run_closure t c s).
Proof. apply rtc_cprim_frame, run_closure_steps. Qed.

(** ** Draining a lane *)

Lemma executed_by_client t w evs : Forall (client_event t) evs → executed_by w evs = [].
Proof.
  induction 1 as [|e evs He _ IH]; [done|].
  change (e :: evs) with ([e] ++ evs). rewrite executed_by_app, IH.
  by destruct e.
Qed.

Lemma InQueue_Pop_Some inq s c s1 :
  InQueue_Pop inq s = Some (c, s1) →
  lane_items inq s = c :: lane_items inq s1 ∧
  trace s1 = trace s ∧ workers s1 = workers s ∧
  ∃ tq tq', queues s !! inq.1 = Some tq ∧ Pop inq.2 tq = Some (c, tq') ∧
    s1 = set_queues (insert inq.1 tq') s.
Proof.
  unfold InQueue_Pop, lane_items. destruct inq as [q l]. simpl.
  destruct (queues s !! q) as [tq|] eqn:Hq; [|done].
  destruct (Pop l tq) as [[c' tq']|] eqn:Hp; [|done]. intros [= -> <-].
  split_and!; try done; [|by eauto]. simpl. rewrite lookup_insert_eq.
  unfold Pop in Hp. destruct (lanes tq !! l) as [[|c0 rest]|] eqn:Hl; try done.
  injection Hp as -> <-. simpl.
  by rewrite list_lookup_insert_eq by (by eapply lookup_lt_Some).
Qed.

Lemma InQueue_Pop_None inq s : InQueue_Pop inq s = None → lane_items inq s = [].
Proof.
  unfold InQueue_Pop, lane_items. destruct inq as [q l]. simpl.
  destruct (queues s !! q) as [tq|]; [|done]. unfold Pop.
  by destruct (lanes tq !! l) as [[|c0 rest]|].
Qed.

Lemma frame_worker P s s' w wk :
  frame P s s' → workers s !! w = Some wk →
  ∃ wk', workers s' !! w = Some wk' ∧ fixed_part wk' = fixed_part wk.
Proof.
  intros F Hw. pose proof (fr_workers _ _ _ F w) as H. rewrite Hw in H.
  destruct (workers s' !! w) as [wk'|]; [|done]. simpl in H.
  exists wk'. split; [done | congruence].
Qed.

Lemma fixed_part_inq wk wk' : fixed_part wk' = fixed_part wk → inq_ wk' = inq_ wk.
Proof. intros H. by apply (f_equal inq_) in H. Qed.

Lemma BatchProcessTasks_loop_spec t this remaining : ∀ cnt s wk,
  workers s !! this = Some wk →
  ∃ evs,
    trace (BatchProcessTasks_loop t this remaining cnt s).2 = trace s ++ evs ∧
    (BatchProcessTasks_loop t this remaining cnt s).1
      = (cnt + N.of_nat (length (executed_by this evs)))%N ∧
    (length (executed_by this evs) ≤ remaining)%nat ∧
    Forall (batch_event t this) evs ∧
    executed_by this evs ++ lane_items (inq_ wk) (BatchProcessTasks_loop t this remaining cnt s).2
      = lane_items (inq_ wk) s ++ pushed (inq_ wk).1 (inq_ wk).2 evs ∧
    ((length (executed_by this evs) < remaining)%nat →
       lane_items (inq_ wk) (BatchProcessTasks_loop t this remaining cnt s).2 = []) ∧
    ∃ wk', workers (BatchProcessTasks_loop t this remaining cnt s).2 !! this = Some wk' ∧
      fixed_part wk' = fixed_part wk.
Proof.
  induction remaining as [|k IH]; intros cnt s wk Hw; simpl.
  { exists []. rewrite !app_nil_r. simpl. split_and!; try done; [lia | lia | eauto]. }
  rewrite Hw. destruct (InQueue_Pop (inq_ wk) s) as [[c s1]|] eqn:Hpop.
  - apply InQueue_Pop_Some in Hpop as (Hlane & Htr & Hws & _).
    set (s2 := run_closure t c (log (EvExec this c) s1)).
    pose proof (run_closure_frame t c (log (EvExec this c) s1)) as F. fold s2 in F.
    destruct (frame_worker _ _ _ this wk F) as (wk2 & Hw2 & Hfix); [simpl; congruence|].
    destruct (fr_trace _ _ _ F) as (evc & Htc & Hcl & Hlc).
    destruct (IH (cnt + 1)%N s2 wk2 Hw2)
      as (evs & T & Hn & Hle & Hall & Hfifo & Hemp & wk' & Hw' & Hfix').
    rewrite (fixed_part_inq _ _ Hfix) in Hfifo, Hemp.
    exists (EvExec this c :: evc ++ evs).
    assert (Hex : executed_by this (EvExec this c :: evc ++ evs) = c :: executed_by this evs).
    { change (EvExec this c :: evc ++ evs) with ([EvExec this c] ++ evc ++ evs).
      rewrite !executed_by_app, (executed_by_client _ _ _ Hcl).
      unfold executed_by at 1. simpl. by destruct (decide (this = this)). }
    rewrite Hex. simpl. split_and!.
    + rewrite T, Htc. simpl. rewrite Htr. by rewrite <- !app_assoc.
    + rewrite Hn. lia.
    + lia.
    + constructor; [right; eauto|]. apply Forall_app. split; [|done].
      eapply Forall_impl; [done|]. intros e He. by left.
    + rewrite Hfifo. destruct (inq_ wk) as [q l] eqn:Hinq. simpl.
      rewrite (Hlc q l), Hlane.
      change (EvExec this c :: evc ++ evs) with ([EvExec this c] ++ evc ++ evs).
      rewrite !pushed_app. unfold lane_items at 1. simpl. fold (lane_items (q, l) s1).
      by rewrite <- !app_assoc.
    + intros Hlt. apply Hemp. lia.
    + exists wk'. split; [done | congruence].
  - exists []. rewrite !app_nil_r. simpl.
    split_and!; [done | lia | lia | constructor | by rewrite (InQueue_Pop_None _ _ Hpop)
                | intros _; by apply InQueue_Pop_None | eauto].
Qed.

(** ** One pass of the run loop *)

Lemma frame_mono (P Q : Event → Prop) s s' :
  (∀ e, P e → Q e) → frame P s s' → frame Q s s'.
Proof.
  intros HPQ [A1 A2 A3 A4 A5 A6 A7 (evs & T & HP & L)].
  split; try done. exists evs. split_and!; [done | | done].
  by eapply Forall_impl.
Qed.

Lemma frame_log (P : Event → Prop) e s :
  P e → (∀ q l c, e ≠ EvPush q l c) → frame P s (log e s).
Proof.
  intros HP Hne. split; try done. exists [e]. split_and!; [done | by repeat constructor |].
  intros q l. unfold pushed. destruct e; simpl; try by rewrite app_nil_r.
  by destruct (Hne q0 lane item).
Qed.

Lemma client_quiet t e : client_event t e → quiet_event t e.
Proof. by destruct e. Qed.

Lemma fire_frame t this (fired : list Timer) : ∀ s,
  frame (quiet_event t) s
    (fold_left (λ s' tm, run_closure t (callback tm) (log (EvFire this (callback tm)) s'))
       fired s).
Proof.
  induction fired as [|tm fired IH]; intros s; [apply frame_refl|].
  cbn [fold_left]. eapply frame_trans; [|apply IH].
  apply (frame_trans _ _ (log (EvFire this (callback tm)) s)).
  - by apply frame_log.
  - eapply frame_mono; [apply client_quiet | apply run_closure_frame].
Qed.

Lemma MoveOn_spec t this s wk :
  workers s !! this = Some wk →
  ∃ tms, frame (quiet_event t)
           (log (EvMoveOn this (clock s))
              (set_workers (insert this (with_timers tms wk)) s))
           (MoveOn t this s).
Proof.
  intros Hw. unfold MoveOn. rewrite Hw. eexists. apply fire_frame.
Qed.

Lemma loop_events_app w tr1 tr2 : loop_events w (tr1 ++ tr2) = loop_events w tr1 ++ loop_events w tr2.
Proof. apply omap_app. Qed.

Lemma loop_events_quiet t w evs : Forall (quiet_event t) evs → loop_events w evs = [].
Proof.
  induction 1 as [|e evs He _ IH]; [done|].
  change (e :: evs) with ([e] ++ evs). rewrite loop_events_app, IH.
  by destruct e.
Qed.

Lemma loop_events_batch t w evs :
  Forall (batch_event t w) evs → loop_events w evs = map (EvExec w) (executed_by w evs).
Proof.
  induction 1 as [|e evs He _ IH]; [done|].
  change (e :: evs) with ([e] ++ evs).
  rewrite loop_events_app, executed_by_app, map_app, IH. f_equal.
  destruct He as [He | [c ->]].
  - by destruct e.
  - unfold loop_events, executed_by. simpl. by destruct (decide (w = w)).
Qed.

Lemma Poll_quiet t p timeout s : frame (quiet_event t) s (Poll p timeout s).
Proof.
  destruct p; simpl; [|apply frame_refl].
  case_decide; [by apply frame_log | apply frame_refl].
Qed.

Lemma fixed_part_fields wk wk' :
  fixed_part wk' = fixed_part wk →
  phase wk' = phase wk ∧ stop_flag_ wk' = stop_flag_ wk ∧ poller_ wk' = poller_ wk ∧
  inq_ wk' = inq_ wk ∧ group_ wk' = group_ wk ∧ id_ wk' = id_ wk ∧ thread_ wk' = thread_ wk.
Proof.
  intros H. split_and!;
    [ by apply (f_equal phase) in H | by apply (f_equal stop_flag_) in H
    | by apply (f_equal poller_) in H | by apply (f_equal inq_) in H
    | by apply (f_equal group_) in H | by apply (f_equal id_) in H
    | by apply (f_equal thread_) in H ].
Qed.

Lemma loop_body_spec t this s wk :
  workers s !! this = Some wk →
  ∃ evs cs wk',
    trace (loop_body t this s) = trace s ++ evs ∧
    loop_events this evs = iteration this (clock s) cs ∧
    (length cs ≤ N.to_nat kMaxBatchProcessTasks)%nat ∧
    Forall (on_thread t) evs ∧
    cs ++ lane_items (inq_ wk) (loop_body t this s)
      = lane_items (inq_ wk) s ++ pushed (inq_ wk).1 (inq_ wk).2 evs ∧
    workers (loop_body t this s) !! this = Some wk' ∧
    fixed_part wk' = fixed_part wk.
Proof.
  intros Hw. unfold loop_body.
  destruct (MoveOn_spec t this s wk Hw) as (tms & F1).
  set (s0 := log (EvMoveOn this (clock s))
               (set_workers (insert this (with_timers tms wk)) s)) in F1.
  set (s1 := MoveOn t this s) in *.
  assert (Hw0 : workers s0 !! this = Some (with_timers tms wk)).
  { subst s0. simpl. by rewrite lookup_insert_eq. }
  destruct (frame_worker _ _ _ this _ F1 Hw0) as (wk1 & Hw1 & Hfix1).
  destruct (fr_trace _ _ _ F1) as (ev1 & T1 & Q1 & L1).
  unfold BatchProcessTasks.
  destruct (BatchProcessTasks_loop_spec t this (N.to_nat kMaxBatchProcessTasks) 0%N s1 wk1 Hw1)
    as (ev2 & T2 & Hn & Hle & Hall & L2 & _ & wk2 & Hw2 & Hfix2).
  destruct (BatchProcessTasks_loop t this (N.to_nat kMaxBatchProcessTasks) 0 s1) as [n s2].
  simpl in T2, Hn, Hw2, L2. rewrite Hw2.
  assert (Hinq1 : inq_ wk1 = inq_ wk) by (by apply fixed_part_inq in Hfix1).
  rewrite Hinq1 in L2.
  set (timeout := if decide (n < kMaxBatchProcessTasks)%N then kPollerTimeoutMs else 0%N).
  pose proof (Poll_quiet t (poller_ wk2) timeout (log (EvPoll this timeout) s2)) as F3.
  destruct (frame_worker _ _ _ this wk2 F3) as (wk3 & Hw3 & Hfix3); [done|].
  destruct (fr_trace _ _ _ F3) as (ev3 & T3 & Q3 & L3).
  exists ([EvMoveOn this (clock s)] ++ ev1 ++ ev2 ++ [EvPoll this timeout] ++ ev3),
    (executed_by this ev2), wk3.
  split_and!.
  - rewrite T3. simpl. rewrite T2, T1. subst s0. simpl. by rewrite <- !app_assoc.
  - rewrite !loop_events_app, (loop_events_quiet _ _ _ Q1), (loop_events_quiet _ _ _ Q3),
      (loop_events_batch _ _ _ Hall).
    unfold iteration, loop_events. simpl. rewrite !decide_True by done.
    rewrite app_nil_r. subst timeout. by rewrite Hn.
  - done.
  - repeat (apply Forall_app; split); try (by repeat constructor).
    + eapply Forall_impl; [exact Q1|]. intros e. by destruct e.
    + eapply Forall_impl; [exact Hall|]. intros e [He | [c ->]]; [by destruct e | done].
    + eapply Forall_impl; [exact Q3|]. intros e. by destruct e.
  - destruct (inq_ wk) as [q l]. simpl in *.
    rewrite (L3 q l), lane_items_log, app_assoc, L2, (L1 q l), !pushed_app.
    subst s0. rewrite lane_items_log, lane_items_set_workers.
    change (pushed q l [EvMoveOn this (clock s)]) with (@nil Closure).
    change (pushed q l [EvPoll this timeout]) with (@nil Closure).
    simpl. by rewrite <- !app_assoc.
  - done.
  - rewrite Hfix3, Hfix2, Hfix1. done.
Qed.

(** ** Posting *)

Lemma concat_insert_length {A} (ls : list (list A)) : ∀ l items items',
  ls !! l = Some items →
  (length (concat (<[l := items']> ls)) + length items
   = length (concat ls) + length items')%nat.
Proof.
  induction ls as [|x ls IH]; intros [|l] items items' Hl; simpl in *; try done.
  - injection Hl as ->. rewrite !length_app. lia.
  - rewrite !length_app. specialize (IH l items items' Hl). lia.
Qed.

Lemma Push_to_in_flight lane c tq tq1 :
  Push_to lane c tq = Some tq1 → in_flight tq1 = S (in_flight tq).
Proof.
  intros H. apply Push_to_lanes in H as (items & Hi & Hl & _).
  unfold in_flight. rewrite Hl.
  pose proof (concat_insert_length (lanes tq) lane items (items ++ [c]) Hi) as E.
  rewrite length_app in E. simpl in E. lia.
Qed.

Lemma Push_to_None lane c tq :
  Push_to lane c tq = None →
  (lane < length (lanes tq))%nat → (capacity tq ≤ N.of_nat (in_flight tq))%N.
Proof.
  unfold Push_to. intros H Hlt. apply lookup_lt_is_Some in Hlt as [items Hi].
  rewrite Hi in H. case_decide; [done | lia].
Qed.

Lemma Pop_in_flight lane tq c tq' :
  Pop lane tq = Some (c, tq') →
  S (in_flight tq') = in_flight tq ∧ capacity tq' = capacity tq ∧
  length (lanes tq') = length (lanes tq).
Proof.
  unfold Pop. destruct (lanes tq !! lane) as [[|c0 rest]|] eqn:Hl; try done.
  intros [= -> <-]. simpl. split_and!; [|done|by rewrite length_insert].
  unfold in_flight. simpl.
  pose proof (concat_insert_length (lanes tq) lane (c :: rest) rest Hl) as E.
  simpl in E. lia.
Qed.

Lemma place_lt tq : (0 < length (lanes tq))%nat → (place tq < length (lanes tq))%nat.
Proof. intros H. unfold place. apply Nat.mod_upper_bound. lia. Qed.

Lemma do_call_group t call g s :
  call_group call = Some g →
  do_call t call s =
    match call_target call with
    | Some i => OutQueue_Push_to (GetOutQueue t g s).1 i (call_item call) (GetOutQueue t g s).2
    | None => OutQueue_Push (GetOutQueue t g s).1 (call_item call) (GetOutQueue t g s).2
    end.
Proof.
  destruct call; simpl; intros [= <-];
    unfold PostTask, PostTask_to, PostTask_delay, PostTask_to_delay, PostPeriodTask,
      PostPeriodTask_to;
    by destruct (GetOutQueue t _ s).
Qed.

Lemma push_events_app tr1 tr2 : push_events (tr1 ++ tr2) = push_events tr1 ++ push_events tr2.
Proof. apply omap_app. Qed.

(** What resolving the handle does when the cache entry, if any, belongs
    to the group: it yields a handle on the group's queue and leaves lanes,
    capacity, workers and clock alone. *)
Lemma GetOutQueue_resolved t g s grp tq :
  groups s !! g = Some grp → queues s !! queue_ grp = Some tq → handle_ok t grp s →
  ∃ h tq1 evs,
    (GetOutQueue t g s).1 = Some h ∧ oq_queue h = queue_ grp ∧
    queues (GetOutQueue t g s).2 !! queue_ grp = Some tq1 ∧
    lanes tq1 = lanes tq ∧ capacity tq1 = capacity tq ∧ rr_cursor tq1 = rr_cursor tq ∧
    trace (GetOutQueue t g s).2 = trace s ++ evs ∧ push_events evs = [] ∧
    workers (GetOutQueue t g s).2 = workers s ∧
    (∀ inq, lane_items inq (GetOutQueue t g s).2 = lane_items inq s).
Proof.
  intros Hg Hq Hok. unfold GetOutQueue. rewrite Hg.
  unfold ctx_bool. destruct (out_queue (client_ctx t (group_id_ grp) s)) as [h|] eqn:Hctx.
  - exists h, tq, []. simpl. rewrite app_nil_r. split_and!; try done. by apply Hok.
  - rewrite Hq. unfold RegisterProducer. cbv beta iota zeta. cbn [fst snd].
    do 3 eexists. split_and!.
    3: { simpl. by rewrite lookup_insert_eq. }
    all: try done.
    intros [q l]. rewrite lane_items_log. unfold lane_items. simpl.
    destruct (decide (queue_ grp = q)) as [<-|Hne].
    + by rewrite lookup_insert_eq, Hq.
    + by rewrite lookup_insert_ne.
Qed.

Lemma Push_to_congr l c tq0 tq :
  lanes tq0 = lanes tq → capacity tq0 = capacity tq →
  match Push_to l c tq0, Push_to l c tq with
  | Some a, Some b => lanes a = lanes b ∧ capacity a = capacity b
  | None, None => True
  | _, _ => False
  end.
Proof.
  intros Hl Hc. unfold Push_to, in_flight. rewrite Hl, Hc.
  destruct (lanes tq !! l); [|done]. by case_decide.
Qed.

Lemma lane_items_pushed q lane c tq items tq' s :
  queues s !! q = Some tq → lanes tq !! lane = Some items →
  lanes tq' = <[lane := items ++ [c]]> (lanes tq) →
  ∀ inq, lane_items inq (log (EvPush q lane c) (set_queues (insert q tq') s))
         = if decide (inq = (q, lane)) then lane_items inq s ++ [c] else lane_items inq s.
Proof.
  intros Hq Hi Hl [q0 l0]. rewrite lane_items_log. unfold lane_items. simpl.
  case_decide as Hd.
  - injection Hd as -> ->. rewrite lookup_insert_eq, Hq, Hl.
    rewrite list_lookup_insert_eq by (by eapply lookup_lt_Some). by rewrite Hi.
  - destruct (decide (q = q0)) as [<-|Hne]; [|by rewrite lookup_insert_ne].
    rewrite lookup_insert_eq, Hq, Hl. rewrite list_lookup_insert_ne; [done|].
    intros <-. by apply Hd.
Qed.

(** The outcome of a posting call is the outcome of the queue's targeted
    push on the group's queue, at the lane named by the caller or chosen by
    the placement policy. *)
Lemma do_call_outcome t g s grp tq call :
  groups s !! g = Some grp → queues s !! queue_ grp = Some tq → handle_ok t grp s →
  call_group call = Some g →
  let lane := match call_target call with Some i => N.to_nat i | None => place tq end in
  ∃ evs,
    trace (do_call t call s).2 = trace s ++ evs ∧
    workers (do_call t call s).2 = workers s ∧
    match Push_to lane (call_item call) tq with
    | Some tq1 =>
        (do_call t call s).1 = true ∧
        push_events evs = [(queue_ grp, lane, call_item call)] ∧
        (∃ tq', queues (do_call t call s).2 !! queue_ grp = Some tq' ∧
                lanes tq' = lanes tq1 ∧ capacity tq' = capacity tq) ∧
        ∀ inq, lane_items inq (do_call t call s).2
               = if decide (inq = (queue_ grp, lane))
                 then lane_items inq s ++ [call_item call] else lane_items inq s
    | None =>
        (do_call t call s).1 = false ∧ push_events evs = [] ∧
        ∀ inq, lane_items inq (do_call t call s).2 = lane_items inq s
    end.
Proof.
  intros Hg Hq Hok Hcall lane. rewrite (do_call_group t call g s Hcall).
  destruct (GetOutQueue_resolved t g s grp tq Hg Hq Hok)
    as (h & tq0 & ev0 & Hh & Hhq & Hq0 & Hl0 & Hc0 & Hr0 & T0 & P0 & W0 & L0).
  destruct (GetOutQueue t g s) as [outq s1]. simpl in *. subst outq.
  pose proof (Push_to_congr lane (call_item call) tq0 tq Hl0 Hc0) as Hcongr.
  assert (Hplace : place tq0 = place tq) by (unfold place; by rewrite Hl0, Hr0).
  assert (Hres : ∀ b s',
    (b, s') = match Push_to lane (call_item call) tq0 with
              | Some tq' => (true, log (EvPush (queue_ grp) lane (call_item call))
                                     (set_queues (insert (queue_ grp) tq') s1))
              | None => (false, s1)
              end ∨
    (∃ tq1 tq', Push_to lane (call_item call) tq0 = Some tq1 ∧ lanes tq' = lanes tq1 ∧
        capacity tq' = capacity tq1 ∧
        (b, s') = (true, log (EvPush (queue_ grp) lane (call_item call))
                           (set_queues (insert (queue_ grp) tq') s1))) →
    ∃ evs, trace s' = trace s ++ evs ∧ workers s' = workers s ∧
      match Push_to lane (call_item call) tq with
      | Some tq1 =>
          b = true ∧ push_events evs = [(queue_ grp, lane, call_item call)] ∧
          (∃ tq', queues s' !! queue_ grp = Some tq' ∧
                  lanes tq' = lanes tq1 ∧ capacity tq' = capacity tq) ∧
          ∀ inq, lane_items inq s'
                 = if decide (inq = (queue_ grp, lane))
                   then lane_items inq s ++ [call_item call] else lane_items inq s
      | None => b = false ∧ push_events evs = [] ∧ ∀ inq, lane_items inq s' = lane_items inq s
      end).
  { intros b s' Hcase.
    assert (Hcase' : (Push_to lane (call_item call) tq0 = None ∧ (b, s') = (false, s1)) ∨
      (∃ tq1 tq', Push_to lane (call_item call) tq0 = Some tq1 ∧ lanes tq' = lanes tq1 ∧
        capacity tq' = capacity tq1 ∧
        (b, s') = (true, log (EvPush (queue_ grp) lane (call_item call))
                           (set_queues (insert (queue_ grp) tq') s1)))).
    { destruct Hcase as [E|E]; [|by right].
      destruct (Push_to lane (call_item call) tq0) as [tq1|]; [right|by left].
      by exists tq1, tq1. }
    clear Hcase. destruct Hcase' as [[Hn [= -> ->]] | (tq1 & tq' & Hs & Hl' & Hc' & [= -> ->])].
    - rewrite Hn in Hcongr. destruct (Push_to lane (call_item call) tq); [done|].
      exists ev0. by split_and!.
    - rewrite Hs in Hcongr.
      destruct (Push_to lane (call_item call) tq) as [tq2|] eqn:Hp2; [|done].
      destruct Hcongr as [Hl2 Hc2].
      apply Push_to_lanes in Hs as (items & Hi & Hl1 & Hc1 & _).
      exists (ev0 ++ [EvPush (queue_ grp) lane (call_item call)]). split_and!.
      + simpl. by rewrite T0, app_assoc.
      + done.
      + done.
      + by rewrite push_events_app, P0.
      + exists tq'. simpl. rewrite lookup_insert_eq. split_and!; congruence.
      + intros inq.
        rewrite (lane_items_pushed _ _ _ tq0 items tq' s1 Hq0 Hi) by congruence.
        by rewrite !L0. }
  destruct (call_target call) as [i|]; simpl in lane; subst lane.
  - unfold OutQueue_Push_to. rewrite Hhq, Hq0. apply Hres. left.
    by destruct (Push_to (N.to_nat i) (call_item call) tq0).
  - unfold OutQueue_Push. rewrite Hhq, Hq0. apply Hres.
    destruct (Push (call_item call) tq0) as [[l tq']|] eqn:Hp.
    + apply Push_lanes in Hp as (tq1 & Hp & Hl & Hc & ->). rewrite Hplace in *.
      right. by exists tq1, tq'.
    + left. unfold Push in Hp. rewrite Hplace in Hp.
      by destruct (Push_to (place tq) (call_item call) tq0).
Qed.



(** ** The thread-local handle cache *)

Lemma thread_local_set_client_ctx t gid c s :
  thread_local t (set_client_ctx t gid c s) =
    if decide (gid < kClientCtxCacheSize)%N
    then {| tls_self_ := tls_self_ (thread_local t s);
            tls_client_ctx_cache_ :=
              <[N.to_nat gid := c]> (tls_client_ctx_cache_ (thread_local t s));
            tls_client_ctx_ := tls_client_ctx_ (thread_local t s) |}
    else {| tls_self_ := tls_self_ (thread_local t s);
            tls_client_ctx_cache_ := tls_client_ctx_cache_ (thread_local t s);
            tls_client_ctx_ := <[gid := c]> (tls_client_ctx_ (thread_local t s)) |}.
Proof. unfold set_client_ctx, thread_local at 1. simpl. by rewrite lookup_insert_eq. Qed.

Lemma client_ctx_set t gid c s :
  length (tls_client_ctx_cache_ (thread_local t s)) = N.to_nat kClientCtxCacheSize →
  client_ctx t gid (set_client_ctx t gid c s) = c.
Proof.
  intros Hlen. unfold client_ctx. rewrite thread_local_set_client_ctx.
  case_decide as Hd; simpl.
  - rewrite list_lookup_insert_eq; [done|]. rewrite Hlen. lia.
  - by rewrite lookup_insert_eq.
Qed.


(** ** The invariants hold throughout *)

Lemma omap_inert {B} (f : Event → option B) (P : Event → Prop) evs :
  (∀ e, P e → f e = None) → Forall P evs → omap f evs = [].
Proof.
  intros Hf. induction 1 as [|e evs He _ IH]; [done|].
  change (e :: evs) with ([e] ++ evs). rewrite omap_app, IH. simpl. by rewrite (Hf e He).
Qed.

Lemma thread_events_app w tr1 tr2 :
  thread_events w (tr1 ++ tr2) = thread_events w tr1 ++ thread_events w tr2.
Proof. apply omap_app. Qed.

Lemma constructed_app tr1 tr2 : constructed (tr1 ++ tr2) = constructed tr1 ++ constructed tr2.
Proof. apply omap_app. Qed.

Lemma frame_presence P s s' q :
  frame P s s' → (queues s' !! q = None ↔ queues s !! q = None).
Proof.
  intros F. pose proof (fr_shape _ _ _ F q) as H.
  destruct (queues s' !! q), (queues s !! q); done.
Qed.

(** Steps that keep every worker's fixed members and log nothing about
    invocations, entries or constructions keep the invariants. *)
Lemma frame_wf (P : Event → Prop) s s' :
  (∀ e, P e → match e with EvExec _ _ | EvEntry _ | EvFire _ _ | EvConstruct _ _ => False
              | _ => True end) →
  frame P s s' → wf s → wf s'.
Proof.
  intros HP F W. destruct (fr_trace _ _ _ F) as (evs & T & Hall & L).
  assert (Hth : ∀ w, thread_events w evs = []).
  { intros w. apply (omap_inert _ P); [|done]. intros e He. specialize (HP e He). by destruct e. }
  assert (Hex : ∀ w, executed_by w evs = []).
  { intros w. apply (omap_inert _ P); [|done]. intros e He. specialize (HP e He). by destruct e. }
  assert (Hco : constructed evs = []).
  { apply (omap_inert _ P); [|done]. intros e He. specialize (HP e He). by destruct e. }
  assert (Hwk : ∀ w wk', workers s' !! w = Some wk' →
            ∃ wk, workers s !! w = Some wk ∧ fixed_part wk' = fixed_part wk).
  { intros w wk' Hw'. pose proof (fr_workers _ _ _ F w) as H. rewrite Hw' in H.
    destruct (workers s !! w) as [wk|]; [|done]. simpl in H. exists wk. split; [done|congruence]. }
  split.
  - intros w wk' Hw'. destruct (Hwk w wk' Hw') as (wk & Hw & Hfix).
    apply fixed_part_fields in Hfix as (_ & _ & _ & -> & -> & -> & ->).
    rewrite (fr_next_addr _ _ _ F), (fr_groups _ _ _ F). by apply (wf_worker s W).
  - intros g grp Hg. rewrite (fr_groups _ _ _ F) in Hg.
    destruct (wf_group s W g grp Hg) as (A1 & A2 & A3 & A4 & A5).
    rewrite (fr_next_addr _ _ _ F). split_and!; try done.
    intros tq' Hq'. pose proof (fr_shape _ _ _ F g) as H. rewrite Hq' in H.
    destruct (queues s !! g) as [tq|]; [|done]. simpl in H. injection H as _ H.
    rewrite H. by apply A5.
  - intros q tq' Hq'. rewrite (fr_next_addr _ _ _ F).
    destruct (queues s !! q) as [tq|] eqn:Hq; [by eapply wf_queue|].
    apply (frame_presence _ _ _ q F) in Hq. congruence.
  - rewrite (fr_next_id _ _ _ F), (fr_next_addr _ _ _ F). apply (wf_counter s W).
  - intros w wk' Hw' Hph. destruct (Hwk w wk' Hw') as (wk & Hw & Hfix).
    apply fixed_part_fields in Hfix as (Hp & _). rewrite (fr_self _ _ _ F).
    apply (wf_self s W w wk Hw). congruence.
  - intros q l. pose proof (wf_fifo s W q l) as H. rewrite T, pushed_app, executed_by_app, Hex.
    rewrite (fr_next_addr _ _ _ F). specialize (L q l).
    destruct (queues s' !! q) as [tq'|] eqn:Hq'; destruct (queues s !! q) as [tq|] eqn:Hq.
    + rewrite app_nil_r, L, app_assoc. by rewrite H.
    + apply (frame_presence _ _ _ q F) in Hq. congruence.
    + apply (frame_presence _ _ _ q F) in Hq'. congruence.
    + intros Hle. destruct (H Hle) as [H1 H2]. rewrite H1, H2.
      unfold lane_items in L. simpl in L. rewrite Hq, Hq' in L. simpl in L.
      by rewrite <- L.
  - intros w. rewrite T, thread_events_app, Hth, app_nil_r. apply (wf_entered s W).
  - intros w wk' Hw'. destruct (Hwk w wk' Hw') as (wk & Hw & Hfix).
    apply fixed_part_fields in Hfix as (Hp & _).
    rewrite T, thread_events_app, Hth, app_nil_r, Hp. by apply (wf_phase s W).
  - intros g grp i Hg Hi. rewrite (fr_groups _ _ _ F) in Hg.
    rewrite T, thread_events_app, Hth, app_nil_r. by eapply wf_unborn.
  - intros w Hw. rewrite (fr_next_addr _ _ _ F) in Hw.
    rewrite T, thread_events_app, Hth, app_nil_r. by eapply wf_unused.
  - rewrite T, constructed_app, Hco, app_nil_r, (fr_next_addr _ _ _ F).
    apply (wf_constructed_len s W).
  - intros i a gid. rewrite T, constructed_app, Hco, app_nil_r. apply (wf_constructed s W).
Qed.

Lemma entered_snoc w evs e : e ≠ EvEntry w → entered w evs → entered w (evs ++ [e]).
Proof.
  intros Hne (rest & -> & Hnot). exists (rest ++ [e]). split; [done|].
  rewrite elem_of_app, list_elem_of_singleton. intros [?|?]; [done | congruence].
Qed.

(** The part of the invariants that speaks about thread events, after
    worker [w], which has entered its loop, invokes a closure or fires a
    timer. *)
Lemma thread_step_props s w wk e :
  wf s → workers s !! w = Some wk → phase wk ≠ Created →
  (∃ c, e = EvFire w c ∨ e = EvExec w c) →
  (∀ w0, thread_events w0 (trace s ++ [e]) = []
         ∨ entered w0 (thread_events w0 (trace s ++ [e]))) ∧
  (∀ w0 wk0, workers s !! w0 = Some wk0 →
     (phase wk0 = Created ↔ thread_events w0 (trace s ++ [e]) = [])) ∧
  (∀ g grp i, groups s !! g = Some grp → (length (workers_ grp) ≤ i)%nat →
     thread_events (g, i) (trace s ++ [e]) = []) ∧
  (∀ w0, (next_addr s ≤ w0.1)%N → thread_events w0 (trace s ++ [e]) = []).
Proof.
  intros W Hw Hph (c & He).
  assert (Hev : ∀ w0, thread_events w0 (trace s ++ [e])
                      = thread_events w0 (trace s) ++ (if decide (w = w0) then [e] else [])).
  { intros w0. rewrite thread_events_app. f_equal.
    destruct He as [-> | ->]; unfold thread_events; simpl; by case_decide. }
  assert (Hne : e ≠ EvEntry w) by (by destruct He as [-> | ->]).
  assert (Hnonempty : thread_events w (trace s) ≠ []).
  { intros H. by apply (wf_phase s W w wk Hw) in H. }
  split_and!.
  - intros w0. rewrite Hev. case_decide as Hd; [subst w0 | rewrite app_nil_r; apply (wf_entered s W)].
    right. destruct (wf_entered s W w) as [H|H]; [done|]. by apply entered_snoc.
  - intros w0 wk0 Hw0. rewrite Hev. case_decide as Hd.
    + subst w0. assert (wk0 = wk) as -> by congruence. split; [done|].
      intros H. by apply app_eq_nil in H as [_ ?].
    + rewrite app_nil_r. by apply (wf_phase s W).
  - intros g grp i Hg Hi. rewrite Hev. case_decide as Hd.
    + subst w. destruct (wf_worker s W _ wk Hw) as (_ & _ & _ & _ & _ & Hlt).
      specialize (Hlt grp Hg). simpl in Hlt. lia.
    + rewrite app_nil_r. by eapply wf_unborn.
  - intros w0 Hle. rewrite Hev. case_decide as Hd.
    + subst w0. destruct (wf_worker s W _ wk Hw) as (_ & _ & _ & _ & Hlt & _). lia.
    + rewrite app_nil_r. by eapply wf_unused.
Qed.

Lemma wf_fire s w wk c :
  workers s !! w = Some wk → phase wk ≠ Created → wf s → wf (log (EvFire w c) s).
Proof.
  intros Hw Hph W.
  destruct (thread_step_props s w wk (EvFire w c) W Hw Hph) as (T1 & T2 & T3 & T4); [by eauto|].
  split; try apply W; try done.
  - intros q l. pose proof (wf_fifo s W q l) as H. simpl.
    rewrite pushed_app, executed_by_app, lane_items_log. simpl. by rewrite !app_nil_r.
  - simpl. rewrite constructed_app, app_nil_r. apply W.
  - intros i a gid. simpl. rewrite constructed_app, app_nil_r. apply W.
Qed.

Lemma wf_pop s w wk c s1 :
  workers s !! w = Some wk → phase wk ≠ Created →
  InQueue_Pop (inq_ wk) s = Some (c, s1) → wf s → wf (log (EvExec w c) s1).
Proof.
  intros Hw Hph Hpop W.
  destruct (thread_step_props s w wk (EvExec w c) W Hw Hph) as (T1 & T2 & T3 & T4); [by eauto|].
  destruct (wf_worker s W w wk Hw) as (Hinq & _).
  apply InQueue_Pop_Some in Hpop as (Hlane & Htr & Hws & tq & tq' & Hq & Hp & ->).
  rewrite Hinq in *. destruct w as [q0 l0]. simpl in Hq, Hp.
  apply Pop_in_flight in Hp as Hshape. destruct Hshape as (_ & _ & Hlen).
  split; simpl; try apply W; try done.
  - intros g grp Hg. destruct (wf_group s W g grp Hg) as (A1 & A2 & A3 & A4 & A5).
    split_and!; try done. intros tq0. destruct (decide (q0 = g)) as [->|Hne].
    + rewrite lookup_insert_eq. intros [= <-]. rewrite Hlen. by apply A5.
    + rewrite lookup_insert_ne by done. apply A5.
  - intros q tq0. destruct (decide (q0 = q)) as [->|Hne].
    + intros _. by eapply wf_queue.
    + rewrite lookup_insert_ne by done. apply W.
  - intros q l. pose proof (wf_fifo s W q l) as H.
    rewrite pushed_app, executed_by_app. simpl. rewrite app_nil_r.
    destruct (decide (q0 = q)) as [->|Hne].
    + rewrite lookup_insert_eq. rewrite Hq in H. rewrite lane_items_log.
      case_decide as Hd.
      * injection Hd as ->. rewrite <- H, Hlane, <- app_assoc. done.
      * rewrite app_nil_r, <- H. f_equal. unfold lane_items. simpl.
        rewrite lookup_insert_eq, Hq. unfold Pop in Hp.
        destruct (lanes tq !! l0) as [[|c0 rest]|]; try done. injection Hp as _ <-.
        simpl. rewrite list_lookup_insert_ne; [done|]. intros ->. by apply Hd.
    + rewrite lookup_insert_ne by done. rewrite lane_items_log.
      rewrite decide_False by congruence. rewrite app_nil_r.
      destruct (queues s !! q) eqn:Hq'; [|done]. rewrite <- H. f_equal.
      unfold lane_items. simpl. by rewrite lookup_insert_ne.
  - rewrite constructed_app, app_nil_r. apply W.
  - intros i a gid. rewrite constructed_app, app_nil_r. apply W.
Qed.

Lemma wf_log_inert s e :
  match e with
  | EvExec _ _ | EvEntry _ | EvFire _ _ | EvConstruct _ _ | EvPush _ _ _ => False
  | _ => True
  end → wf s → wf (log e s).
Proof.
  intros He. apply (frame_wf (λ e', e' = e)).
  - intros e' ->. by destruct e.
  - apply frame_log; [done|]. intros q l c ->. done.
Qed.

Lemma wf_set_worker s w wk wk' :
  workers s !! w = Some wk →
  inq_ wk' = inq_ wk → group_ wk' = group_ wk → id_ wk' = id_ wk → thread_ wk' = thread_ wk →
  (phase wk' = Created ↔ phase wk = Created) →
  wf s → wf (set_workers (insert w wk') s).
Proof.
  intros Hw H1 H2 H3 H4 Hph W. split; simpl; try apply W.
  - intros w0 wk0. destruct (decide (w = w0)) as [->|Hne].
    + rewrite lookup_insert_eq. intros [= <-]. rewrite H1, H2, H3, H4. by apply W.
    + rewrite lookup_insert_ne by done. apply W.
  - intros w0 wk0. destruct (decide (w = w0)) as [->|Hne].
    + rewrite lookup_insert_eq. intros [= <-] Hp. apply (wf_self s W w0 wk Hw). tauto.
    + rewrite lookup_insert_ne by done. apply W.
  - intros w0 wk0. destruct (decide (w = w0)) as [->|Hne].
    + rewrite lookup_insert_eq. intros [= <-]. rewrite Hph. by apply W.
    + rewrite lookup_insert_ne by done. apply W.
Qed.

Lemma wf_entry s w wk :
  workers s !! w = Some wk → phase wk = Created → wf s →
  wf (log (EvEntry w)
        (set_workers (insert w (with_phase Running wk))
           (set_tls (insert (WorkerThread w)
                       (with_self (Some w) (thread_local (WorkerThread w) s))) s))).
Proof.
  intros Hw Hph W.
  assert (Hnil : thread_events w (trace s) = []) by (by apply (wf_phase s W w wk Hw)).
  assert (Hev : ∀ w0, thread_events w0 (trace s ++ [EvEntry w])
                      = thread_events w0 (trace s) ++ (if decide (w = w0) then [EvEntry w] else [])).
  { intros w0. rewrite thread_events_app. f_equal. unfold thread_events. simpl. by case_decide. }
  split; simpl; try apply W.
  - intros w0 wk0. destruct (decide (w = w0)) as [->|Hne].
    + rewrite lookup_insert_eq. intros [= <-]. simpl. by apply W.
    + rewrite lookup_insert_ne by done. apply W.
  - intros w0 wk0. unfold Worker_self, thread_local. simpl.
    destruct (decide (w = w0)) as [->|Hne].
    + rewrite !lookup_insert_eq. done.
    + rewrite !lookup_insert_ne by congruence. apply W.
  - intros q l. pose proof (wf_fifo s W q l) as H.
    rewrite pushed_app, executed_by_app. simpl. by rewrite !app_nil_r.
  - intros w0. rewrite Hev. case_decide as Hd; [|rewrite app_nil_r; apply W].
    subst w0. rewrite Hnil. right. exists []. split; [done | apply not_elem_of_nil].
  - intros w0 wk0. rewrite Hev. destruct (decide (w = w0)) as [->|Hne].
    + rewrite lookup_insert_eq. intros [= <-]. simpl. rewrite Hnil. done.
    + rewrite lookup_insert_ne by done. rewrite app_nil_r. apply W.
  - intros g grp i Hg Hi. rewrite Hev. case_decide as Hd.
    + subst w. destruct (wf_worker s W _ wk Hw) as (_ & _ & _ & _ & _ & Hlt).
      specialize (Hlt grp Hg). simpl in Hlt. lia.
    + rewrite app_nil_r. by eapply wf_unborn.
  - intros w0 Hle. rewrite Hev. case_decide as Hd.
    + subst w0. destruct (wf_worker s W _ wk Hw) as (_ & _ & _ & _ & Hlt & _). lia.
    + rewrite app_nil_r. by eapply wf_unused.
  - rewrite constructed_app, app_nil_r. apply W.
  - intros i a gid. rewrite constructed_app, app_nil_r. apply W.
Qed.

Lemma wf_free s w : wf s → wf (set_workers (delete w) s).
Proof.
  intros W. split; simpl; try apply W.
  - intros w0 wk0 H. apply lookup_delete_Some in H as [_ H]. by apply W.
  - intros w0 wk0 H. apply lookup_delete_Some in H as [_ H]. by apply W.
  - intros w0 wk0 H. apply lookup_delete_Some in H as [_ H]. by apply W.
Qed.

Lemma wf_delete_group s g : wf s → wf (set_groups (delete g) s).
Proof.
  intros W. split; simpl; try apply W.
  - intros w0 wk0 Hw0. destruct (wf_worker s W w0 wk0 Hw0) as (A1 & A2 & A3 & A4 & A5 & A6).
    split_and!; try done. intros grp H. apply lookup_delete_Some in H as [_ H]. by apply A6.
  - intros g0 grp H. apply lookup_delete_Some in H as [_ H]. by apply W.
  - intros g0 grp i H. apply lookup_delete_Some in H as [_ H]. by apply W.
Qed.

Lemma wf_release s h q : wf s → wf (release h q s).
Proof.
  intros W. unfold release. destruct (queues s !! q) as [tq|] eqn:Hq; [|done].
  pose proof (wf_queue s W q tq Hq) as Hlt.
  case_decide as Hemp.
  - split; simpl; try apply W.
    + intros g grp Hg. destruct (wf_group s W g grp Hg) as (A1 & A2 & A3 & A4 & A5).
      split_and!; try done. intros tq0 H. apply lookup_delete_Some in H as [_ H]. by apply A5.
    + intros q0 tq0 H. apply lookup_delete_Some in H as [_ H]. by eapply wf_queue.
    + intros q0 l. pose proof (wf_fifo s W q0 l) as H.
      destruct (decide (q = q0)) as [->|Hne].
      * rewrite lookup_delete_eq. intros Hle. lia.
      * rewrite lookup_delete_ne by done. unfold lane_items in *. simpl.
        by rewrite lookup_delete_ne.
  - split; simpl; try apply W.
    + intros g grp Hg. destruct (wf_group s W g grp Hg) as (A1 & A2 & A3 & A4 & A5).
      split_and!; try done. intros tq0. destruct (decide (q = g)) as [->|Hne].
      * rewrite lookup_insert_eq. intros [= <-]. simpl. by apply A5.
      * rewrite lookup_insert_ne by done. apply A5.
    + intros q0 tq0. destruct (decide (q = q0)) as [->|Hne]; [done|].
      rewrite lookup_insert_ne by done. apply W.
    + intros q0 l. pose proof (wf_fifo s W q0 l) as H.
      destruct (decide (q = q0)) as [->|Hne].
      * rewrite lookup_insert_eq. rewrite Hq in H. rewrite lane_items_insert_same.
        unfold lane_items in H. simpl in H. by rewrite Hq in H.
      * rewrite lookup_insert_ne by done. by rewrite lane_items_insert_other.
Qed.

Lemma wf_tick s d : wf s → wf (advance_clock d s).
Proof. intros W. split; simpl; apply W. Qed.

Lemma size_t_wrap_succ n : size_t_wrap (size_t_wrap n + 1) = size_t_wrap (n + 1).
Proof. unfold size_t_wrap. by rewrite N.Div0.add_mod_idemp_l. Qed.

Lemma wf_init queue_size s : wf s → wf (WorkerGroup_init queue_size s).
Proof.
  intros W. unfold WorkerGroup_init.
  assert (Hfresh_g : groups s !! next_addr s = None).
  { destruct (groups s !! next_addr s) as [grp|] eqn:Hg; [|done].
    destruct (wf_group s W _ _ Hg) as (_ & Hlt & _). lia. }
  assert (Hfresh_q : queues s !! next_addr s = None).
  { destruct (queues s !! next_addr s) as [tq|] eqn:Hq; [|done].
    pose proof (wf_queue s W _ _ Hq). lia. }
  split; simpl.
  - intros w wk Hw. destruct (wf_worker s W w wk Hw) as (A1 & A2 & A3 & A4 & A5 & A6).
    split_and!; try done; [lia|]. intros grp. rewrite lookup_insert_ne by lia. apply A6.
  - intros g grp. destruct (decide (next_addr s = g)) as [<-|Hne].
    + rewrite !lookup_insert_eq. intros [= <-]. simpl. split_and!; try done; [lia | apply W |].
      intros tq [= <-]. done.
    + rewrite !lookup_insert_ne by done. intros Hg.
      destruct (wf_group s W g grp Hg) as (B1 & B2 & B3 & B4 & B5). split_and!; try done. lia.
  - intros q tq. destruct (decide (next_addr s = q)) as [<-|Hne]; [lia|].
    rewrite lookup_insert_ne by done. intros Hq. pose proof (wf_queue s W _ _ Hq). lia.
  - rewrite (wf_counter s W). apply size_t_wrap_succ.
  - apply W.
  - intros q l. pose proof (wf_fifo s W q l) as H.
    rewrite pushed_app, executed_by_app. simpl. rewrite !app_nil_r.
    destruct (decide (next_addr s = q)) as [<-|Hne].
    + rewrite lookup_insert_eq. rewrite Hfresh_q in H. destruct H as [H1 H2]; [lia|].
      rewrite H1, H2. unfold lane_items. simpl. by rewrite lookup_insert_eq.
    + rewrite lookup_insert_ne by done. unfold lane_items in *. simpl in *.
      rewrite lookup_insert_ne by done. destruct (queues s !! q); [done|].
      intros Hle. apply H. lia.
  - intros w. rewrite thread_events_app. simpl. rewrite app_nil_r. apply W.
  - intros w wk Hw. rewrite thread_events_app. simpl. rewrite app_nil_r. by apply W.
  - intros g grp i. rewrite thread_events_app. simpl. rewrite app_nil_r.
    destruct (decide (next_addr s = g)) as [<-|Hne].
    + intros _ _. apply (wf_unused s W). simpl. lia.
    + rewrite lookup_insert_ne by done. apply W.
  - intros w Hle. rewrite thread_events_app. simpl. rewrite app_nil_r.
    apply (wf_unused s W). lia.
  - rewrite constructed_app, length_app, (wf_constructed_len s W). simpl. lia.
  - intros i a gid. rewrite constructed_app. simpl.
    destruct (decide (i < length (constructed (trace s)))%nat) as [Hlt|Hge].
    + rewrite lookup_app_l by done. apply W.
    + rewrite lookup_app_r by lia. rewrite (wf_constructed_len s W) in *.
      destruct (i - N.to_nat (next_addr s))%nat as [|k] eqn:Hk; [|done].
      simpl. intros [= <- <-]. assert (i = N.to_nat (next_addr s)) as -> by lia.
      rewrite N2Nat.id. split; [done | apply W].
Qed.

Lemma wf_emplace s g grp supplier :
  groups s !! g = Some grp → wf s →
  wf (emplace_worker g supplier (length (workers_ grp)) s).
Proof.
  intros Hg W. unfold emplace_worker. rewrite Hg.
  destruct (wf_group s W g grp Hg) as (B1 & B2 & B3 & B4 & B5). rewrite B1.
  destruct (queues s !! g) as [tq|] eqn:Hq; [|done].
  unfold RegisterConsumer. cbv beta iota zeta.
  specialize (B5 tq eq_refl).
  assert (Hnil : thread_events (g, length (workers_ grp)) (trace s) = []).
  { by apply (wf_unborn s W g grp). }
  split; simpl.
  - intros w wk. destruct (decide ((g, length (workers_ grp)) = w)) as [<-|Hne].
    + rewrite lookup_insert_eq. intros [= <-]. simpl. rewrite B5. split_and!; try done.
      intros grp'. rewrite lookup_insert_eq. intros [= <-]. simpl. rewrite length_app. simpl. lia.
    + rewrite lookup_insert_ne by done. intros Hw.
      destruct (wf_worker s W w wk Hw) as (A1 & A2 & A3 & A4 & A5 & A6).
      split_and!; try done. intros grp'. destruct (decide (g = w.1)) as [Heq|Hne'].
      * rewrite <- Heq, lookup_insert_eq. intros [= <-]. simpl. rewrite length_app. simpl.
        rewrite <- Heq in A6. specialize (A6 grp Hg). lia.
      * rewrite lookup_insert_ne by done. apply A6.
  - intros g0 grp0. destruct (decide (g = g0)) as [<-|Hne].
    + rewrite !lookup_insert_eq. intros [= <-]. simpl. split_and!; try done.
      * intros i w Hi. apply lookup_app_Some in Hi as [Hi | [Hge Hi]]; [by apply B4|].
        destruct (i - length (workers_ grp))%nat as [|k] eqn:Hk; [|done].
        simpl in Hi. injection Hi as <-. f_equal. lia.
      * intros tq' [= <-]. simpl. rewrite !length_app. simpl. lia.
    + rewrite !lookup_insert_ne by done. apply W.
  - intros q tq'. destruct (decide (g = q)) as [<-|Hne]; [done|].
    rewrite lookup_insert_ne by done. apply W.
  - apply W.
  - intros w wk. destruct (decide ((g, length (workers_ grp)) = w)) as [<-|Hne].
    + rewrite lookup_insert_eq. intros [= <-]. done.
    + rewrite lookup_insert_ne by done. apply W.
  - intros q l. pose proof (wf_fifo s W q l) as H.
    destruct (decide (g = q)) as [<-|Hne].
    + rewrite lookup_insert_eq. rewrite Hq in H. rewrite <- H. f_equal.
      unfold lane_items. simpl. rewrite lookup_insert_eq, Hq. simpl.
      destruct (decide (l < length (lanes tq))%nat).
      * by rewrite lookup_app_l.
      * rewrite lookup_app_r by lia. rewrite (lookup_ge_None_2 (lanes tq) l) by lia.
        by destruct (l - length (lanes tq))%nat as [|[|k]].
    + rewrite lookup_insert_ne by done. unfold lane_items in *. simpl.
      by rewrite lookup_insert_ne.
  - apply W.
  - intros w wk. destruct (decide ((g, length (workers_ grp)) = w)) as [<-|Hne].
    + rewrite lookup_insert_eq. intros [= <-]. simpl. by rewrite Hnil.
    + rewrite lookup_insert_ne by done. apply W.
  - intros g0 grp0 i. destruct (decide (g = g0)) as [<-|Hne].
    + rewrite lookup_insert_eq. intros [= <-]. simpl. rewrite length_app. simpl.
      intros Hi. apply (wf_unborn s W g grp); [done | lia].
    + rewrite lookup_insert_ne by done. apply W.
  - apply W.
  - apply W.
  - apply W.
Qed.

Lemma client_event_inert t e :
  client_event t e →
  match e with EvExec _ _ | EvEntry _ | EvFire _ _ | EvConstruct _ _ => False | _ => True end.
Proof. by destruct e. Qed.

Lemma frame_running P t this s s' : frame P s s' → running t this s → running t this s'.
Proof.
  intros F [Hself (wk & Hw & Hph)]. split; [by rewrite (fr_self _ _ _ F)|].
  destruct (frame_worker _ _ _ this wk F Hw) as (wk' & Hw' & Hfix).
  apply fixed_part_fields in Hfix as (Hp & _). exists wk'. split; [done | congruence].
Qed.

Lemma GetOutQueue_null_deref t g s : null_deref (GetOutQueue t g s).2 = null_deref s.
Proof.
  unfold GetOutQueue. destruct (groups s !! g) as [grp|]; [|done].
  destruct (ctx_bool _); [done|]. by destruct (queues s !! queue_ grp).
Qed.

Lemma do_call_null_deref t call s : null_deref (do_call t call s).2 = null_deref s.
Proof.
  assert (P : ∀ outq c s1, null_deref (OutQueue_Push outq c s1).2 = null_deref s1).
  { intros outq c s1. unfold OutQueue_Push. destruct outq as [h|]; [|done].
    destruct (queues s1 !! oq_queue h) as [tq|]; [|done].
    by destruct (Push c tq) as [[lane tq']|]. }
  assert (PT : ∀ outq i c s1, null_deref (OutQueue_Push_to outq i c s1).2 = null_deref s1).
  { intros outq i c s1. unfold OutQueue_Push_to. destruct outq as [h|]; [|done].
    destruct (queues s1 !! oq_queue h) as [tq|]; [|done].
    by destruct (Push_to (N.to_nat i) c tq). }
  destruct (call_group call) as [g|] eqn:Hcg.
  - rewrite (do_call_group t call g s Hcg).
    destruct (call_target call); [rewrite PT | rewrite P]; apply GetOutQueue_null_deref.
  - destruct call; try done. simpl. unfold Worker_PostTask.
    destruct (workers s !! w) as [wk|]; [|done].
    pose proof (do_call_null_deref_aux := GetOutQueue_null_deref t (group_ wk) s).
    unfold PostTask_to. destruct (GetOutQueue t (group_ wk) s) as [outq s1].
    simpl in *. by rewrite PT.
Qed.

Lemma run_call_good t call s : good s → good (run_call t call s).
Proof.
  intros [W Hnd]. split.
  - eapply (frame_wf (client_event t)); [apply client_event_inert | | done].
    apply rtc_cprim_frame, run_call_steps.
  - unfold run_call. by rewrite do_call_null_deref.
Qed.

Lemma fold_run_call_good t calls : ∀ s,
  good s → good (fold_left (λ s' call, run_call t call s') calls s).
Proof.
  induction calls as [|call calls IH]; intros s G; simpl; [done|].
  apply IH. by apply run_call_good.
Qed.

Lemma run_closure_good t this c s :
  good s → running t this s → good (run_closure t c s) ∧ running t this (run_closure t c s).
Proof.
  intros [W Hnd] R. split; [|by eapply frame_running; [apply run_closure_frame|]].
  split.
  - eapply (frame_wf (client_event t)); [apply client_event_inert | | done].
    apply run_closure_frame.
  - destruct R as [Hself (wk & Hw & Hph)].
    destruct c as [tag calls | func d | func p]; simpl.
    + apply (fold_run_call_good t calls (log (EvUser t tag) s)). split; [|done].
      by apply wf_log_inert.
    + rewrite Hself. unfold AddTimer. by rewrite Hw.
    + rewrite Hself. unfold AddPeriodTimer. by rewrite Hw.
Qed.

Lemma fire_good t this (fired : list Timer) : ∀ s,
  good s → running t this s →
  good (fold_left (λ s' tm, run_closure t (callback tm) (log (EvFire this (callback tm)) s'))
          fired s) ∧
  running t this
    (fold_left (λ s' tm, run_closure t (callback tm) (log (EvFire this (callback tm)) s'))
       fired s).
Proof.
  induction fired as [|tm fired IH]; intros s G R; [done|].
  cbn [fold_left].
  assert (G1 : good (log (EvFire this (callback tm)) s)).
  { destruct G as [W Hnd], R as [_ (wk & Hw & Hph)]. split; [by eapply wf_fire | done]. }
  assert (R1 : running t this (log (EvFire this (callback tm)) s)) by done.
  destruct (run_closure_good t this (callback tm) _ G1 R1) as [G2 R2].
  by apply IH.
Qed.

Lemma MoveOn_good t this s :
  good s → running t this s → good (MoveOn t this s) ∧ running t this (MoveOn t this s).
Proof.
  intros [W Hnd] R. destruct R as [Hself (wk & Hw & Hph)]. unfold MoveOn. rewrite Hw.
  apply fire_good.
  - split; [|done]. apply wf_log_inert; [done|]. by apply (wf_set_worker s this wk).
  - split; [done|]. simpl. rewrite lookup_insert_eq. eauto.
Qed.

Lemma BatchProcessTasks_loop_good t this remaining : ∀ cnt s,
  good s → running t this s →
  good (BatchProcessTasks_loop t this remaining cnt s).2 ∧
  running t this (BatchProcessTasks_loop t this remaining cnt s).2.
Proof.
  induction remaining as [|k IH]; intros cnt s G R; simpl; [done|].
  destruct R as [Hself (wk & Hw & Hph)]. rewrite Hw.
  destruct (InQueue_Pop (inq_ wk) s) as [[c s1]|] eqn:Hpop; [|by split; [|split; eauto]].
  assert (G1 : good (log (EvExec this c) s1)).
  { destruct G as [W Hnd]. split; [by eapply wf_pop|].
    apply InQueue_Pop_Some in Hpop as (_ & _ & _ & tq & tq' & _ & _ & ->). done. }
  assert (R1 : running t this (log (EvExec this c) s1)).
  { apply InQueue_Pop_Some in Hpop as (_ & _ & Hws & tq & tq' & _ & _ & ->).
    split; [done|]. exists wk. done. }
  destruct (run_closure_good t this c _ G1 R1) as [G2 R2].
  by apply IH.
Qed.

Lemma loop_body_good t this s :
  good s → running t this s → good (loop_body t this s) ∧ running t this (loop_body t this s).
Proof.
  intros G R. unfold loop_body.
  destruct (MoveOn_good t this s G R) as [G1 R1].
  pose proof (BatchProcessTasks_loop_good t this (N.to_nat kMaxBatchProcessTasks) 0%N _ G1 R1)
    as [G2 R2].
  unfold BatchProcessTasks.
  destruct (BatchProcessTasks_loop t this (N.to_nat kMaxBatchProcessTasks) 0 (MoveOn t this s))
    as [n s2]. simpl in G2, R2.
  destruct R2 as [Hself (wk & Hw & Hph)]. rewrite Hw.
  set (timeout := if decide (n < kMaxBatchProcessTasks)%N then kPollerTimeoutMs else 0%N).
  assert (G3 : good (log (EvPoll this timeout) s2)).
  { destruct G2 as [W Hnd]. split; [by apply wf_log_inert | done]. }
  assert (R3 : running t this (log (EvPoll this timeout) s2)) by (split; eauto).
  destruct (poller_ wk); simpl; [|done].
  case_decide; [|done]. split; [|done].
  destruct G3 as [W Hnd]. split; [by apply wf_log_inert | done].
Qed.

Lemma WorkerMainEntry_step_good this s :
  good s → good (WorkerMainEntry_step (WorkerThread this) this s).
Proof.
  intros [W Hnd]. unfold WorkerMainEntry_step.
  destruct (workers s !! this) as [wk|] eqn:Hw; [|done].
  destruct (phase wk) eqn:Hph; [| |done].
  - split; [by apply wf_entry | done].
  - destruct (stop_flag_ wk).
    + split; [|done]. apply wf_log_inert; [done|].
      apply (wf_set_worker s this wk); try done. simpl. by rewrite Hph.
    + apply loop_body_good; [done|]. split.
      * apply (wf_self s W this wk Hw). by rewrite Hph.
      * exists wk. split; [done | by rewrite Hph].
Qed.

Lemma Worker_stop_good this s : good s → good (Worker_stop this s).
Proof.
  intros [W Hnd]. unfold Worker_stop. destruct (workers s !! this) as [wk|] eqn:Hw; [|done].
  destruct (wf_worker s W this wk Hw) as (_ & _ & _ & -> & _).
  assert (G1 : good (set_workers (insert this (with_stop_flag true wk)) s)).
  { split; [|done]. by apply (wf_set_worker s this wk). }
  apply (WorkerMainEntry_step_good this) in G1.
  apply (WorkerMainEntry_step_good this) in G1.
  destruct G1 as [W2 N2]. split; [by apply wf_free | done].
Qed.

Lemma quantum_good q s : good s → good (quantum q s).
Proof.
  intros G. destruct q; simpl.
  - by apply run_call_good.
  - by apply WorkerMainEntry_step_good.
  - destruct G as [W Hnd]. split; [by apply wf_tick | done].
Qed.

Lemma quanta_good qs : ∀ s, good s → good (quanta qs s).
Proof.
  induction qs as [|q qs IH]; intros s G; simpl; [done|].
  by apply IH, quantum_good.
Qed.

Lemma Worker_dtor_good late this s : good s → good (Worker_dtor late this s).
Proof.
  intros G. unfold Worker_dtor. destruct (workers s !! this) as [wk|] eqn:Hw; [|done].
  by apply Worker_stop_good, quanta_good.
Qed.

Lemma fold_Worker_dtor_good late ws : ∀ s,
  good s → good (fold_left (λ s' w, Worker_dtor (late w) w s') ws s).
Proof.
  induction ws as [|w ws IH]; intros s G; simpl; [done|].
  apply IH. by apply Worker_dtor_good.
Qed.

Lemma release_null_deref h q s : null_deref (release h q s) = null_deref s.
Proof. unfold release. destruct (queues s !! q); [|done]. by case_decide. Qed.

Lemma WorkerGroup_dtor_good late g s : good s → good (WorkerGroup_dtor late g s).
Proof.
  intros G. unfold WorkerGroup_dtor. destruct (groups s !! g) as [grp|]; [|done].
  destruct (fold_Worker_dtor_good late (workers_ grp) s G) as [W Hnd].
  split; [by apply wf_delete_group, wf_release|].
  simpl. by rewrite release_null_deref.
Qed.

Lemma emplace_worker_null_deref g supplier id s :
  null_deref (emplace_worker g supplier id s) = null_deref s.
Proof.
  unfold emplace_worker. destruct (groups s !! g) as [grp|]; [|done].
  by destruct (queues s !! queue_ grp).
Qed.

Lemma construct_workers_good g supplier remaining : ∀ id s grp,
  good s → groups s !! g = Some grp → length (workers_ grp) = id →
  (∃ tq, queues s !! g = Some tq) →
  good (construct_workers g supplier remaining id s).
Proof.
  induction remaining as [|k IH]; intros id s grp [W Hnd] Hg Hlen [tq Hq]; simpl; [done|].
  destruct (wf_group s W g grp Hg) as (B1 & _).
  assert (G1 : good (emplace_worker g supplier id s)).
  { split; [subst id; by apply wf_emplace | by rewrite emplace_worker_null_deref]. }
  unfold emplace_worker in *. rewrite Hg, B1, Hq in *.
  unfold RegisterConsumer in *. cbv beta iota zeta in *.
  eapply IH; [done | | | ].
  - simpl. by rewrite lookup_insert_eq.
  - simpl. rewrite length_app. simpl. lia.
  - simpl. rewrite lookup_insert_eq. eauto.
Qed.

Lemma WorkerGroup_ctor_good n c supplier s : good s → good (WorkerGroup_ctor n c supplier s).
Proof.
  intros [W Hnd]. unfold WorkerGroup_ctor.
  eapply construct_workers_good.
  - split; [by apply wf_init | done].
  - simpl. by rewrite lookup_insert_eq.
  - done.
  - simpl. rewrite lookup_insert_eq. eauto.
Qed.

Lemma step_good a s : good s → good (step a s).
Proof.
  intros G. destruct a; simpl.
  - by apply WorkerGroup_ctor_good.
  - by apply WorkerGroup_dtor_good.
  - by apply (quantum_good (QCall _ _)).
  - by apply (quantum_good (QWorkerThread _)).
  - by apply (quantum_good (QTick _)).
Qed.

Lemma init_good : good init.
Proof.
  split; [|done]. split; simpl; try done.
  - intros q l. rewrite lookup_empty. done.
  - intros w. by left.
Qed.

Lemma run_good acts : ∀ s, good s → good (run acts s).
Proof.
  induction acts as [|a acts IH]; intros s G; simpl; [done|].
  apply IH. by apply step_good.
Qed.

Lemma reachable_good s : reachable s → good s.
Proof. intros [acts ->]. apply run_good, init_good. Qed.

Lemma pushed_of_push_events q l evs :
  pushed q l evs
  = omap (λ x : N * nat * Closure,
            if decide (x.1.1 = q ∧ x.1.2 = l) then Some x.2 else None) (push_events evs).
Proof.
  induction evs as [|e evs IH]; [done|].
  change (e :: evs) with ([e] ++ evs).
  rewrite pushed_app, push_events_app, omap_app, IH. f_equal. by destruct e.
Qed.

Lemma size_t_wrap_small n : (n < size_t_modulus)%N → size_t_wrap n = n.
Proof. intros H. unfold size_t_wrap. by apply N.mod_small. Qed.

(** ** The thread-local caches agree with the history *)

Lemma registrations_app t gid tr1 tr2 :
  registrations t gid (tr1 ++ tr2) = registrations t gid tr1 ++ registrations t gid tr2.
Proof. apply omap_app. Qed.

Lemma client_ctx_tls t gid s s' : tls s' = tls s → client_ctx t gid s' = client_ctx t gid s.
Proof. intros H. unfold client_ctx, thread_local. by rewrite H. Qed.

(** A step that leaves thread-local storage alone and registers nothing. *)
Lemma cache_ok_quiet s s' evs :
  tls s' = tls s → (next_addr s ≤ next_addr s')%N →
  trace s' = trace s ++ evs →
  Forall (λ e, match e with EvRegister _ _ _ => False | _ => True end) evs →
  cache_ok s → cache_ok s'.
Proof.
  intros Htls Hna T Hq [C1 C2 C3].
  assert (Hnone : ∀ t gid, registrations t gid evs = []).
  { intros t gid. eapply omap_inert; [|exact Hq]. intros e He. by destruct e. }
  split.
  - intros t. unfold thread_local. rewrite Htls. apply C1.
  - intros t gid. rewrite T, registrations_app, Hnone, app_nil_r, (client_ctx_tls _ _ _ _ Htls).
    apply C2.
  - intros t gid h. rewrite (client_ctx_tls _ _ _ _ Htls). intros H.
    specialize (C3 t gid h H). lia.
Qed.

Lemma cache_ok_same s s' :
  tls s' = tls s → next_addr s' = next_addr s → trace s' = trace s →
  cache_ok s → cache_ok s'.
Proof.
  intros H1 H2 H3. apply (cache_ok_quiet s s' []); [done | lia | by rewrite app_nil_r | done].
Qed.

Lemma client_ctx_set_other t gid c t' gid' s :
  (t', gid') ≠ (t, gid) →
  client_ctx t' gid' (set_client_ctx t gid c s) = client_ctx t' gid' s.
Proof.
  intros Hne. unfold client_ctx. destruct (decide (t' = t)) as [->|Ht].
  - rewrite thread_local_set_client_ctx.
    assert (gid' ≠ gid) by congruence.
    destruct (decide (gid < kClientCtxCacheSize)%N), (decide (gid' < kClientCtxCacheSize)%N);
      simpl; try done.
    + rewrite list_lookup_insert_ne; [done | lia].
    + by rewrite lookup_insert_ne.
  - unfold thread_local, set_client_ctx. simpl. by rewrite lookup_insert_ne.
Qed.

Lemma thread_local_set_client_ctx_len t gid c t' s :
  length (tls_client_ctx_cache_ (thread_local t' (set_client_ctx t gid c s)))
  = length (tls_client_ctx_cache_ (thread_local t' s)).
Proof.
  destruct (decide (t' = t)) as [->|Ht].
  - rewrite thread_local_set_client_ctx. case_decide; simpl; [apply length_insert | done].
  - unfold thread_local, set_client_ctx. simpl. by rewrite lookup_insert_ne.
Qed.

Lemma GetOutQueue_cache t g s : wf s → cache_ok s → cache_ok (GetOutQueue t g s).2.
Proof.
  intros W C. unfold GetOutQueue. destruct (groups s !! g) as [grp|] eqn:Hg; [|done].
  destruct (ctx_bool (client_ctx t (group_id_ grp) s)) eqn:Hctx; [done|].
  destruct (queues s !! queue_ grp) as [tq|] eqn:Hq; [|done].
  unfold RegisterProducer. cbv beta iota zeta. cbn [snd].
  destruct (wf_group s W g grp Hg) as (B1 & B2 & B3 & _).
  destruct C as [C1 C2 C3].
  assert (Hnone : out_queue (client_ctx t (group_id_ grp) s) = None).
  { unfold ctx_bool in Hctx. by destruct (out_queue _). }
  set (h := {| oq_queue := queue_ grp; oq_producer := producers tq |}).
  set (c := {| queue_holder := Some (queue_ grp); out_queue := Some h |}).
  set (s0 := set_queues _ s).
  assert (Hctx0 : ∀ t' gid', client_ctx t' gid' s0 = client_ctx t' gid' s) by done.
  assert (Hlen0 : ∀ t', length (tls_client_ctx_cache_ (thread_local t' s0))
                        = N.to_nat kClientCtxCacheSize) by apply C1.
  split.
  - intros t'. change (thread_local t' (log ?e ?x)) with (thread_local t' x).
    rewrite thread_local_set_client_ctx_len. apply Hlen0.
  - intros t' gid'.
    change (client_ctx t' gid' (log ?e ?x)) with (client_ctx t' gid' x).
    cbn [trace log]. change (trace (set_client_ctx t (group_id_ grp) c s0)) with (trace s).
    rewrite registrations_app. unfold registrations at 2. simpl.
    destruct (decide ((t', gid') = (t, group_id_ grp))) as [[= -> ->]|Hne].
    + rewrite client_ctx_set by apply Hlen0. rewrite C2, Hnone. simpl.
      rewrite decide_True; [done|]. split; [done|]. by rewrite B1, B3.
    + rewrite client_ctx_set_other, Hctx0 by done. rewrite decide_False.
      * rewrite app_nil_r. apply C2.
      * intros [-> Hw]. apply Hne. f_equal. by rewrite <- Hw, B1, B3.
  - intros t' gid' h'.
    change (client_ctx t' gid' (log ?e ?x)) with (client_ctx t' gid' x).
    change (next_addr (log ?e (set_client_ctx ?a ?b ?d s0))) with (next_addr s).
    destruct (decide ((t', gid') = (t, group_id_ grp))) as [[= -> ->]|Hne].
    + rewrite client_ctx_set by apply Hlen0. simpl. intros [= <-]. simpl. by rewrite B1.
    + rewrite client_ctx_set_other, Hctx0 by done. apply C3.
Qed.

Lemma cache_ok_log e s :
  match e with EvRegister _ _ _ => False | _ => True end → cache_ok s → cache_ok (log e s).
Proof. intros He. apply (cache_ok_quiet _ _ [e]); try done. by repeat constructor. Qed.

Lemma OutQueue_Push_cache outq c s : cache_ok s → cache_ok (OutQueue_Push outq c s).2.
Proof.
  unfold OutQueue_Push. destruct outq as [h|]; [|done].
  destruct (queues s !! oq_queue h) as [tq|]; [|done].
  destruct (Push c tq) as [[lane tq']|]; [|done]. cbn [snd]. intros C.
  apply cache_ok_log; [done|]. by apply (cache_ok_same s).
Qed.

Lemma OutQueue_Push_to_cache outq i c s : cache_ok s → cache_ok (OutQueue_Push_to outq i c s).2.
Proof.
  unfold OutQueue_Push_to. destruct outq as [h|]; [|done].
  destruct (queues s !! oq_queue h) as [tq|]; [|done].
  destruct (Push_to (N.to_nat i) c tq) as [tq'|]; [|done]. cbn [snd]. intros C.
  apply cache_ok_log; [done|]. by apply (cache_ok_same s).
Qed.

Lemma do_call_cache t call s : wf s → cache_ok s → cache_ok (do_call t call s).2.
Proof.
  intros W C. destruct (call_group call) as [g|] eqn:Hcg.
  - rewrite (do_call_group t call g s Hcg).
    destruct (call_target call);
      [apply OutQueue_Push_to_cache | apply OutQueue_Push_cache]; by apply GetOutQueue_cache.
  - destruct call; try done. simpl. unfold Worker_PostTask.
    destruct (workers s !! w) as [wk|]; [|done].
    pose proof (GetOutQueue_cache t (group_ wk) s W C) as H. unfold PostTask_to.
    destruct (GetOutQueue t (group_ wk) s) as [outq s1]. by apply OutQueue_Push_to_cache.
Qed.

Lemma run_call_sound t call s : sound s → sound (run_call t call s).
Proof.
  intros [G C]. split; [by apply run_call_good|]. apply do_call_cache; [apply G | done].
Qed.

Lemma fold_run_call_sound t calls : ∀ s,
  sound s → sound (fold_left (λ s' call, run_call t call s') calls s).
Proof.
  induction calls as [|call calls IH]; intros s S; simpl; [done|].
  apply IH. by apply run_call_sound.
Qed.

Lemma AddTimer_cache w d func s : cache_ok s → cache_ok (AddTimer w d func s).
Proof.
  intros C. unfold AddTimer. destruct (workers s !! w) as [wk|]; [|done].
  apply cache_ok_log; [done|]. by apply (cache_ok_same s).
Qed.

Lemma AddPeriodTimer_cache w p func s : cache_ok s → cache_ok (AddPeriodTimer w p func s).
Proof.
  intros C. unfold AddPeriodTimer. destruct (workers s !! w) as [wk|]; [|done].
  apply cache_ok_log; [done|]. by apply (cache_ok_same s).
Qed.

Lemma run_closure_cache t c s : good s → cache_ok s → cache_ok (run_closure t c s).
Proof.
  intros G C. destruct c as [tag calls | func d | func p]; simpl.
  - apply (fold_run_call_sound t calls (log (EvUser t tag) s)). split.
    + destruct G as [W Hnd]. split; [by apply wf_log_inert | done].
    + by apply cache_ok_log.
  - destruct (Worker_self t s); [by apply AddTimer_cache | by apply (cache_ok_same s)].
  - destruct (Worker_self t s); [by apply AddPeriodTimer_cache | by apply (cache_ok_same s)].
Qed.

Lemma fire_cache t this (fired : list Timer) : ∀ s,
  good s → running t this s → cache_ok s →
  cache_ok (fold_left (λ s' tm, run_closure t (callback tm) (log (EvFire this (callback tm)) s'))
              fired s).
Proof.
  induction fired as [|tm fired IH]; intros s G R C; [done|].
  cbn [fold_left].
  assert (G1 : good (log (EvFire this (callback tm)) s)).
  { destruct G as [W Hnd], R as [_ (wk & Hw & Hph)]. split; [by eapply wf_fire | done]. }
  assert (R1 : running t this (log (EvFire this (callback tm)) s)) by done.
  destruct (run_closure_good t this (callback tm) _ G1 R1) as [G2 R2].
  apply IH; [done | done |]. apply run_closure_cache; [done|]. by apply cache_ok_log.
Qed.

Lemma MoveOn_cache t this s :
  good s → running t this s → cache_ok s → cache_ok (MoveOn t this s).
Proof.
  intros [W Hnd] R C. destruct R as [Hself (wk & Hw & Hph)]. unfold MoveOn. rewrite Hw.
  apply fire_cache.
  - split; [|done]. apply wf_log_inert; [done|]. by apply (wf_set_worker s this wk).
  - split; [done|]. simpl. rewrite lookup_insert_eq. eauto.
  - apply cache_ok_log; [done|]. by apply (cache_ok_same s).
Qed.

Lemma BatchProcessTasks_loop_cache t this remaining : ∀ cnt s,
  good s → running t this s → cache_ok s →
  cache_ok (BatchProcessTasks_loop t this remaining cnt s).2.
Proof.
  induction remaining as [|k IH]; intros cnt s G R C; simpl; [done|].
  destruct R as [Hself (wk & Hw & Hph)]. rewrite Hw.
  destruct (InQueue_Pop (inq_ wk) s) as [[c s1]|] eqn:Hpop; [|done].
  assert (G1 : good (log (EvExec this c) s1)).
  { destruct G as [W Hnd]. split; [by eapply wf_pop|].
    apply InQueue_Pop_Some in Hpop as (_ & _ & _ & tq & tq' & _ & _ & ->). done. }
  assert (R1 : running t this (log (EvExec this c) s1)).
  { apply InQueue_Pop_Some in Hpop as (_ & _ & Hws & tq & tq' & _ & _ & ->).
    split; [done|]. exists wk. done. }
  assert (C1 : cache_ok (log (EvExec this c) s1)).
  { apply InQueue_Pop_Some in Hpop as (_ & _ & _ & tq & tq' & _ & _ & ->).
    apply cache_ok_log; [done|]. by apply (cache_ok_same s). }
  destruct (run_closure_good t this c _ G1 R1) as [G2 R2].
  apply IH; [done | done |]. by apply run_closure_cache.
Qed.

Lemma Poll_cache p timeout s : cache_ok s → cache_ok (Poll p timeout s).
Proof.
  intros C. destruct p; simpl; [|done]. case_decide; [|done]. by apply cache_ok_log.
Qed.

Lemma loop_body_cache t this s :
  good s → running t this s → cache_ok s → cache_ok (loop_body t this s).
Proof.
  intros G R C. unfold loop_body.
  destruct (MoveOn_good t this s G R) as [G1 R1].
  pose proof (MoveOn_cache t this s G R C) as C1.
  pose proof (BatchProcessTasks_loop_cache t this (N.to_nat kMaxBatchProcessTasks) 0%N _ G1 R1 C1)
    as C2.
  unfold BatchProcessTasks.
  destruct (BatchProcessTasks_loop t this (N.to_nat kMaxBatchProcessTasks) 0 (MoveOn t this s))
    as [n s2]. simpl in C2.
  destruct (workers s2 !! this) as [wk|]; [|done].
  by apply Poll_cache, cache_ok_log.
Qed.

Lemma WorkerMainEntry_step_cache this s :
  good s → cache_ok s → cache_ok (WorkerMainEntry_step (WorkerThread this) this s).
Proof.
  intros [W Hnd] C. unfold WorkerMainEntry_step.
  destruct (workers s !! this) as [wk|] eqn:Hw; [|done].
  destruct (phase wk) eqn:Hph; [| |done].
  - destruct C as [C1 C2 C3].
    assert (Hctx : ∀ t gid,
      client_ctx t gid (set_tls (insert (WorkerThread this)
                          (with_self (Some this) (thread_local (WorkerThread this) s))) s)
      = client_ctx t gid s).
    { intros t gid. unfold client_ctx, thread_local. simpl.
      destruct (decide (WorkerThread this = t)) as [<-|Hne].
      - by rewrite lookup_insert_eq.
      - by rewrite lookup_insert_ne. }
    split.
    + intros t. unfold thread_local. simpl.
      destruct (decide (WorkerThread this = t)) as [<-|Hne].
      * rewrite lookup_insert_eq. simpl. apply C1.
      * rewrite lookup_insert_ne by done. apply C1.
    + intros t gid. simpl. rewrite registrations_app, app_nil_r.
      change (client_ctx t gid (log ?e (set_workers ?f ?x))) with (client_ctx t gid x).
      rewrite Hctx. apply C2.
    + intros t gid h.
      change (client_ctx t gid (log ?e (set_workers ?f ?x))) with (client_ctx t gid x).
      rewrite Hctx. apply C3.
  - destruct (stop_flag_ wk).
    + apply cache_ok_log; [done|]. by apply (cache_ok_same s).
    + apply loop_body_cache; [done | | done]. split.
      * apply (wf_self s W this wk Hw). by rewrite Hph.
      * exists wk. split; [done | by rewrite Hph].
Qed.

Lemma Worker_stop_cache this s : good s → cache_ok s → cache_ok (Worker_stop this s).
Proof.
  intros [W Hnd] C. unfold Worker_stop. destruct (workers s !! this) as [wk|] eqn:Hw; [|done].
  destruct (wf_worker s W this wk Hw) as (_ & _ & _ & -> & _).
  assert (G1 : good (set_workers (insert this (with_stop_flag true wk)) s)).
  { split; [|done]. by apply (wf_set_worker s this wk). }
  assert (C1 : cache_ok (set_workers (insert this (with_stop_flag true wk)) s)).
  { by apply (cache_ok_same s). }
  pose proof (WorkerMainEntry_step_cache this _ G1 C1) as C2.
  apply (WorkerMainEntry_step_good this) in G1.
  pose proof (WorkerMainEntry_step_cache this _ G1 C2) as C3.
  revert C3. by apply cache_ok_same.
Qed.

Lemma quantum_sound q s : sound s → sound (quantum q s).
Proof.
  intros S. split; [apply quantum_good, S|]. destruct q; simpl.
  - exact (proj2 (run_call_sound _ _ _ S)).
  - destruct S as [G C]. by apply WorkerMainEntry_step_cache.
  - destruct S as [_ C]. revert C. by apply cache_ok_same.
Qed.

Lemma quanta_sound qs : ∀ s, sound s → sound (quanta qs s).
Proof.
  induction qs as [|q qs IH]; intros s S; simpl; [done|].
  by apply IH, quantum_sound.
Qed.

Lemma Worker_dtor_sound late this s : sound s → sound (Worker_dtor late this s).
Proof.
  intros S. unfold Worker_dtor. destruct (workers s !! this) as [wk|] eqn:Hw; [|done].
  destruct (quanta_sound late s S) as [G1 C1].
  split; [by apply Worker_stop_good | by apply Worker_stop_cache].
Qed.

Lemma fold_Worker_dtor_sound late ws : ∀ s,
  sound s → sound (fold_left (λ s' w, Worker_dtor (late w) w s') ws s).
Proof.
  induction ws as [|w ws IH]; intros s S; simpl; [done|].
  apply IH. by apply Worker_dtor_sound.
Qed.

Lemma release_cache h q s : cache_ok s → cache_ok (release h q s).
Proof.
  intros C. unfold release. destruct (queues s !! q); [|done].
  case_decide; by apply (cache_ok_same s).
Qed.

Lemma WorkerGroup_dtor_sound late g s : sound s → sound (WorkerGroup_dtor late g s).
Proof.
  intros S. split; [apply WorkerGroup_dtor_good, S|].
  unfold WorkerGroup_dtor. destruct (groups s !! g) as [grp|]; [|apply S].
  destruct (fold_Worker_dtor_sound late (workers_ grp) s S) as [_ C].
  apply (release_cache (HolderGroup g) (queue_ grp)) in C.
  revert C. by apply cache_ok_same.
Qed.

Lemma emplace_worker_cache g supplier id s :
  cache_ok s → cache_ok (emplace_worker g supplier id s).
Proof.
  intros C. unfold emplace_worker. destruct (groups s !! g) as [grp|]; [|done].
  destruct (queues s !! queue_ grp); [|done].
  by apply (cache_ok_same s).
Qed.

Lemma construct_workers_cache g supplier remaining : ∀ id s,
  cache_ok s → cache_ok (construct_workers g supplier remaining id s).
Proof.
  induction remaining as [|k IH]; intros id s C; simpl; [done|].
  by apply IH, emplace_worker_cache.
Qed.

Lemma WorkerGroup_ctor_sound n c supplier s : sound s → sound (WorkerGroup_ctor n c supplier s).
Proof.
  intros [G C]. split; [by apply WorkerGroup_ctor_good|].
  unfold WorkerGroup_ctor. apply construct_workers_cache.
  apply (cache_ok_quiet s _ [EvConstruct (next_addr s) (s_next_group_id_ s)]);
    [done | simpl; lia | done | by repeat constructor | done].
Qed.

Lemma step_sound a s : sound s → sound (step a s).
Proof.
  intros S. destruct a; simpl.
  - by apply WorkerGroup_ctor_sound.
  - by apply WorkerGroup_dtor_sound.
  - by apply (quantum_sound (QCall _ _)).
  - by apply (quantum_sound (QWorkerThread _)).
  - by apply (quantum_sound (QTick _)).
Qed.

Lemma init_sound : sound init.
Proof.
  split; [apply init_good|]. split; try done.
  intros t. unfold thread_local. simpl. rewrite lookup_empty. simpl. apply length_replicate.
  intros t gid. unfold client_ctx, thread_local. simpl. rewrite lookup_empty. simpl.
  case_decide; [|by rewrite lookup_empty].
  destruct (replicate _ _ !! _) eqn:E; [|done]. by apply lookup_replicate in E as [-> _].
  intros t gid h. unfold client_ctx, thread_local. simpl. rewrite lookup_empty. simpl.
  case_decide; [|by rewrite lookup_empty].
  destruct (replicate _ _ !! _) eqn:E; [|done]. by apply lookup_replicate in E as [-> _].
Qed.

Lemma run_sound acts : ∀ s, sound s → sound (run acts s).
Proof.
  induction acts as [|a acts IH]; intros s S; simpl; [done|].
  apply IH. by apply step_sound.
Qed.

Lemma reachable_sound s : reachable s → sound s.
Proof. intros [acts ->]. apply run_sound, init_sound. Qed.

(** While no more than 2^64 groups have been constructed, every populated
    cache entry for a live group's id holds a handle on that group's
    queue. *)
Lemma handle_ok_reachable s t g grp :
  reachable s → (next_addr s ≤ size_t_modulus)%N → groups s !! g = Some grp →
  handle_ok t grp s.
Proof.
  intros R Hb Hg. destruct (reachable_sound s R) as [[W _] [_ C2 C3]].
  destruct (wf_group s W g grp Hg) as (B1 & B2 & B3 & _).
  intros h Hh. specialize (C3 _ _ _ Hh). specialize (C2 t (group_id_ grp)).
  rewrite Hh in C2. simpl in C2.
  assert (Hin : h ∈ registrations t (group_id_ grp) (trace s)).
  { rewrite C2. apply list_elem_of_singleton. done. }
  unfold registrations in Hin. apply list_elem_of_omap in Hin as (e & _ & He).
  destruct e; try done. case_decide as Hd; [|done]. destruct Hd as [_ Hw].
  injection He as <-. simpl in *. rewrite B3, !size_t_wrap_small in Hw by lia.
  by rewrite B1.
Qed.

(** Under the same bound, a thread that has not registered with a live
    group's queue finds its cache entry for that group empty, and one that
    has finds the handle it was given then. *)
Lemma cache_entry_history s t g grp :
  reachable s → (next_addr s ≤ size_t_modulus)%N → groups s !! g = Some grp →
  ((∀ p, EvRegister t (queue_ grp) p ∉ trace s) →
     out_queue (client_ctx t (group_id_ grp) s) = None) ∧
  (∀ p, EvRegister t (queue_ grp) p ∈ trace s →
     out_queue (client_ctx t (group_id_ grp) s)
     = Some {| oq_queue := queue_ grp; oq_producer := p |}).
Proof.
  intros R Hb Hg. pose proof (handle_ok_reachable s t g grp R Hb Hg) as Hok.
  destruct (reachable_sound s R) as [[W _] [_ C2 _]].
  destruct (wf_group s W g grp Hg) as (B1 & B2 & B3 & _).
  specialize (C2 t (group_id_ grp)). split.
  - intros Hnone. destruct (out_queue (client_ctx t (group_id_ grp) s)) as [h|] eqn:Hh; [|done].
    exfalso. specialize (Hok h Hh). simpl in C2.
    assert (Hin : h ∈ registrations t (group_id_ grp) (trace s)).
    { rewrite C2. by apply list_elem_of_singleton. }
    unfold registrations in Hin. apply list_elem_of_omap in Hin as (e & Hin & He).
    destruct e; try done. case_decide as Hd; [|done]. destruct Hd as [-> _].
    injection He as <-. simpl in Hok. subst q. by apply (Hnone producer).
  - intros p Hin.
    assert (Hreg : {| oq_queue := queue_ grp; oq_producer := p |}
                   ∈ registrations t (group_id_ grp) (trace s)).
    { unfold registrations. apply list_elem_of_omap. eexists. split; [exact Hin|].
      simpl. rewrite decide_True; [done|]. split; [done|]. by rewrite B1, B3. }
    rewrite C2 in Hreg. destruct (out_queue (client_ctx t (group_id_ grp) s)) as [h|]; simpl in Hreg.
    + apply list_elem_of_singleton in Hreg. by subst h.
    + by apply elem_of_nil in Hreg.
Qed.

(** ** More on draining a lane *)

Lemma BatchProcessTasks_loop_count t this remaining : ∀ cnt s,
  BatchProcessTasks_loop t this remaining cnt s
  = ((cnt + (BatchProcessTasks_loop t this remaining 0 s).1)%N,
     (BatchProcessTasks_loop t this remaining 0 s).2).
Proof.
  induction remaining as [|k IH]; intros cnt s; simpl.
  { f_equal. lia. }
  destruct (workers s !! this) as [wk|]; [|simpl; f_equal; lia].
  destruct (InQueue_Pop (inq_ wk) s) as [[c s1]|]; [|simpl; f_equal; lia].
  rewrite (IH (cnt + 1)%N), (IH (0 + 1)%N). simpl. f_equal. lia.
Qed.

Lemma BatchProcessTasks_loop_split t this ra rb : ∀ cnt s,
  BatchProcessTasks_loop t this (ra + rb) cnt s
  = if decide ((BatchProcessTasks_loop t this ra cnt s).1 < cnt + N.of_nat ra)%N
    then BatchProcessTasks_loop t this ra cnt s
    else BatchProcessTasks_loop t this rb (BatchProcessTasks_loop t this ra cnt s).1
           (BatchProcessTasks_loop t this ra cnt s).2.
Proof.
  induction ra as [|k IH]; intros cnt s.
  { simpl. rewrite decide_False by lia. done. }
  cbn [Nat.add BatchProcessTasks_loop].
  destruct (workers s !! this) as [wk|]; [|simpl; by rewrite decide_True by lia].
  destruct (InQueue_Pop (inq_ wk) s) as [[c s1]|]; [|simpl; by rewrite decide_True by lia].
  rewrite IH. replace (cnt + 1 + N.of_nat k)%N with (cnt + N.of_nat (S k))%N by lia. done.
Qed.

Lemma BatchProcessTasks_loop_ge t this remaining : ∀ cnt s,
  (cnt ≤ (BatchProcessTasks_loop t this remaining cnt s).1)%N.
Proof.
  intros cnt s. rewrite BatchProcessTasks_loop_count. simpl. lia.
Qed.

(** ** More on one pass of the run loop *)

Lemma usleeps_app tr1 tr2 : usleeps (tr1 ++ tr2) = usleeps tr1 ++ usleeps tr2.
Proof. apply omap_app. Qed.

Lemma fire_frame_events t this (fired : list Timer) : ∀ s,
  frame (fire_event t) s
    (fold_left (λ s' tm, run_closure t (callback tm) (log (EvFire this (callback tm)) s'))
       fired s).
Proof.
  induction fired as [|tm fired IH]; intros s; [apply frame_refl|].
  cbn [fold_left]. eapply frame_trans; [|apply IH].
  apply (frame_trans _ _ (log (EvFire this (callback tm)) s)).
  - apply frame_log; [right; eauto | done].
  - eapply frame_mono; [|apply run_closure_frame]. intros e He. by left.
Qed.

Lemma usleeps_fire t evs : Forall (fire_event t) evs → usleeps evs = [].
Proof.
  apply omap_inert. intros e [He | (w & c & ->)]; [by destruct e | done].
Qed.

Lemma usleeps_batch t w evs : Forall (batch_event t w) evs → usleeps evs = [].
Proof.
  apply omap_inert. intros e [He | (c & ->)]; [by destruct e | done].
Qed.

Lemma executed_by_fire t w evs : Forall (fire_event t) evs → executed_by w evs = [].
Proof.
  apply omap_inert. intros e [He | (w' & c & ->)]; [by destruct e | done].
Qed.

Lemma take_prefix_app {A} (n : nat) (l k : list A) : take n l `prefix_of` take n (l ++ k).
Proof.
  rewrite take_app. by apply prefix_app_r.
Qed.

Lemma take_of_bounded_prefix {A} (n : nat) (xs rest all : list A) :
  xs ++ rest = all → (length xs ≤ n)%nat → ((length xs < n)%nat → rest = []) →
  xs = take n all.
Proof.
  intros <- Hle Hemp. destruct (decide (length xs < n)%nat) as [Hlt|Hge].
  - rewrite (Hemp Hlt), app_nil_r. by rewrite take_ge by lia.
  - assert (length xs = n) as <- by lia. by rewrite take_app_length.
Qed.

(** One pass of the loop body in full: the log of the pass is the advance
    of the wheel, what the timers that fire do, what the batch does, the
    call of the poller and, for the default poller, its sleep. *)
Lemma loop_body_pass t this s wk :
  workers s !! this = Some wk →
  ∃ ev1 ev2 wk',
    let n := N.of_nat (length (executed_by this ev2)) in
    let timeout := if decide (n < kMaxBatchProcessTasks)%N then kPollerTimeoutMs else 0%N in
    trace (loop_body t this s)
      = trace s ++ [EvMoveOn this (clock s)] ++ ev1 ++ ev2 ++ [EvPoll this timeout]
          ++ (match poller_ wk with
              | DefaultWorkerPoller =>
                  if decide (0 < timeout)%N
                  then [EvUsleep (useconds_t_wrap (size_t_wrap (timeout * 1000)))] else []
              | UserPoller _ => []
              end) ∧
    Forall (fire_event t) ev1 ∧ Forall (batch_event t this) ev2 ∧
    (length (executed_by this ev2) ≤ N.to_nat kMaxBatchProcessTasks)%nat ∧
    executed_by this ev2 ++ lane_items (inq_ wk) (loop_body t this s)
      = lane_items (inq_ wk) s ++ pushed (inq_ wk).1 (inq_ wk).2 (ev1 ++ ev2) ∧
    ((length (executed_by this ev2) < N.to_nat kMaxBatchProcessTasks)%nat →
       lane_items (inq_ wk) (loop_body t this s) = []) ∧
    workers (loop_body t this s) !! this = Some wk' ∧
    fixed_part wk' = fixed_part wk.
Proof.
  intros Hw. unfold loop_body.
  assert (∃ tms, frame (fire_event t)
            (log (EvMoveOn this (clock s)) (set_workers (insert this (with_timers tms wk)) s))
            (MoveOn t this s)) as (tms & F1).
  { unfold MoveOn. rewrite Hw. eexists. apply fire_frame_events. }
  set (s0 := log (EvMoveOn this (clock s))
               (set_workers (insert this (with_timers tms wk)) s)) in F1.
  set (s1 := MoveOn t this s) in *.
  assert (Hw0 : workers s0 !! this = Some (with_timers tms wk)).
  { subst s0. simpl. by rewrite lookup_insert_eq. }
  destruct (frame_worker _ _ _ this _ F1 Hw0) as (wk1 & Hw1 & Hfix1).
  destruct (fr_trace _ _ _ F1) as (ev1 & T1 & Q1 & L1).
  unfold BatchProcessTasks.
  destruct (BatchProcessTasks_loop_spec t this (N.to_nat kMaxBatchProcessTasks) 0%N s1 wk1 Hw1)
    as (ev2 & T2 & Hn & Hle & Hall & L2 & Hemp & wk2 & Hw2 & Hfix2).
  destruct (BatchProcessTasks_loop t this (N.to_nat kMaxBatchProcessTasks) 0 s1) as [n s2].
  simpl in T2, Hn, Hw2, L2, Hemp. rewrite Hw2.
  assert (Hinq1 : inq_ wk1 = inq_ wk) by (by apply fixed_part_inq in Hfix1).
  rewrite Hinq1 in L2, Hemp.
  assert (Hpol : poller_ wk2 = poller_ wk).
  { apply fixed_part_fields in Hfix2 as (_ & _ & -> & _).
    by apply fixed_part_fields in Hfix1 as (_ & _ & -> & _). }
  assert (Hn' : N.of_nat (length (executed_by this ev2)) = n) by lia.
  exists ev1, ev2, wk2. cbv zeta. rewrite Hn', Hpol.
  set (timeout := if decide (n < kMaxBatchProcessTasks)%N then kPollerTimeoutMs else 0%N).
  assert (HP : ∀ x, lane_items x (Poll (poller_ wk) timeout (log (EvPoll this timeout) s2))
                    = lane_items x s2).
  { intros x. unfold Poll. destruct (poller_ wk); [|done]. by case_decide. }
  split_and!.
  - unfold Poll. destruct (poller_ wk); [case_decide|]; simpl; rewrite T2, T1; subst s0; simpl;
      rewrite <- ?app_assoc; simpl; try done; by rewrite app_nil_r.
  - done.
  - done.
  - done.
  - destruct (inq_ wk) as [q l]. simpl in *.
    rewrite HP, L2, (L1 q l), !pushed_app. subst s0.
    rewrite lane_items_log, lane_items_set_workers. by rewrite <- !app_assoc.
  - intros Hlt. rewrite HP. by apply Hemp.
  - unfold Poll. destruct (poller_ wk); [case_decide|]; done.
  - by rewrite Hfix2.
Qed.

Lemma pushed_inert q l evs :
  Forall (λ e, is_push e = false) evs → pushed q l evs = [].
Proof. apply omap_inert. intros e He. by destruct e. Qed.

Lemma executed_by_inert w evs :
  Forall (λ e, match e with EvExec _ _ => False | _ => True end) evs → executed_by w evs = [].
Proof. apply omap_inert. intros e He. by destruct e. Qed.

(** The log of one pass, cut at the call of the poller. *)
Lemma loop_body_log t this s wk :
  workers s !! this = Some wk →
  ∃ evs cs sleep,
    trace (loop_body t this s) = trace s ++ evs ++ sleep ∧
    executed_by this (evs ++ sleep) = cs ∧ usleeps evs = [] ∧
    pushed (inq_ wk).1 (inq_ wk).2 (evs ++ sleep) = pushed (inq_ wk).1 (inq_ wk).2 evs ∧
    sleep = (match poller_ wk with
             | DefaultWorkerPoller =>
                 if decide (length cs < N.to_nat kMaxBatchProcessTasks)%nat
                 then [EvUsleep 1000] else []
             | UserPoller _ => []
             end) ∧
    (length cs ≤ N.to_nat kMaxBatchProcessTasks)%nat ∧
    cs ++ lane_items (inq_ wk) (loop_body t this s)
      = lane_items (inq_ wk) s ++ pushed (inq_ wk).1 (inq_ wk).2 evs ∧
    ((length cs < N.to_nat kMaxBatchProcessTasks)%nat →
       lane_items (inq_ wk) (loop_body t this s) = []).
Proof.
  intros Hw.
  destruct (loop_body_pass t this s wk Hw)
    as (ev1 & ev2 & wk' & T & Q1 & Q2 & Hle & L & Hemp & _).
  cbv zeta in T.
  set (timeout := if decide (N.of_nat (length (executed_by this ev2)) < kMaxBatchProcessTasks)%N
                  then kPollerTimeoutMs else 0%N) in T.
  set (sleep := match poller_ wk with
                | DefaultWorkerPoller =>
                    if decide (0 < timeout)%N
                    then [EvUsleep (useconds_t_wrap (size_t_wrap (timeout * 1000)))]
                    else []
                | UserPoller _ => []
                end) in T.
  assert (Hsl : Forall (λ e, ∃ u, e = EvUsleep u) sleep).
  { subst sleep. destruct (poller_ wk); [case_decide|]; repeat constructor. eauto. }
  assert (E : executed_by this ([EvMoveOn this (clock s)] ++ ev1 ++ ev2 ++ [EvPoll this timeout])
              = executed_by this ev2).
  { rewrite !executed_by_app, (executed_by_fire _ _ _ Q1). simpl. by rewrite app_nil_r. }
  assert (Es : executed_by this sleep = []).
  { apply executed_by_inert. eapply Forall_impl; [exact Hsl|]. by intros e [u ->]. }
  assert (Ps : ∀ q l, pushed q l sleep = []).
  { intros q l. apply pushed_inert. eapply Forall_impl; [exact Hsl|]. by intros e [u ->]. }
  exists ([EvMoveOn this (clock s)] ++ ev1 ++ ev2 ++ [EvPoll this timeout]),
    (executed_by this ev2), sleep.
  split_and!.
  - rewrite T. by rewrite <- !app_assoc.
  - by rewrite executed_by_app, E, Es, app_nil_r.
  - rewrite !usleeps_app, (usleeps_fire _ _ Q1), (usleeps_batch _ _ _ Q2). done.
  - by rewrite pushed_app, Ps, app_nil_r.
  - subst sleep timeout. unfold kMaxBatchProcessTasks, kPollerTimeoutMs in *.
    destruct (poller_ wk); [|done].
    destruct (decide (length (executed_by this ev2) < N.to_nat 16)%nat);
      destruct (decide (N.of_nat (length (executed_by this ev2)) < 16)%N); try lia;
      case_decide; try lia; done.
  - done.
  - rewrite L. f_equal. rewrite !pushed_app.
    change (pushed _ _ [EvMoveOn this (clock s)]) with (@nil Closure).
    change (pushed _ _ [EvPoll this timeout]) with (@nil Closure).
    by rewrite app_nil_r.
  - done.
Qed.

(** ** Construction *)

Lemma emplace_worker_eq g supplier id s grp tq :
  groups s !! g = Some grp → queues s !! queue_ grp = Some tq →
  emplace_worker g supplier id s
  = set_groups (insert g {| group_id_ := group_id_ grp; workers_ := workers_ grp ++ [(g, id)];
                            queue_ := queue_ grp |})
      (set_workers (insert (g, id)
                      (Worker_ctor (g, id) g (N.of_nat id) (queue_ grp, length (lanes tq))
                         (supplier (N.of_nat id))))
         (set_queues (insert (queue_ grp) (with_lanes (lanes tq ++ [[]]) tq)) s)).
Proof. intros Hg Hq. unfold emplace_worker. by rewrite Hg, Hq. Qed.

Lemma construct_workers_spec g supplier remaining : ∀ id s grp tq,
  groups s !! g = Some grp → queue_ grp = g → queues s !! g = Some tq →
  groups (construct_workers g supplier remaining id s)
    = <[g := {| group_id_ := group_id_ grp;
                workers_ := workers_ grp ++ ((λ i, (g, i)) <$> seq id remaining);
                queue_ := g |}]> (groups s) ∧
  queues (construct_workers g supplier remaining id s)
    = <[g := with_lanes (lanes tq ++ replicate remaining []) tq]> (queues s) ∧
  (∀ w, workers (construct_workers g supplier remaining id s) !! w
        = if decide (w.1 = g ∧ (id ≤ w.2 < id + remaining)%nat)
          then Some (Worker_ctor w g (N.of_nat w.2) (g, (length (lanes tq) + (w.2 - id))%nat)
                       (supplier (N.of_nat w.2)))
          else workers s !! w) ∧
  trace (construct_workers g supplier remaining id s) = trace s ∧
  tls (construct_workers g supplier remaining id s) = tls s ∧
  next_addr (construct_workers g supplier remaining id s) = next_addr s ∧
  s_next_group_id_ (construct_workers g supplier remaining id s) = s_next_group_id_ s ∧
  clock (construct_workers g supplier remaining id s) = clock s ∧
  null_deref (construct_workers g supplier remaining id s) = null_deref s.
Proof.
  induction remaining as [|k IH]; intros id s grp tq Hg Hqg Hq.
  { simpl. split_and!; try done.
    - rewrite app_nil_r. destruct grp as [gid ws q]. simpl in *. subst q.
      by rewrite insert_id.
    - rewrite app_nil_r. destruct tq. by rewrite insert_id.
    - intros w. rewrite decide_False; [done | lia]. }
  cbn [construct_workers].
  rewrite (emplace_worker_eq g supplier id s grp tq) by (by rewrite ?Hqg).
  rewrite Hqg.
  set (grp1 := {| group_id_ := group_id_ grp; workers_ := workers_ grp ++ [(g, id)];
                  queue_ := g |}).
  set (tq1 := with_lanes (lanes tq ++ [[]]) tq).
  set (wk := Worker_ctor (g, id) g (N.of_nat id) (g, length (lanes tq)) (supplier (N.of_nat id))).
  set (s1 := set_groups (insert g grp1) (set_workers (insert (g, id) wk)
               (set_queues (insert g tq1) s))).
  destruct (IH (S id) s1 grp1 tq1) as (G & Q & W & T & L & A & I & C & D).
  { subst s1. simpl. by rewrite lookup_insert_eq. }
  { done. }
  { subst s1. simpl. by rewrite lookup_insert_eq. }
  split_and!; try done.
  - rewrite G. subst s1 grp1. simpl. rewrite insert_insert_eq. do 2 f_equal.
    by rewrite <- app_assoc.
  - rewrite Q. subst s1 tq1. simpl. rewrite insert_insert_eq. f_equal.
    unfold with_lanes. simpl. f_equal. by rewrite <- app_assoc.
  - intros [wg wi]. rewrite W. subst s1 tq1.
    cbn [workers set_groups set_workers set_queues lanes with_lanes fst snd].
    rewrite length_app. cbn [length].
    destruct (decide (wg = g ∧ (S id ≤ wi < S id + k)%nat)) as [[E1 ?]|H1];
      destruct (decide (wg = g ∧ (id ≤ wi < id + S k)%nat)) as [[E2 ?]|H2].
    + by replace (length (lanes tq) + 1 + (wi - S id))%nat
        with (length (lanes tq) + (wi - id))%nat by lia.
    + exfalso. apply H2. split; [done | lia].
    + assert (wi = id) as -> by (destruct (decide (wi = id)); [done|]; exfalso; apply H1; lia).
      rewrite E2, lookup_insert_eq. subst wk. by rewrite Nat.sub_diag, Nat.add_0_r.
    + rewrite lookup_insert_ne; [done|]. intros [= <- <-]. apply H2. split; [done | lia].
Qed.

(** ** Destruction *)

Lemma Worker_stop_eq this s wk :
  workers s !! this = Some wk →
  Worker_stop this s
  = match phase wk with
    | Created =>
        log (EvExit this) (log (EvEntry this)
          (set_workers (delete this)
             (set_tls (insert (thread_ wk) (with_self (Some this) (thread_local (thread_ wk) s)))
                s)))
    | Running => log (EvExit this) (set_workers (delete this) s)
    | Exited => set_workers (delete this) s
    end.
Proof.
  intros Hw. unfold Worker_stop. rewrite Hw.
  destruct wk as [g i q p b th tms ph]. cbn [thread_ phase].
  unfold WorkerMainEntry_step at 2. cbn [workers set_workers]. rewrite lookup_insert_eq.
  cbn [phase with_stop_flag stop_flag_].
  destruct ph; unfold WorkerMainEntry_step; cbn [workers set_workers set_tls log];
    rewrite ?lookup_insert_eq; cbn [phase with_phase with_stop_flag stop_flag_];
    unfold log, set_workers, set_tls; simpl; f_equal;
    by rewrite ?delete_insert_eq.
Qed.

(** ** The shape of a posting call *)

Lemma GetOutQueue_miss_eq t g s grp tq :
  groups s !! g = Some grp → queues s !! queue_ grp = Some tq →
  ctx_bool (client_ctx t (group_id_ grp) s) = false →
  GetOutQueue t g s
  = (Some {| oq_queue := queue_ grp; oq_producer := producers tq |},
     log (EvRegister t (queue_ grp) (producers tq))
       (set_client_ctx t (group_id_ grp)
          {| queue_holder := Some (queue_ grp);
             out_queue := Some {| oq_queue := queue_ grp; oq_producer := producers tq |} |}
          (set_queues (insert (queue_ grp)
             (with_holders ({[ HolderThread t (group_id_ grp) ]} ∪ holders tq)
                (RegisterProducer tq).2)) s))).
Proof. intros Hg Hq Hctx. unfold GetOutQueue. by rewrite Hg, Hctx, Hq. Qed.

Lemma GetOutQueue_cases t g s :
  (∃ r, GetOutQueue t g s = (r, s)) ∨
  (∃ grp tq, groups s !! g = Some grp ∧ queues s !! queue_ grp = Some tq ∧
     ctx_bool (client_ctx t (group_id_ grp) s) = false).
Proof.
  unfold GetOutQueue. destruct (groups s !! g) as [grp|] eqn:Hg; [|left; eauto].
  destruct (ctx_bool _) eqn:Hctx; [left; eauto|].
  destruct (queues s !! queue_ grp) as [tq|] eqn:Hq; [|left; eauto].
  right. eauto.
Qed.

Lemma OutQueue_Push_cases outq c s :
  OutQueue_Push outq c s = (false, s) ∨
  (∃ h tq lane tq', outq = Some h ∧ queues s !! oq_queue h = Some tq ∧
     Push c tq = Some (lane, tq') ∧
     OutQueue_Push outq c s
     = (true, log (EvPush (oq_queue h) lane c) (set_queues (insert (oq_queue h) tq') s))).
Proof.
  unfold OutQueue_Push. destruct outq as [h|]; [|by left].
  destruct (queues s !! oq_queue h) as [tq|] eqn:Hq; [|by left].
  destruct (Push c tq) as [[lane tq']|] eqn:Hp; [|by left].
  right. by exists h, tq, lane, tq'.
Qed.

Lemma OutQueue_Push_to_cases outq i c s :
  OutQueue_Push_to outq i c s = (false, s) ∨
  (∃ h tq tq', outq = Some h ∧ queues s !! oq_queue h = Some tq ∧
     Push_to (N.to_nat i) c tq = Some tq' ∧
     OutQueue_Push_to outq i c s
     = (true, log (EvPush (oq_queue h) (N.to_nat i) c)
                (set_queues (insert (oq_queue h) tq') s))).
Proof.
  unfold OutQueue_Push_to. destruct outq as [h|]; [|by left].
  destruct (queues s !! oq_queue h) as [tq|] eqn:Hq; [|by left].
  destruct (Push_to (N.to_nat i) c tq) as [tq'|] eqn:Hp; [|by left].
  right. by exists h, tq, tq'.
Qed.

Lemma GetOutQueue_shape t g s :
  workers (GetOutQueue t g s).2 = workers s ∧ groups (GetOutQueue t g s).2 = groups s ∧
  clock (GetOutQueue t g s).2 = clock s ∧ next_addr (GetOutQueue t g s).2 = next_addr s ∧
  s_next_group_id_ (GetOutQueue t g s).2 = s_next_group_id_ s ∧
  null_deref (GetOutQueue t g s).2 = null_deref s ∧
  (∀ t', t' ≠ t → thread_local t' (GetOutQueue t g s).2 = thread_local t' s) ∧
  Worker_self t (GetOutQueue t g s).2 = Worker_self t s ∧
  ∃ reg, trace (GetOutQueue t g s).2 = trace s ++ reg ∧
    (reg = [] ∨ ∃ q p, reg = [EvRegister t q p]).
Proof.
  destruct (GetOutQueue_cases t g s) as [[r ->] | (grp & tq & Hg & Hq & Hctx)].
  - simpl. split_and!; try done. exists []. split; [by rewrite app_nil_r | by left].
  - rewrite (GetOutQueue_miss_eq t g s grp tq Hg Hq Hctx). cbn [snd].
    split_and!; try done.
    + intros t' Hne. unfold thread_local, set_client_ctx. simpl. by rewrite lookup_insert_ne.
    + unfold Worker_self, thread_local, set_client_ctx. simpl.
      rewrite lookup_insert_eq. simpl. by case_decide.
    + eexists. split; [done|]. right. eauto.
Qed.

Lemma post_shape t outq s1 s item (push : option OutQueue → Closure → State → bool * State) :
  (∀ o c s0, push o c s0 = (false, s0) ∨
     ∃ q l tq', push o c s0 = (true, log (EvPush q l c) (set_queues (insert q tq') s0))) →
  (workers s1 = workers s ∧ groups s1 = groups s ∧ clock s1 = clock s ∧
   next_addr s1 = next_addr s ∧ s_next_group_id_ s1 = s_next_group_id_ s ∧
   null_deref s1 = null_deref s ∧
   (∀ t', t' ≠ t → thread_local t' s1 = thread_local t' s) ∧
   Worker_self t s1 = Worker_self t s ∧
   ∃ reg, trace s1 = trace s ++ reg ∧ (reg = [] ∨ ∃ q p, reg = [EvRegister t q p])) →
  call_shape t item (push outq item s1).1 s (push outq item s1).2.
Proof.
  intros Hpush (W & G & C & A & I & D & L & S & reg & T & R).
  destruct (Hpush outq item s1) as [-> | (q & l & tq' & ->)]; cbn [fst snd].
  - split; try done. exists reg, []. by rewrite app_nil_r.
  - split; try done. exists reg, [EvPush q l item]. split_and!; [|done|by eauto].
    simpl. by rewrite T, <- app_assoc.
Qed.

Lemma do_call_shape t call s :
  call_shape t (call_item call) (do_call t call s).1 s (do_call t call s).2.
Proof.
  assert (P1 : ∀ o c s0, OutQueue_Push o c s0 = (false, s0) ∨
     ∃ q l tq', OutQueue_Push o c s0 = (true, log (EvPush q l c) (set_queues (insert q tq') s0))).
  { intros o c s0. destruct (OutQueue_Push_cases o c s0) as [?|(h & tq & l & tq' & _ & _ & _ & ?)];
      [by left | right; eauto]. }
  assert (P2 : ∀ i o c s0, OutQueue_Push_to o i c s0 = (false, s0) ∨
     ∃ q l tq', OutQueue_Push_to o i c s0
                = (true, log (EvPush q l c) (set_queues (insert q tq') s0))).
  { intros i o c s0.
    destruct (OutQueue_Push_to_cases o i c s0) as [?|(h & tq & tq' & _ & _ & _ & ?)];
      [by left | right; eauto]. }
  assert (A1 : ∀ g c, call_shape t c (OutQueue_Push (GetOutQueue t g s).1 c (GetOutQueue t g s).2).1
                        s (OutQueue_Push (GetOutQueue t g s).1 c (GetOutQueue t g s).2).2).
  { intros g c. apply (post_shape t _ _ s c OutQueue_Push P1), GetOutQueue_shape. }
  assert (A2 : ∀ g i c,
             call_shape t c (OutQueue_Push_to (GetOutQueue t g s).1 i c (GetOutQueue t g s).2).1
               s (OutQueue_Push_to (GetOutQueue t g s).1 i c (GetOutQueue t g s).2).2).
  { intros g i c.
    apply (post_shape t _ _ s c (λ o c' s0, OutQueue_Push_to o i c' s0) (P2 i)),
      GetOutQueue_shape. }
  destruct call as [g f | g i f | g f d | g i f d | g f p | g i f p | w f];
    cbn [do_call call_item];
    unfold PostTask, PostTask_to, PostTask_delay, PostTask_to_delay, PostPeriodTask,
      PostPeriodTask_to, Worker_PostTask;
    try (specialize (A1 g)); try (specialize (A2 g i));
    try (destruct (GetOutQueue t g s) as [outq s1]; first [apply A1 | apply A2]).
  destruct (workers s !! w) as [wk|].
  - unfold PostTask_to. specialize (A2 (group_ wk) (id_ wk) f).
    by destruct (GetOutQueue t (group_ wk) s) as [outq s1].
  - split; try done. exists [], []. split_and!; [by rewrite app_nil_r | by left | done].
Qed.

Lemma Push_to_meta lane c tq tq1 :
  Push_to lane c tq = Some tq1 → producers tq1 = producers tq ∧ holders tq1 = holders tq.
Proof.
  unfold Push_to. destruct (lanes tq !! lane); [|done]. case_decide; [|done].
  by intros [= <-].
Qed.

Lemma Push_meta c tq lane tq' :
  Push c tq = Some (lane, tq') → producers tq' = producers tq ∧ holders tq' = holders tq.
Proof.
  unfold Push. destruct (Push_to (place tq) c tq) as [tq1|] eqn:Hp; [|done].
  intros [= <- <-]. simpl. by apply Push_to_meta in Hp.
Qed.

Lemma Pop_meta lane tq c tq' :
  Pop lane tq = Some (c, tq') → producers tq' = producers tq ∧ holders tq' = holders tq.
Proof.
  unfold Pop. destruct (lanes tq !! lane) as [[|c0 rest]|]; try done. by intros [= <- <-].
Qed.

(** A push through a handle, of either kind: the queue behind the handle
    keeps its producers and holders, nothing else is touched. *)
Lemma push_through_handle (push : option OutQueue → Closure → State → bool * State) :
  (∀ o c s0, push o c s0 = (false, s0) ∨
     ∃ h tq tq' l, o = Some h ∧ queues s0 !! oq_queue h = Some tq ∧
       producers tq' = producers tq ∧ holders tq' = holders tq ∧
       push o c s0 = (true, log (EvPush (oq_queue h) l c)
                              (set_queues (insert (oq_queue h) tq') s0))) →
  ∀ o c s0,
    tls (push o c s0).2 = tls s0 ∧
    (∃ evs, trace (push o c s0).2 = trace s0 ++ evs) ∧
    ∀ q tq, queues s0 !! q = Some tq →
      ∃ tq', queues (push o c s0).2 !! q = Some tq' ∧
        producers tq' = producers tq ∧ holders tq' = holders tq.
Proof.
  intros Hpush o c s0.
  destruct (Hpush o c s0) as [-> | (h & tq0 & tq' & l & -> & Hq0 & Hp & Hh & ->)]; cbn [snd].
  - split_and!; [done | exists []; by rewrite app_nil_r | eauto].
  - split_and!; [done | by eexists |]. intros q tq Hq. simpl.
    destruct (decide (q = oq_queue h)) as [->|Hne].
    + rewrite lookup_insert_eq. exists tq'. rewrite Hq0 in Hq. injection Hq as <-. done.
    + rewrite lookup_insert_ne by done. eauto.
Qed.

Lemma OutQueue_Push_handle o c s0 :
  OutQueue_Push o c s0 = (false, s0) ∨
  ∃ h tq tq' l, o = Some h ∧ queues s0 !! oq_queue h = Some tq ∧
    producers tq' = producers tq ∧ holders tq' = holders tq ∧
    OutQueue_Push o c s0 = (true, log (EvPush (oq_queue h) l c)
                                    (set_queues (insert (oq_queue h) tq') s0)).
Proof.
  destruct (OutQueue_Push_cases o c s0) as [?|(h & tq & l & tq' & -> & Hq & Hp & E)];
    [by left | right].
  apply Push_meta in Hp as [? ?]. by exists h, tq, tq', l.
Qed.

Lemma OutQueue_Push_to_handle i o c s0 :
  OutQueue_Push_to o i c s0 = (false, s0) ∨
  ∃ h tq tq' l, o = Some h ∧ queues s0 !! oq_queue h = Some tq ∧
    producers tq' = producers tq ∧ holders tq' = holders tq ∧
    OutQueue_Push_to o i c s0 = (true, log (EvPush (oq_queue h) l c)
                                         (set_queues (insert (oq_queue h) tq') s0)).
Proof.
  destruct (OutQueue_Push_to_cases o i c s0) as [?|(h & tq & tq' & -> & Hq & Hp & E)];
    [by left | right].
  apply Push_to_meta in Hp as [? ?]. by exists h, tq, tq', (N.to_nat i).
Qed.

Lemma Worker_stop_absent w s : workers s !! w = None → Worker_stop w s = s.
Proof. intros Hw. unfold Worker_stop. by rewrite Hw. Qed.

(** What the destruction of one worker changes. *)
Lemma Worker_stop_effect w s :
  groups (Worker_stop w s) = groups s ∧ queues (Worker_stop w s) = queues s ∧
  clock (Worker_stop w s) = clock s ∧ next_addr (Worker_stop w s) = next_addr s ∧
  s_next_group_id_ (Worker_stop w s) = s_next_group_id_ s ∧
  null_deref (Worker_stop w s) = null_deref s ∧
  workers (Worker_stop w s) = delete w (workers s) ∧
  (∀ t gid, client_ctx t gid (Worker_stop w s) = client_ctx t gid s) ∧
  (∀ t w0, Worker_self t (Worker_stop w s) = Some w0 →
     Worker_self t s = Some w0 ∨ ∃ wk, workers s !! w = Some wk ∧ t = thread_ wk ∧ w0 = w) ∧
  trace (Worker_stop w s)
    = trace s ++ from_option (λ wk, exit_log w (phase wk)) [] (workers s !! w).
Proof.
  destruct (workers s !! w) as [wk|] eqn:Hw.
  - rewrite (Worker_stop_eq w s wk Hw). cbn [from_option]. destruct (phase wk); simpl.
    + split_and!; try done.
      * intros t gid.
        change (client_ctx t gid (log ?e (log ?e' (set_workers ?f ?x))))
          with (client_ctx t gid x).
        unfold client_ctx, thread_local. simpl.
        destruct (decide (thread_ wk = t)) as [<-|Hne].
        -- by rewrite lookup_insert_eq.
        -- by rewrite lookup_insert_ne.
      * intros t w0. unfold Worker_self, thread_local. simpl.
        destruct (decide (thread_ wk = t)) as [<-|Hne].
        -- rewrite lookup_insert_eq. simpl. intros [= <-]. right. eauto.
        -- rewrite lookup_insert_ne by done. by left.
      * by rewrite <- app_assoc.
    + split_and!; try done. intros. by left.
    + split_and!; try done; [intros; by left | by rewrite app_nil_r].
  - rewrite (Worker_stop_absent w s Hw). simpl. rewrite app_nil_r.
    split_and!; try done; [|intros; by left].
    symmetry. by apply delete_id.
Qed.

Lemma workers_of_group s g grp :
  wf s → groups s !! g = Some grp →
  NoDup (workers_ grp) ∧
  (∀ w, w ∈ workers_ grp → w.1 = g) ∧
  (∀ w wk, workers s !! w = Some wk → w.1 = g → w ∈ workers_ grp).
Proof.
  intros W Hg. destruct (wf_group s W g grp Hg) as (_ & _ & _ & Hws & _).
  split_and!.
  - apply NoDup_alt. intros i j w Hi Hj. apply Hws in Hi, Hj. congruence.
  - intros w Hin. apply list_elem_of_lookup in Hin as [i Hi]. by rewrite (Hws i w Hi).
  - intros [g0 i] wk Hw E. simpl in E. subst g0.
    destruct (wf_worker s W _ wk Hw) as (_ & _ & _ & _ & _ & Hlt).
    specialize (Hlt grp Hg). simpl in Hlt.
    destruct (lookup_lt_is_Some_2 (workers_ grp) i Hlt) as [w' Hi].
    rewrite (Hws i w' Hi) in Hi. by eapply list_elem_of_lookup_2.
Qed.

(** ** Printing the name of a thread *)

Lemma pow10_succ k : (10 ^ N.of_nat (S k) = 10 * 10 ^ N.of_nat k)%N.
Proof. by rewrite Nat2N.inj_succ, N.pow_succ_r'. Qed.

Lemma print_lu_fuel_length_ge fuel : ∀ n k,
  (10 ^ N.of_nat k ≤ n)%N → (k < fuel)%nat → (k + 1 ≤ length (print_lu_fuel fuel n))%nat.
Proof.
  induction fuel as [|fuel IH]; intros n k Hn Hk; simpl; [lia|].
  case_decide as Hd.
  - destruct k as [|k]; [simpl; lia|]. rewrite pow10_succ in Hn.
    assert (1 ≤ 10 ^ N.of_nat k)%N; [|lia].
    change 1%N with (10 ^ 0)%N. apply N.pow_le_mono_r; lia.
  - rewrite length_app. simpl. destruct k as [|k]; [lia|].
    rewrite pow10_succ in Hn.
    assert (10 ^ N.of_nat k ≤ n / 10)%N by (apply N.div_le_lower_bound; lia).
    specialize (IH (n / 10)%N k). lia.
Qed.

Lemma N_of_ascii_digit d : (d < 10)%N → N_of_ascii (digit d) = (48 + d)%N.
Proof. intros Hd. unfold digit. apply N_ascii_embedding. lia. Qed.

Lemma digits_value_snoc ds c :
  digits_value (ds ++ [c]) = (10 * digits_value ds + (N_of_ascii c - 48))%N.
Proof. unfold digits_value. by rewrite fold_left_app. Qed.

Lemma digits_value_print_lu_fuel fuel : ∀ n,
  (n < 10 ^ N.of_nat fuel)%N → digits_value (print_lu_fuel fuel n) = n.
Proof.
  induction fuel as [|fuel IH]; intros n Hn.
  { change (10 ^ N.of_nat 0)%N with 1%N in Hn. assert (n = 0%N) as -> by lia. done. }
  cbn [print_lu_fuel]. case_decide as Hd.
  - unfold digits_value. simpl. rewrite N_of_ascii_digit by done. lia.
  - rewrite digits_value_snoc, N_of_ascii_digit by (apply N.mod_lt; lia).
    rewrite pow10_succ in Hn. rewrite IH by (apply N.Div0.div_lt_upper_bound; lia).
    pose proof (N.div_mod n 10 ltac:(lia)) as E.
    set (q := (n / 10)%N) in *. set (r := (n mod 10)%N) in *. clearbody q r. lia.
Qed.

Lemma print_lu_inj n m :
  (n < 10 ^ 20)%N → (m < 10 ^ 20)%N → print_lu n = print_lu m → n = m.
Proof.
  intros Hn Hm E.
  rewrite <- (digits_value_print_lu_fuel 20 n), <- (digits_value_print_lu_fuel 20 m) by done.
  unfold print_lu in E. by rewrite E.
Qed.

Lemma print_lu_fuel_digits fuel : ∀ n,
  Forall (λ c, ∃ d, (d < 10)%N ∧ c = digit d) (print_lu_fuel fuel n).
Proof.
  induction fuel as [|fuel IH]; intros n; simpl; [constructor|].
  case_decide as Hd; [repeat constructor; eauto|].
  apply Forall_app. split; [apply IH|]. repeat constructor.
  exists (n mod 10)%N. split; [apply N.mod_lt; lia | done].
Qed.

Lemma print_lu_no_dash n : "-"%char ∉ print_lu n.
Proof.
  intros Hin. pose proof (print_lu_fuel_digits 20 n) as H.
  rewrite Forall_forall in H. destruct (H _ Hin) as (d & Hd & E).
  apply (f_equal N_of_ascii) in E. rewrite N_of_ascii_digit in E by done.
  change (N_of_ascii "-") with 45%N in E. lia.
Qed.

Lemma app_cons_split {A} (x : A) : ∀ l1 l1' l2 l2',
  l1 ++ x :: l2 = l1' ++ x :: l2' → x ∉ l1 → x ∉ l1' → l1 = l1' ∧ l2 = l2'.
Proof.
  induction l1 as [|a l1 IH]; intros [|a' l1'] l2 l2' E H1 H2; simpl in E.
  - by injection E.
  - injection E as <- _. exfalso. apply H2, elem_of_cons. by left.
  - injection E as -> _. exfalso. apply H1, elem_of_cons. by left.
  - injection E as <- E. destruct (IH l1' l2 l2' E) as [-> ->]; [| |done].
    + intros ?. apply H1, elem_of_cons. by right.
    + intros ?. apply H2, elem_of_cons. by right.
Qed.

(** The new group's workers and queue right after construction. *)
Lemma WorkerGroup_ctor_state n c supplier s i :
  (i < N.to_nat n)%nat →
  workers (WorkerGroup_ctor n c supplier s) !! (next_addr s, i)
    = Some (Worker_ctor (next_addr s, i) (next_addr s) (N.of_nat i) (next_addr s, i)
              (supplier (N.of_nat i))) ∧
  queues (WorkerGroup_ctor n c supplier s) !! next_addr s
    = Some (with_lanes (replicate (N.to_nat n) [])
              (TaskQueue_new c (HolderGroup (next_addr s)))) ∧
  clock (WorkerGroup_ctor n c supplier s) = clock s ∧
  trace (WorkerGroup_ctor n c supplier s)
    = trace s ++ [EvConstruct (next_addr s) (s_next_group_id_ s)].
Proof.
  intros Hi. unfold WorkerGroup_ctor.
  destruct (construct_workers_spec (next_addr s) supplier (N.to_nat n) 0
              (WorkerGroup_init c s)
              {| group_id_ := s_next_group_id_ s; workers_ := []; queue_ := next_addr s |}
              (TaskQueue_new c (HolderGroup (next_addr s))))
    as (_ & Q & W & T & _ & _ & _ & C & _).
  { simpl. by rewrite lookup_insert_eq. }
  { done. }
  { simpl. by rewrite lookup_insert_eq. }
  split_and!.
  - rewrite W. cbn [fst snd].
    destruct (decide (next_addr s = next_addr s ∧ (0 ≤ i < 0 + N.to_nat n)%nat)) as [_|Hd];
      [|exfalso; apply Hd; split; [done | lia]].
    simpl. by rewrite Nat.sub_0_r.
  - rewrite Q. by rewrite lookup_insert_eq.
  - by rewrite C.
  - by rewrite T.
Qed.

Lemma BatchProcessTasks_empty t this max s wk :
  workers s !! this = Some wk → InQueue_Pop (inq_ wk) s = None →
  BatchProcessTasks t this max s = (0%N, s).
Proof.
  intros Hw Hpop. unfold BatchProcessTasks. destruct (N.to_nat max); [done|].
  cbn [BatchProcessTasks_loop]. by rewrite Hw, Hpop.
Qed.

(** What the constructor builds and what it leaves alone. *)
Lemma WorkerGroup_ctor_effect worker_num queue_size supplier s :
  let g := next_addr s in
  let s' := WorkerGroup_ctor worker_num queue_size supplier s in
  groups s' !! g = Some {| group_id_ := s_next_group_id_ s;
                           workers_ := (λ i, (g, i)) <$> seq 0 (N.to_nat worker_num);
                           queue_ := g |} ∧
  queues s' !! g = Some {| capacity := queue_size;
                           lanes := replicate (N.to_nat worker_num) [];
                           producers := 0; rr_cursor := 0;
                           holders := {[ HolderGroup g ]} |} ∧
  (∀ i, (i < N.to_nat worker_num)%nat →
     workers s' !! (g, i)
     = Some {| group_ := g; id_ := N.of_nat i; inq_ := (g, i);
               poller_ := supplier (N.of_nat i); stop_flag_ := false;
               thread_ := WorkerThread (g, i); timers_ := []; phase := Created |}) ∧
  (∀ g', g' ≠ g → groups s' !! g' = groups s !! g' ∧ queues s' !! g' = queues s !! g') ∧
  (∀ w, ¬ (w.1 = g ∧ (w.2 < N.to_nat worker_num)%nat) → workers s' !! w = workers s !! w) ∧
  trace s' = trace s ++ [EvConstruct g (s_next_group_id_ s)] ∧
  tls s' = tls s ∧ next_addr s' = (g + 1)%N.
Proof.
  intros g s'. subst s'. unfold WorkerGroup_ctor. fold g.
  destruct (construct_workers_spec g supplier (N.to_nat worker_num) 0
              (WorkerGroup_init queue_size s)
              {| group_id_ := s_next_group_id_ s; workers_ := []; queue_ := g |}
              (TaskQueue_new queue_size (HolderGroup g)))
    as (G & Q & W & T & L & A & I & _).
  { simpl. by rewrite lookup_insert_eq. }
  { done. }
  { simpl. by rewrite lookup_insert_eq. }
  split_and!.
  - rewrite G. by rewrite lookup_insert_eq.
  - rewrite Q. by rewrite lookup_insert_eq.
  - intros i Hi. rewrite W. simpl. rewrite decide_True by (split; [done | lia]).
    unfold Worker_ctor. simpl. by rewrite Nat.sub_0_r.
  - intros g' Hne. rewrite G, Q. simpl. by rewrite !lookup_insert_ne.
  - intros w Hw. rewrite W. rewrite decide_False; [done|]. intros [? ?]. apply Hw. split; [done | lia].
  - by rewrite T.
  - by rewrite L.
  - by rewrite A.
Qed.
(** ** What the quanta of a worker thread keep *)

Lemma fmap_Some_eq {A B} (f : A → B) (o o' : option A) x' :
  f <$> o' = f <$> o → o' = Some x' → ∃ x, o = Some x ∧ f x = f x'.
Proof.
  intros H ->. destruct o as [x|]; [|done]. exists x. split; [done|]. by injection H.
Qed.

Lemma fmap_is_Some_eq {A B} (f : A → B) (o o' : option A) :
  f <$> o' = f <$> o → is_Some o → is_Some o'.
Proof. intros H [x ->]. destruct o'; [eauto | done]. Qed.

Lemma shape_kept_refl s : shape_kept s s.
Proof. by split. Qed.

Lemma shape_kept_trans s1 s2 s3 : shape_kept s1 s2 → shape_kept s2 s3 → shape_kept s1 s3.
Proof. intros [A1 Q1] [A2 Q2]. split; [congruence|]. intros q. by rewrite Q2, Q1. Qed.

Lemma frame_shape_kept P s s' : frame P s s' → shape_kept s s'.
Proof. intros F. split; [apply (fr_next_addr _ _ _ F) | apply (fr_shape _ _ _ F)]. Qed.

Lemma InQueue_Pop_shape inq s c s1 : InQueue_Pop inq s = Some (c, s1) → shape_kept s s1.
Proof.
  intros Hpop. apply InQueue_Pop_Some in Hpop as (_ & _ & _ & tq & tq' & Hq & Hp & ->).
  split; [done|]. intros q. simpl. destruct (decide (inq.1 = q)) as [<-|Hne].
  - rewrite lookup_insert_eq, Hq. simpl. apply Pop_in_flight in Hp as (_ & Hc & Hl).
    unfold queue_shape. by rewrite Hc, Hl.
  - by rewrite lookup_insert_ne.
Qed.

Lemma BatchProcessTasks_loop_shape t this remaining : ∀ cnt s,
  shape_kept s (BatchProcessTasks_loop t this remaining cnt s).2.
Proof.
  induction remaining as [|k IH]; intros cnt s; simpl; [apply shape_kept_refl|].
  destruct (workers s !! this) as [wk|]; [|apply shape_kept_refl].
  destruct (InQueue_Pop (inq_ wk) s) as [[c s1]|] eqn:Hpop; [|apply shape_kept_refl].
  eapply shape_kept_trans; [by eapply InQueue_Pop_shape|].
  eapply shape_kept_trans; [|apply IH].
  apply (shape_kept_trans _ (log (EvExec this c) s1)); [by split|].
  apply (frame_shape_kept (client_event t)).
  apply (run_closure_frame t c (log (EvExec this c) s1)).
Qed.

Lemma loop_body_shape t this s : shape_kept s (loop_body t this s).
Proof.
  unfold loop_body.
  assert (M : shape_kept s (MoveOn t this s)).
  { destruct (workers s !! this) as [wk|] eqn:Hw.
    - destruct (MoveOn_spec t this s wk Hw) as (tms & F).
      apply frame_shape_kept in F. exact F.
    - unfold MoveOn. rewrite Hw. apply shape_kept_refl. }
  pose proof (BatchProcessTasks_loop_shape t this (N.to_nat kMaxBatchProcessTasks) 0%N
                (MoveOn t this s)) as B.
  unfold BatchProcessTasks.
  destruct (BatchProcessTasks_loop t this (N.to_nat kMaxBatchProcessTasks) 0 (MoveOn t this s))
    as [n s2]. simpl in B.
  eapply shape_kept_trans; [exact M|]. eapply shape_kept_trans; [exact B|].
  destruct (workers s2 !! this) as [wk|]; [|apply shape_kept_refl].
  destruct (poller_ wk); simpl; [|done]. by case_decide.
Qed.

Lemma WorkerMainEntry_step_shape t this s : shape_kept s (WorkerMainEntry_step t this s).
Proof.
  unfold WorkerMainEntry_step. destruct (workers s !! this) as [wk|]; [|apply shape_kept_refl].
  destruct (phase wk); [done | | apply shape_kept_refl].
  destruct (stop_flag_ wk); [done | apply loop_body_shape].
Qed.

Lemma run_call_shape t call s : shape_kept s (run_call t call s).
Proof. apply (frame_shape_kept (client_event t)), rtc_cprim_frame, run_call_steps. Qed.

Lemma quantum_shape q s : shape_kept s (quantum q s).
Proof.
  destruct q; simpl; [apply run_call_shape | apply WorkerMainEntry_step_shape | by split].
Qed.

Lemma quanta_shape qs : ∀ s, shape_kept s (quanta qs s).
Proof.
  induction qs as [|q qs IH]; intros s; simpl; [apply shape_kept_refl|].
  eapply shape_kept_trans; [apply quantum_shape | apply IH].
Qed.

Lemma crew_kept_refl s : crew_kept s s.
Proof. by split. Qed.

Lemma crew_kept_trans s1 s2 s3 : crew_kept s1 s2 → crew_kept s2 s3 → crew_kept s1 s3.
Proof. intros [G1 W1] [G2 W2]. split; [congruence|]. intros w. by rewrite W2, W1. Qed.

Lemma crew_kept_presence s s' w :
  crew_kept s s' → (is_Some (workers s' !! w) ↔ is_Some (workers s !! w)).
Proof.
  intros [_ W]. specialize (W w).
  split; intros Hs; eapply fmap_is_Some_eq; try exact Hs; done.
Qed.

Lemma frame_crew_kept P s s' : frame P s s' → crew_kept s s'.
Proof.
  intros F. split; [apply (fr_groups _ _ _ F)|]. intros w.
  pose proof (fr_workers _ _ _ F w) as H.
  destruct (workers s' !! w) as [wk'|], (workers s !! w) as [wk|]; try done.
  assert (E : fixed_part wk' = fixed_part wk)
    by (cbn [fmap option_fmap option_map] in H; congruence).
  apply fixed_part_fields in E as (_ & _ & _ & _ & _ & _ & E). simpl. by rewrite E.
Qed.

Lemma crew_kept_set_worker s w wk wk' :
  workers s !! w = Some wk → thread_ wk' = thread_ wk →
  crew_kept s (set_workers (insert w wk') s).
Proof.
  intros Hw E. split; [done|]. intros w0. simpl. destruct (decide (w = w0)) as [<-|Hne].
  - rewrite lookup_insert_eq, Hw. simpl. by rewrite E.
  - by rewrite lookup_insert_ne.
Qed.

Lemma BatchProcessTasks_loop_crew t this remaining : ∀ cnt s,
  crew_kept s (BatchProcessTasks_loop t this remaining cnt s).2.
Proof.
  induction remaining as [|k IH]; intros cnt s; simpl; [apply crew_kept_refl|].
  destruct (workers s !! this) as [wk|]; [|apply crew_kept_refl].
  destruct (InQueue_Pop (inq_ wk) s) as [[c s1]|] eqn:Hpop; [|apply crew_kept_refl].
  apply InQueue_Pop_Some in Hpop as (_ & _ & _ & tq & tq' & _ & _ & ->).
  eapply crew_kept_trans; [|apply IH].
  apply (crew_kept_trans _ (log (EvExec this c) (set_queues (insert (inq_ wk).1 tq') s)));
    [by split|].
  apply (frame_crew_kept (client_event t)), run_closure_frame.
Qed.

Lemma loop_body_crew t this s : crew_kept s (loop_body t this s).
Proof.
  unfold loop_body.
  assert (M : crew_kept s (MoveOn t this s)).
  { destruct (workers s !! this) as [wk|] eqn:Hw.
    - destruct (MoveOn_spec t this s wk Hw) as (tms & F).
      apply frame_crew_kept in F. eapply crew_kept_trans; [|exact F].
      apply (crew_kept_trans _ (set_workers (insert this (with_timers tms wk)) s));
        [by eapply crew_kept_set_worker | by split].
    - unfold MoveOn. rewrite Hw. apply crew_kept_refl. }
  pose proof (BatchProcessTasks_loop_crew t this (N.to_nat kMaxBatchProcessTasks) 0%N
                (MoveOn t this s)) as B.
  unfold BatchProcessTasks.
  destruct (BatchProcessTasks_loop t this (N.to_nat kMaxBatchProcessTasks) 0 (MoveOn t this s))
    as [n s2]. simpl in B.
  eapply crew_kept_trans; [exact M|]. eapply crew_kept_trans; [exact B|].
  destruct (workers s2 !! this) as [wk|]; [|apply crew_kept_refl].
  destruct (poller_ wk); simpl; [|done]. by case_decide.
Qed.

Lemma WorkerMainEntry_step_crew t this s : crew_kept s (WorkerMainEntry_step t this s).
Proof.
  unfold WorkerMainEntry_step. destruct (workers s !! this) as [wk|] eqn:Hw;
    [|apply crew_kept_refl].
  destruct (phase wk); [| | apply crew_kept_refl].
  - apply (crew_kept_trans _ (set_tls (insert t (with_self (Some this) (thread_local t s))) s));
      [by split|].
    apply (crew_kept_trans _ (set_workers (insert this (with_phase Running wk))
             (set_tls (insert t (with_self (Some this) (thread_local t s))) s)));
      [by eapply crew_kept_set_worker | by split].
  - destruct (stop_flag_ wk); [|apply loop_body_crew].
    apply (crew_kept_trans _ (set_workers (insert this (with_phase Exited wk)) s));
      [by eapply crew_kept_set_worker | by split].
Qed.

Lemma quantum_crew q s : crew_kept s (quantum q s).
Proof.
  destruct q as [n call | w | d]; simpl; [| apply WorkerMainEntry_step_crew | by split].
  apply (frame_crew_kept (client_event (ClientThread n))), rtc_cprim_frame, run_call_steps.
Qed.

Lemma quanta_crew qs : ∀ s, crew_kept s (quanta qs s).
Proof.
  induction qs as [|q qs IH]; intros s; simpl; [apply crew_kept_refl|].
  eapply crew_kept_trans; [apply quantum_crew | apply IH].
Qed.

(** What a quantum of a worker thread logs. *)
Lemma WorkerMainEntry_step_events t this s :
  ∃ evs, trace (WorkerMainEntry_step t this s) = trace s ++ evs ∧
         Forall (worker_event t this) evs.
Proof.
  unfold WorkerMainEntry_step. destruct (workers s !! this) as [wk|] eqn:Hw;
    [|exists []; split; [by rewrite app_nil_r | constructor]].
  destruct (phase wk).
  - eexists. split; [done|]. by repeat constructor.
  - destruct (stop_flag_ wk).
    + eexists. split; [done|]. by repeat constructor.
    + destruct (loop_body_pass t this s wk Hw) as (ev1 & ev2 & wk' & T & Q1 & Q2 & _).
      cbv zeta in T. eexists. split; [exact T|].
      repeat (apply Forall_app; split); try (by repeat constructor).
      * eapply Forall_impl; [exact Q1|]. intros e [He | (w & c & ->)]; [by destruct e | done].
      * eapply Forall_impl; [exact Q2|]. intros e [He | (c & ->)]; [by destruct e | done].
      * destruct (poller_ wk); [|constructor]. case_decide; by repeat constructor.
  - exists []. split; [by rewrite app_nil_r | constructor].
Qed.

(** The user code a quantum runs, runs on the thread of a worker. *)
Lemma quantum_events q s :
  ∃ evs, trace (quantum q s) = trace s ++ evs ∧ Forall on_worker_thread evs.
Proof.
  destruct q as [n call | w | d]; simpl.
  - destruct (do_call_shape (ClientThread n) call s) as [_ _ _ _ _ _ _ _ (reg & push & T & R & P)].
    exists (reg ++ push). split; [done|]. apply Forall_app. split.
    + destruct R as [-> | (q & p & ->)]; by repeat constructor.
    + destruct (do_call (ClientThread n) call s).1;
        [destruct P as (q & l & ->) | rewrite P]; by repeat constructor.
  - destruct (WorkerMainEntry_step_events (WorkerThread w) w s) as (evs & T & F).
    exists evs. split; [done|]. eapply Forall_impl; [exact F|].
    intros e He. destruct e; try done; simpl in *; eauto.
  - exists []. split; [by rewrite app_nil_r | constructor].
Qed.

Lemma quanta_events qs : ∀ s,
  ∃ evs, trace (quanta qs s) = trace s ++ evs ∧ Forall on_worker_thread evs.
Proof.
  induction qs as [|q qs IH]; intros s; simpl.
  { exists []. split; [by rewrite app_nil_r | constructor]. }
  destruct (quantum_events q s) as (ev1 & T1 & F1).
  destruct (IH (quantum q s)) as (ev2 & T2 & F2).
  exists (ev1 ++ ev2). split; [by rewrite T2, T1, <- app_assoc | by apply Forall_app].
Qed.

(** ** Destruction, with the quanta that fall into the joins *)

(** What the destruction of one worker keeps and changes. *)
Lemma Worker_dtor_spec late w s :
  groups (Worker_dtor late w s) = groups s ∧
  shape_kept s (Worker_dtor late w s) ∧
  (∀ w', is_Some (workers (Worker_dtor late w s) !! w')
         ↔ (w' ≠ w ∧ is_Some (workers s !! w'))) ∧
  ∃ evs, trace (Worker_dtor late w s) = trace s ++ evs ∧ Forall on_worker_thread evs.
Proof.
  unfold Worker_dtor. destruct (workers s !! w) as [wk|] eqn:Hw.
  - set (s0 := quanta late s).
    pose proof (quanta_crew late s) as K0. fold s0 in K0. pose proof K0 as [G0 _].
    destruct (quanta_shape late s) as [A0 Q0]. fold s0 in A0, Q0.
    destruct (quanta_events late s) as (ev0 & T0 & F0). fold s0 in T0.
    destruct (Worker_stop_effect w s0) as (G1 & Q1 & _ & A1 & _ & _ & W1 & _ & _ & T1).
    split_and!.
    + congruence.
    + split; [congruence|]. intros q. by rewrite Q1.
    + intros w'. rewrite W1. destruct (decide (w' = w)) as [->|Hne].
      * rewrite lookup_delete_eq. split; [by intros [? ?] | by intros [? _]].
      * rewrite lookup_delete_ne by done. rewrite (crew_kept_presence _ _ w' K0).
        split; [by intros ? | by intros [_ ?]].
    + eexists. split; [rewrite T1, T0; by rewrite <- app_assoc|].
      apply Forall_app. split; [done|].
      destruct (workers s0 !! w) as [wk0|]; [|constructor]. simpl.
      destruct (phase wk0); by repeat constructor.
  - split_and!; [done | apply shape_kept_refl | |].
    + intros w'. split; [|by intros [_ ?]]. intros Hs. split; [|done].
      intros ->. rewrite Hw in Hs. by destruct Hs.
    + exists []. split; [by rewrite app_nil_r | constructor].
Qed.

Lemma fold_Worker_dtor_spec late ws : ∀ s,
  let s1 := fold_left (λ s' w, Worker_dtor (late w) w s') ws s in
  groups s1 = groups s ∧
  shape_kept s s1 ∧
  (∀ w, is_Some (workers s1 !! w) ↔ ((w ∉ ws) ∧ is_Some (workers s !! w))) ∧
  ∃ evs, trace s1 = trace s ++ evs ∧ Forall on_worker_thread evs.
Proof.
  induction ws as [|w ws IH]; intros s; cbv zeta.
  { cbn [fold_left]. split_and!; [done | apply shape_kept_refl | |].
    - intros w. split; [|by intros [_ ?]]. intros ?. split; [|done]. by apply not_elem_of_nil.
    - exists []. split; [by rewrite app_nil_r | constructor]. }
  cbn [fold_left].
  destruct (Worker_dtor_spec (late w) w s) as (G1 & K1 & W1 & ev1 & T1 & F1).
  destruct (IH (Worker_dtor (late w) w s)) as (G2 & K2 & W2 & ev2 & T2 & F2).
  split_and!.
  - congruence.
  - by eapply shape_kept_trans.
  - intros w'. rewrite W2, W1, elem_of_cons. split.
    + intros (? & ? & ?). split; [|done]. by intros [?|?].
    + intros (Hni & ?). split_and!; [| |done]; intros ?; apply Hni; eauto.
  - exists (ev1 ++ ev2). split; [by rewrite T2, T1, <- app_assoc | by apply Forall_app].
Qed.

(** What the destruction of a group keeps and changes. *)
Lemma WorkerGroup_dtor_spec late s g grp :
  good s → groups s !! g = Some grp →
  let s1 := fold_left (λ s' w, Worker_dtor (late w) w s') (workers_ grp) s in
  WorkerGroup_dtor late g s = set_groups (delete g) (release (HolderGroup g) g s1) ∧
  good s1 ∧ groups s1 = groups s ∧ shape_kept s s1 ∧
  (∀ w, is_Some (workers s1 !! w) ↔ (w.1 ≠ g ∧ is_Some (workers s !! w))) ∧
  ∃ evs, trace s1 = trace s ++ evs ∧ Forall on_worker_thread evs.
Proof.
  intros G Hg. cbv zeta. pose proof G as [W _].
  destruct (workers_of_group s g grp W Hg) as (Hnd & Hin & Hall).
  destruct (wf_group s W g grp Hg) as (Hqg & _).
  destruct (fold_Worker_dtor_spec late (workers_ grp) s) as (G1 & K1 & W1 & T1).
  split_and!; try done.
  - unfold WorkerGroup_dtor. by rewrite Hg, Hqg.
  - by apply fold_Worker_dtor_good.
  - intros w. rewrite W1. split.
    + intros [Hni Hs]. split; [|done]. intros E. destruct Hs as [wk Hw].
      apply Hni. by eapply Hall.
    + intros [Hne Hs]. split; [|done]. intros Hi. by apply Hin in Hi.
Qed.

(** ** Ownership is kept by every operation *)

(** States that agree on the groups, on the thread-local storage, on the
    stop flags and thread phases of the workers and on the holders and
    producers of the queues are safe together. *)
Lemma safe_same s s' :
  groups s' = groups s → tls s' = tls s →
  (∀ w, worker_view <$> workers s' !! w = worker_view <$> workers s !! w) →
  (∀ q, owner_view <$> queues s' !! q = owner_view <$> queues s !! q) →
  safe s → safe s'.
Proof.
  intros G L W Q [S1 S3 S4 S5 S6 S7 S8].
  assert (C : ∀ t gid, client_ctx t gid s' = client_ctx t gid s).
  { intros. by apply client_ctx_tls. }
  assert (Qs : ∀ q tq, queues s !! q = Some tq →
            ∃ tq', queues s' !! q = Some tq' ∧ owner_view tq' = owner_view tq).
  { intros q tq Hq. specialize (Q q). rewrite Hq in Q.
    destruct (queues s' !! q) as [tq'|]; [|done]. exists tq'. split; [done|]. simpl in Q. congruence. }
  split.
  - intros w wk' Hw. destruct (fmap_Some_eq _ _ _ _ (W w) Hw) as (wk & Hw0 & E).
    unfold worker_view in E. injection E as E1 E2. rewrite <- E1, <- E2. by apply (S1 w).
  - intros w wk' Hw. destruct (fmap_Some_eq _ _ _ _ (W w) Hw) as (wk & Hw0 & _).
    rewrite G. by eapply S3.
  - intros g grp Hg. rewrite G in Hg. destruct (S4 g grp Hg) as (tq & Hq & Hin).
    destruct (Qs _ _ Hq) as (tq' & Hq' & E). unfold owner_view in E. injection E as E1 E2.
    exists tq'. by rewrite E1.
  - intros t w. unfold Worker_self, thread_local. rewrite L. apply S5.
  - intros t gid h. rewrite C. intros Hh. destruct (S6 t gid h Hh) as (Hqh & tq & Hq & Hin & Hp).
    split; [done|]. destruct (Qs _ _ Hq) as (tq' & Hq' & E).
    unfold owner_view in E. injection E as E1 E2.
    exists tq'. by rewrite E1, E2.
  - intros t gid. rewrite C. apply S7.
  - intros q tq' Hq'. destruct (fmap_Some_eq _ _ _ _ (Q q) Hq') as (tq & Hq & E).
    unfold owner_view in E. injection E as E1 E2. rewrite <- E1.
    destruct (S8 q tq Hq) as [Hne Hall].
    split; [done|]. intros h Hh. specialize (Hall h Hh).
    destruct h as [g|t gid]; [by rewrite G | by rewrite C].
Qed.

Lemma safe_log e s : safe s → safe (log e s).
Proof. by apply safe_same. Qed.

Lemma safe_fault s : safe s → safe (fault s).
Proof. by apply safe_same. Qed.

Lemma safe_tick d s : safe s → safe (advance_clock d s).
Proof. by apply safe_same. Qed.

Lemma safe_set_worker s w wk wk' :
  workers s !! w = Some wk → worker_view wk' = worker_view wk →
  safe s → safe (set_workers (insert w wk') s).
Proof.
  intros Hw E. apply safe_same; try done. intros w0. simpl.
  destruct (decide (w = w0)) as [<-|Hne].
  - rewrite lookup_insert_eq, Hw. simpl. by rewrite E.
  - by rewrite lookup_insert_ne.
Qed.

Lemma safe_set_queue s q tq tq' :
  queues s !! q = Some tq → owner_view tq' = owner_view tq →
  safe s → safe (set_queues (insert q tq') s).
Proof.
  intros Hq E. apply safe_same; try done. intros q0. simpl.
  destruct (decide (q = q0)) as [<-|Hne].
  - rewrite lookup_insert_eq, Hq. simpl. by rewrite E.
  - by rewrite lookup_insert_ne.
Qed.

Lemma GetOutQueue_safe t g s : cache_ok s → safe s → safe (GetOutQueue t g s).2.
Proof.
  intros C S.
  destruct (GetOutQueue_cases t g s) as [[r ->] | (grp & tq & Hg & Hq & Hctx)]; [done|].
  rewrite (GetOutQueue_miss_eq t g s grp tq Hg Hq Hctx). cbn [snd].
  set (gid := group_id_ grp). set (q := queue_ grp) in *.
  set (h := {| oq_queue := q; oq_producer := producers tq |}).
  set (c := {| queue_holder := Some q; out_queue := Some h |}).
  set (tq2 := with_holders ({[ HolderThread t gid ]} ∪ holders tq) (RegisterProducer tq).2).
  apply safe_log.
  set (s0 := set_queues (insert q tq2) s).
  assert (Hlen : length (tls_client_ctx_cache_ (thread_local t s0))
                 = N.to_nat kClientCtxCacheSize) by apply (co_len _ C).
  assert (Hnew : client_ctx t gid (set_client_ctx t gid c s0) = c) by (by apply client_ctx_set).
  assert (Hold : ∀ t' gid', (t', gid') ≠ (t, gid) →
            client_ctx t' gid' (set_client_ctx t gid c s0) = client_ctx t' gid' s).
  { intros t' gid' Hne. by rewrite client_ctx_set_other. }
  assert (Hout : out_queue (client_ctx t gid s) = None).
  { unfold ctx_bool in Hctx. fold gid in Hctx. by destruct (out_queue (client_ctx t gid s)). }
  destruct S as [S1 S3 S4 S5 S6 S7 S8].
  pose proof (S7 t gid Hout) as Hhold.
  assert (Hqs : ∀ q0, queues (set_client_ctx t gid c s0) !! q0
                      = if decide (q0 = q) then Some tq2 else queues s !! q0).
  { intros q0. simpl. case_decide as Hd; [subst q0; by rewrite lookup_insert_eq|].
    by rewrite lookup_insert_ne. }
  split.
  - exact S1.
  - exact S3.
  - intros g0 grp0 Hg0. destruct (S4 g0 grp0 Hg0) as (tq0 & Hq0 & Hin).
    rewrite Hqs. case_decide as Hd.
    + exists tq2. split; [done|]. rewrite Hd in Hq0. fold q in Hq. rewrite Hq in Hq0.
      injection Hq0 as <-. simpl. apply elem_of_union. by right.
    + eauto.
  - intros t' w. unfold Worker_self, thread_local, set_client_ctx. simpl.
    destruct (decide (t = t')) as [<-|Hne].
    + rewrite lookup_insert_eq. intros Hs. apply S5. unfold Worker_self.
      revert Hs. by case_decide.
    + rewrite lookup_insert_ne by done. apply S5.
  - intros t' gid' h'. destruct (decide ((t', gid') = (t, gid))) as [[= -> ->]|Hne].
    + rewrite Hnew. simpl. intros [= <-]. split; [done|]. exists tq2. rewrite Hqs.
      rewrite decide_True by done. split_and!; [done | | simpl; lia].
      simpl. apply elem_of_union. left. by apply elem_of_singleton.
    + rewrite (Hold _ _ Hne). intros Hh'.
      destruct (S6 t' gid' h' Hh') as (Hqh & tq0 & Hq0 & Hin & Hp). split; [done|].
      rewrite Hqs. case_decide as Hd.
      * exists tq2. rewrite Hd in Hq0. fold q in Hq. rewrite Hq in Hq0. injection Hq0 as <-.
        split_and!; [done | | simpl; lia]. simpl. apply elem_of_union. by right.
      * eauto.
  - intros t' gid'. destruct (decide ((t', gid') = (t, gid))) as [[= -> ->]|Hne].
    + by rewrite Hnew.
    + rewrite (Hold _ _ Hne). apply S7.
  - intros q0 tq0. rewrite Hqs. case_decide as Hd.
    + intros [= <-]. subst q0. split.
      * simpl. intros E.
        assert (HolderThread t gid ∈ ({[HolderThread t gid]} ∪ holders tq : gset Holder)) as Hin
          by (apply elem_of_union; left; by apply elem_of_singleton).
        rewrite E in Hin. by apply not_elem_of_empty in Hin.
      * intros h0. simpl. rewrite elem_of_union, elem_of_singleton.
        destruct (S8 q tq Hq) as [_ Hall].
        intros [-> | Hin]; [by rewrite Hnew|].
        specialize (Hall h0 Hin). destruct h0 as [g0|t' gid']; [done|].
        destruct (decide ((t', gid') = (t, gid))) as [[= -> ->]|Hne];
          [by rewrite Hnew | by rewrite (Hold _ _ Hne)].
    + intros Hq0. destruct (S8 q0 tq0 Hq0) as [Hne Hall]. split; [done|].
      intros h0 Hin. specialize (Hall h0 Hin). destruct h0 as [g0|t' gid']; [done|].
      destruct (decide ((t', gid') = (t, gid))) as [[= -> ->]|Hne'].
      * rewrite Hhold in Hall. done.
      * by rewrite (Hold _ _ Hne').
Qed.

Lemma push_safe (push : option OutQueue → Closure → State → bool * State) :
  (∀ o c s0, push o c s0 = (false, s0) ∨
     ∃ h tq tq' l, o = Some h ∧ queues s0 !! oq_queue h = Some tq ∧
       producers tq' = producers tq ∧ holders tq' = holders tq ∧
       push o c s0 = (true, log (EvPush (oq_queue h) l c)
                              (set_queues (insert (oq_queue h) tq') s0))) →
  ∀ o c s0, safe s0 → safe (push o c s0).2.
Proof.
  intros Hpush o c s0 S.
  destruct (Hpush o c s0) as [-> | (h & tq & tq' & l & -> & Hq & Hp & Hh & ->)]; [done|].
  cbn [snd]. apply safe_log. apply (safe_set_queue s0 _ tq); [done | | done].
  unfold owner_view. by rewrite Hp, Hh.
Qed.

Lemma do_call_safe t call s : cache_ok s → safe s → safe (do_call t call s).2.
Proof.
  intros C S.
  assert (A1 : ∀ g c, safe (OutQueue_Push (GetOutQueue t g s).1 c (GetOutQueue t g s).2).2).
  { intros g c. apply (push_safe OutQueue_Push); [intros; apply OutQueue_Push_handle|].
    by apply GetOutQueue_safe. }
  assert (A2 : ∀ g i c,
             safe (OutQueue_Push_to (GetOutQueue t g s).1 i c (GetOutQueue t g s).2).2).
  { intros g i c. apply (push_safe (λ o c' s0, OutQueue_Push_to o i c' s0));
      [intros; apply OutQueue_Push_to_handle|]. by apply GetOutQueue_safe. }
  destruct (call_group call) as [g|] eqn:Hcg.
  - rewrite (do_call_group t call g s Hcg). destruct (call_target call); [apply A2 | apply A1].
  - destruct call; try done. simpl. unfold Worker_PostTask.
    destruct (workers s !! w) as [wk|]; [|done]. unfold PostTask_to.
    specialize (A2 (group_ wk) (id_ wk) func).
    by destruct (GetOutQueue t (group_ wk) s) as [outq s1].
Qed.

Lemma run_call_secure t call s : secure s → secure (run_call t call s).
Proof.
  intros [So Sa]. split; [by apply run_call_sound|]. apply do_call_safe; [apply So | done].
Qed.

Lemma fold_run_call_secure t calls : ∀ s,
  secure s → secure (fold_left (λ s' call, run_call t call s') calls s).
Proof.
  induction calls as [|call calls IH]; intros s S; simpl; [done|].
  by apply IH, run_call_secure.
Qed.

Lemma AddTimer_safe w d func s : safe s → safe (AddTimer w d func s).
Proof.
  intros S. unfold AddTimer. destruct (workers s !! w) as [wk|] eqn:Hw; [|done].
  apply safe_log. by apply (safe_set_worker s w wk).
Qed.

Lemma AddPeriodTimer_safe w p func s : safe s → safe (AddPeriodTimer w p func s).
Proof.
  intros S. unfold AddPeriodTimer. destruct (workers s !! w) as [wk|] eqn:Hw; [|done].
  apply safe_log. by apply (safe_set_worker s w wk).
Qed.

Lemma run_closure_safe t c s : sound s → safe s → safe (run_closure t c s).
Proof.
  intros [G C] S. destruct c as [tag calls | func d | func p]; simpl.
  - apply (fold_run_call_secure t calls (log (EvUser t tag) s)). split; [split|].
    + destruct G as [W Hnd]. split; [by apply wf_log_inert | done].
    + by apply cache_ok_log.
    + by apply safe_log.
  - destruct (Worker_self t s); [by apply AddTimer_safe | by apply safe_fault].
  - destruct (Worker_self t s); [by apply AddPeriodTimer_safe | by apply safe_fault].
Qed.

Lemma fire_safe t this (fired : list Timer) : ∀ s,
  sound s → running t this s → safe s →
  safe (fold_left (λ s' tm, run_closure t (callback tm) (log (EvFire this (callback tm)) s'))
          fired s).
Proof.
  induction fired as [|tm fired IH]; intros s [G C] R S; [done|].
  cbn [fold_left].
  assert (G1 : good (log (EvFire this (callback tm)) s)).
  { destruct G as [W Hnd], R as [_ (wk & Hw & Hph)]. split; [by eapply wf_fire | done]. }
  assert (R1 : running t this (log (EvFire this (callback tm)) s)) by done.
  assert (C1 : cache_ok (log (EvFire this (callback tm)) s)) by (by apply cache_ok_log).
  destruct (run_closure_good t this (callback tm) _ G1 R1) as [G2 R2].
  apply IH; [split; [done | by apply run_closure_cache] | done |].
  apply run_closure_safe; [by split | by apply safe_log].
Qed.

Lemma MoveOn_safe t this s :
  sound s → running t this s → safe s → safe (MoveOn t this s).
Proof.
  intros [[W Hnd] C] R S. destruct R as [Hself (wk & Hw & Hph)]. unfold MoveOn. rewrite Hw.
  apply fire_safe.
  - split; [split; [|done]|].
    + apply wf_log_inert; [done|]. by apply (wf_set_worker s this wk).
    + apply cache_ok_log; [done|]. by apply (cache_ok_same s).
  - split; [done|]. simpl. rewrite lookup_insert_eq. eauto.
  - apply safe_log. by apply (safe_set_worker s this wk).
Qed.

Lemma InQueue_Pop_safe inq s c s1 : InQueue_Pop inq s = Some (c, s1) → safe s → safe s1.
Proof.
  intros Hpop S. apply InQueue_Pop_Some in Hpop as (_ & _ & _ & tq & tq' & Hq & Hp & ->).
  apply (safe_set_queue s _ tq); [done | | done].
  apply Pop_meta in Hp as [E1 E2]. unfold owner_view. by rewrite E1, E2.
Qed.

Lemma BatchProcessTasks_loop_safe t this remaining : ∀ cnt s,
  sound s → running t this s → safe s →
  safe (BatchProcessTasks_loop t this remaining cnt s).2.
Proof.
  induction remaining as [|k IH]; intros cnt s [G C] R S; simpl; [done|].
  destruct R as [Hself (wk & Hw & Hph)]. rewrite Hw.
  destruct (InQueue_Pop (inq_ wk) s) as [[c s1]|] eqn:Hpop; [|done].
  assert (S1 : safe (log (EvExec this c) s1)).
  { apply safe_log. by eapply InQueue_Pop_safe. }
  assert (G1 : good (log (EvExec this c) s1)).
  { destruct G as [W Hnd]. split; [by eapply wf_pop|].
    apply InQueue_Pop_Some in Hpop as (_ & _ & _ & tq & tq' & _ & _ & ->). done. }
  assert (R1 : running t this (log (EvExec this c) s1)).
  { apply InQueue_Pop_Some in Hpop as (_ & _ & Hws & tq & tq' & _ & _ & ->).
    split; [done|]. exists wk. done. }
  assert (C1 : cache_ok (log (EvExec this c) s1)).
  { apply InQueue_Pop_Some in Hpop as (_ & _ & _ & tq & tq' & _ & _ & ->).
    apply cache_ok_log; [done|]. by apply (cache_ok_same s). }
  destruct (run_closure_good t this c _ G1 R1) as [G2 R2].
  apply IH; [split; [done | by apply run_closure_cache] | done |].
  by apply run_closure_safe.
Qed.

Lemma Poll_safe p timeout s : safe s → safe (Poll p timeout s).
Proof.
  intros S. destruct p; simpl; [|done]. case_decide; [|done]. by apply safe_log.
Qed.

Lemma loop_body_safe t this s :
  sound s → running t this s → safe s → safe (loop_body t this s).
Proof.
  intros [G C] R S. unfold loop_body.
  destruct (MoveOn_good t this s G R) as [G1 R1].
  pose proof (MoveOn_cache t this s G R C) as C1.
  pose proof (MoveOn_safe t this s (conj G C) R S) as S1.
  pose proof (BatchProcessTasks_loop_safe t this (N.to_nat kMaxBatchProcessTasks) 0%N _
                (conj G1 C1) R1 S1) as S2.
  unfold BatchProcessTasks.
  destruct (BatchProcessTasks_loop t this (N.to_nat kMaxBatchProcessTasks) 0 (MoveOn t this s))
    as [n s2]. simpl in S2.
  destruct (workers s2 !! this) as [wk|]; [|done].
  by apply Poll_safe, safe_log.
Qed.

Lemma client_ctx_with_self t w s t' gid :
  client_ctx t' gid (set_tls (insert t (with_self w (thread_local t s))) s)
  = client_ctx t' gid s.
Proof.
  unfold client_ctx, thread_local. simpl.
  destruct (decide (t = t')) as [<-|Hne].
  - by rewrite lookup_insert_eq.
  - by rewrite lookup_insert_ne.
Qed.

(** The thread of a worker enters [WorkerMainEntry]. *)
Lemma safe_entry s w wk :
  workers s !! w = Some wk → phase wk = Created → safe s →
  safe (log (EvEntry w)
          (set_workers (insert w (with_phase Running wk))
             (set_tls (insert (WorkerThread w)
                         (with_self (Some w) (thread_local (WorkerThread w) s))) s))).
Proof.
  intros Hw Hph [S1 S3 S4 S5 S6 S7 S8]. apply safe_log.
  set (s0 := set_tls _ s).
  assert (C : ∀ t gid, client_ctx t gid (set_workers (insert w (with_phase Running wk)) s0)
                       = client_ctx t gid s).
  { intros t gid. apply client_ctx_with_self. }
  split.
  - intros w0 wk0. simpl. destruct (decide (w = w0)) as [<-|Hne].
    + rewrite lookup_insert_eq. intros [= <-]. simpl. split; [|done]. by apply (S1 w wk).
    + rewrite lookup_insert_ne by done. apply S1.
  - intros w0 wk0. simpl. destruct (decide (w = w0)) as [<-|Hne].
    + intros _. by eapply S3.
    + rewrite lookup_insert_ne by done. apply S3.
  - exact S4.
  - intros t w0. unfold Worker_self, thread_local. simpl.
    destruct (decide (WorkerThread w = t)) as [<-|Hne].
    + rewrite lookup_insert_eq. simpl. by intros [= <-].
    + rewrite lookup_insert_ne by done. apply S5.
  - intros t gid h. rewrite C. apply S6.
  - intros t gid. rewrite C. apply S7.
  - intros q tq Hq. destruct (S8 q tq Hq) as [Hne Hall]. split; [done|].
    intros h Hin. specialize (Hall h Hin). destruct h as [g|t gid]; [done|]. by rewrite C.
Qed.

Lemma WorkerMainEntry_step_safe this s :
  sound s → safe s → safe (WorkerMainEntry_step (WorkerThread this) this s).
Proof.
  intros [[W Hnd] C] S. unfold WorkerMainEntry_step.
  destruct (workers s !! this) as [wk|] eqn:Hw; [|done].
  destruct (phase wk) eqn:Hph; [| |done].
  - by apply safe_entry.
  - destruct (sf_flag _ S this wk Hw) as [-> _].
    apply loop_body_safe; [done | | done]. split.
    + apply (wf_self s W this wk Hw). by rewrite Hph.
    + exists wk. split; [done | by rewrite Hph].
Qed.

(** The tail of a destructor: a worker is freed. *)
Lemma safe_free s w : safe s → safe (set_workers (delete w) s).
Proof.
  intros [S1 S3 S4 S5 S6 S7 S8]. split; try done.
  - intros w0 wk. simpl. intros Hw. apply lookup_delete_Some in Hw as [_ Hw]. by eapply S1.
  - intros w0 wk. simpl. intros Hw. apply lookup_delete_Some in Hw as [_ Hw]. by eapply S3.
Qed.

Lemma safe_set_self s w :
  safe s →
  safe (set_tls (insert (WorkerThread w)
                   (with_self (Some w) (thread_local (WorkerThread w) s))) s).
Proof.
  intros [S1 S3 S4 S5 S6 S7 S8].
  assert (C : ∀ t gid, client_ctx t gid
                (set_tls (insert (WorkerThread w)
                            (with_self (Some w) (thread_local (WorkerThread w) s))) s)
              = client_ctx t gid s).
  { intros t gid. apply client_ctx_with_self. }
  split; try done.
  - intros t w0. unfold Worker_self, thread_local. simpl.
    destruct (decide (WorkerThread w = t)) as [<-|Hne].
    + rewrite lookup_insert_eq. simpl. by intros [= <-].
    + rewrite lookup_insert_ne by done. apply S5.
  - intros t gid h. rewrite C. apply S6.
  - intros t gid. rewrite C. apply S7.
  - intros q tq Hq. destruct (S8 q tq Hq) as [Hne Hall]. split; [done|].
    intros h Hin. specialize (Hall h Hin). destruct h as [g|t gid]; [done|]. by rewrite C.
Qed.

Lemma Worker_stop_safe this s : wf s → safe s → safe (Worker_stop this s).
Proof.
  intros W S. destruct (workers s !! this) as [wk|] eqn:Hw.
  - rewrite (Worker_stop_eq this s wk Hw).
    destruct (wf_worker s W this wk Hw) as (_ & _ & _ & -> & _).
    destruct (phase wk).
    + by apply safe_log, safe_log, safe_free, safe_set_self.
    + by apply safe_log, safe_free.
    + by apply safe_free.
  - by rewrite (Worker_stop_absent this s Hw).
Qed.

Lemma quantum_secure q s : secure s → secure (quantum q s).
Proof.
  intros S. split; [apply quantum_sound, S|]. destruct S as [So Sa]. destruct q; simpl.
  - apply do_call_safe; [apply So | done].
  - by apply WorkerMainEntry_step_safe.
  - by apply safe_tick.
Qed.

Lemma quanta_secure qs : ∀ s, secure s → secure (quanta qs s).
Proof.
  induction qs as [|q qs IH]; intros s S; simpl; [done|].
  by apply IH, quantum_secure.
Qed.

Lemma Worker_dtor_secure late this s : secure s → secure (Worker_dtor late this s).
Proof.
  intros S. split; [apply Worker_dtor_sound, S|].
  unfold Worker_dtor. destruct (workers s !! this) as [wk|] eqn:Hw; [|apply S].
  destruct (quanta_secure late s S) as [[[W1 _] _] S1].
  by apply Worker_stop_safe.
Qed.

Lemma fold_Worker_dtor_secure late ws : ∀ s,
  secure s → secure (fold_left (λ s' w, Worker_dtor (late w) w s') ws s).
Proof.
  induction ws as [|w ws IH]; intros s S; simpl; [done|].
  apply IH. by apply Worker_dtor_secure.
Qed.

(** The tail of [~WorkerGroup]: with its workers gone, the group drops its
    reference to the queue and is freed. *)
Lemma close_group_safe g grp s :
  wf s → safe s → groups s !! g = Some grp →
  (∀ w, w.1 = g → workers s !! w = None) →
  safe (set_groups (delete g) (release (HolderGroup g) (queue_ grp) s)).
Proof.
  intros W S Hg Hgone.
  destruct (wf_group s W g grp Hg) as (Hqg & _). rewrite Hqg.
  set (s' := set_groups (delete g) (release (HolderGroup g) g s)).
  assert (G : groups s' = delete g (groups s)).
  { subst s'. unfold release. destruct (queues s !! g); [|done]. by case_decide. }
  assert (Ws : workers s' = workers s).
  { subst s'. unfold release. destruct (queues s !! g); [|done]. by case_decide. }
  assert (L : tls s' = tls s).
  { subst s'. unfold release. destruct (queues s !! g); [|done]. by case_decide. }
  assert (Q : queues s'
              = match queues s !! g with
                | Some tq =>
                    if decide (holders tq ∖ {[ HolderGroup g ]} = ∅) then delete g (queues s)
                    else <[g := with_holders (holders tq ∖ {[ HolderGroup g ]}) tq]> (queues s)
                | None => queues s
                end).
  { subst s'. unfold release. destruct (queues s !! g); [|done]. by case_decide. }
  assert (X : ∀ t gid, client_ctx t gid s' = client_ctx t gid s).
  { intros. by apply client_ctx_tls. }
  clearbody s'.
  destruct S as [S1 S3 S4 S5 S6 S7 S8].
  assert (Qo : ∀ q, q ≠ g → queues s' !! q = queues s !! q).
  { intros q Hne. rewrite Q. destruct (queues s !! g) as [tq|]; [|done].
    case_decide; [by rewrite lookup_delete_ne | by rewrite lookup_insert_ne]. }
  assert (Qg : ∀ tq', queues s' !! g = Some tq' →
            ∃ tq, queues s !! g = Some tq ∧ holders tq ∖ {[ HolderGroup g ]} ≠ ∅ ∧
              tq' = with_holders (holders tq ∖ {[ HolderGroup g ]}) tq).
  { intros tq'. rewrite Q. destruct (queues s !! g) as [tq|] eqn:Hq.
    - case_decide; [by rewrite lookup_delete_eq|]. rewrite lookup_insert_eq. intros [= <-].
      eauto.
    - by rewrite Hq. }
  assert (Qk : ∀ tq h, queues s !! g = Some tq → h ∈ holders tq → h ≠ HolderGroup g →
            queues s' !! g = Some (with_holders (holders tq ∖ {[ HolderGroup g ]}) tq)).
  { intros tq h Hq Hin Hne. rewrite Q, Hq. case_decide as Hd; [|by rewrite lookup_insert_eq].
    exfalso. assert (h ∈ holders tq ∖ {[ HolderGroup g ]}) as Hin'.
    { apply elem_of_difference. split; [done|]. by rewrite elem_of_singleton. }
    rewrite Hd in Hin'. by apply not_elem_of_empty in Hin'. }
  split.
  - intros w wk. rewrite Ws. apply S1.
  - intros w wk. rewrite Ws, G. intros Hw.
    rewrite lookup_delete_ne; [by eapply S3|].
    intros E. symmetry in E. apply Hgone in E. congruence.
  - intros g0 grp0. rewrite G. intros Hg0. apply lookup_delete_Some in Hg0 as [Hne Hg0].
    destruct (S4 g0 grp0 Hg0) as (tq & Hq & Hin).
    destruct (wf_group s W g0 grp0 Hg0) as (Hq0 & _).
    exists tq. rewrite Qo; [done | congruence].
  - intros t w0. unfold Worker_self, thread_local. rewrite L. apply S5.
  - intros t gid h. rewrite X. intros Hh. destruct (S6 t gid h Hh) as (Hqh & tq & Hq & Hin & Hp).
    split; [done|]. destruct (decide (oq_queue h = g)) as [E|Hne].
    + rewrite E in *. rewrite (Qk tq _ Hq Hin) by done. eexists. split; [done|]. simpl.
      split; [|done]. apply elem_of_difference. split; [done|]. by rewrite elem_of_singleton.
    + rewrite (Qo _ Hne). eauto.
  - intros t gid. rewrite X. apply S7.
  - intros q tq'. destruct (decide (q = g)) as [->|Hne].
    + intros Hq'. destruct (Qg tq' Hq') as (tq & Hq & Hnem & ->). simpl. split; [done|].
      intros h Hin. apply elem_of_difference in Hin as [Hin Hng].
      rewrite elem_of_singleton in Hng.
      destruct (S8 g tq Hq) as [_ Hall]. specialize (Hall h Hin).
      destruct h as [g0|t gid]; [|by rewrite X].
      destruct Hall as [-> _]. done.
    + rewrite (Qo _ Hne). intros Hq. destruct (S8 q tq' Hq) as [Hnem Hall]. split; [done|].
      intros h Hin. specialize (Hall h Hin). destruct h as [g0|t gid]; [|by rewrite X].
      destruct Hall as [-> Hsome]. split; [done|]. rewrite G. by rewrite lookup_delete_ne.
Qed.

Lemma WorkerGroup_dtor_secure late g s : secure s → secure (WorkerGroup_dtor late g s).
Proof.
  intros S. split; [apply WorkerGroup_dtor_sound, S|].
  destruct (groups s !! g) as [grp|] eqn:Hg;
    [|unfold WorkerGroup_dtor; rewrite Hg; apply S].
  destruct (WorkerGroup_dtor_spec late s g grp) as (E & [W1 _] & G1 & _ & Ws & _);
    [apply S | done |].
  destruct (fold_Worker_dtor_secure late (workers_ grp) s S) as [_ S1].
  rewrite E. pose proof S as [[[W _] _] _].
  destruct (wf_group s W g grp Hg) as (Hqg & _).
  assert (Hgone : ∀ w, w.1 = g →
            workers (fold_left (λ s' w, Worker_dtor (late w) w s') (workers_ grp) s) !! w
            = None).
  { intros w Hw. destruct (workers _ !! w) as [wk|] eqn:Hwk; [|done].
    exfalso. by destruct (proj1 (Ws w) (mk_is_Some _ _ Hwk)). }
  pose proof (close_group_safe g grp _ W1 S1 (eq_trans (f_equal (.!! g) G1) Hg) Hgone) as H.
  by rewrite Hqg in H.
Qed.

Lemma WorkerGroup_ctor_safe n c supplier s :
  wf s → safe s → safe (WorkerGroup_ctor n c supplier s).
Proof.
  intros W [S1 S3 S4 S5 S6 S7 S8]. unfold WorkerGroup_ctor.
  set (g := next_addr s).
  destruct (construct_workers_spec g supplier (N.to_nat n) 0 (WorkerGroup_init c s)
              {| group_id_ := s_next_group_id_ s; workers_ := []; queue_ := g |}
              (TaskQueue_new c (HolderGroup g)))
    as (G & Q & Ws & _ & L & _).
  { simpl. by rewrite lookup_insert_eq. }
  { done. }
  { simpl. by rewrite lookup_insert_eq. }
  set (s' := construct_workers g supplier (N.to_nat n) 0 (WorkerGroup_init c s)) in *.
  cbn [groups queues workers WorkerGroup_init group_id_ workers_ lanes TaskQueue_new] in G, Q, Ws.
  fold g in G, Q. rewrite insert_insert_eq in G. rewrite insert_insert_eq in Q.
  cbn [app length] in G, Q, Ws.
  assert (Hfq : queues s !! g = None).
  { destruct (queues s !! g) as [tq|] eqn:Hq; [|done].
    pose proof (wf_queue s W g tq Hq). subst g. lia. }
  assert (C : ∀ t gid, client_ctx t gid s' = client_ctx t gid s).
  { intros. by apply client_ctx_tls. }
  assert (Gs : ∀ g0, is_Some (groups s !! g0) → is_Some (groups s' !! g0)).
  { intros g0 H. rewrite G. destruct (decide (g = g0)) as [<-|Hne];
      [rewrite lookup_insert_eq; eauto | by rewrite lookup_insert_ne]. }
  assert (Wk : ∀ w, is_Some (workers s !! w) → is_Some (workers s' !! w)).
  { intros w H. rewrite Ws. case_decide; [eauto | done]. }
  assert (Qs : ∀ q tq, queues s !! q = Some tq → queues s' !! q = Some tq).
  { intros q tq Hq. rewrite Q. rewrite lookup_insert_ne; [done|]. intros <-. congruence. }
  split.
  - intros w wk. rewrite Ws. case_decide; [by intros [= <-] | apply S1].
  - intros w wk. rewrite Ws. case_decide as Hd.
    + intros _. destruct Hd as [-> _]. rewrite G, lookup_insert_eq. eauto.
    + intros Hw. apply Gs. by eapply S3.
  - intros g0 grp0. rewrite G. destruct (decide (g = g0)) as [<-|Hne].
    + rewrite lookup_insert_eq. intros [= <-]. cbn [queue_]. rewrite Q, lookup_insert_eq.
      eexists. split; [done|]. simpl. by apply elem_of_singleton.
    + rewrite lookup_insert_ne by done. intros Hg0.
      destruct (S4 g0 grp0 Hg0) as (tq & Hq & Hin). exists tq. split; [by apply Qs | done].
  - intros t w. unfold Worker_self, thread_local. rewrite L. apply S5.
  - intros t gid h. rewrite C. intros Hh. destruct (S6 t gid h Hh) as (Hqh & tq & Hq & Hin & Hp).
    split; [done|]. exists tq. split; [by apply Qs | done].
  - intros t gid. rewrite C. apply S7.
  - intros q tq. rewrite Q. destruct (decide (g = q)) as [<-|Hne].
    + rewrite lookup_insert_eq. intros [= <-]. simpl. split.
      * intros E. assert (HolderGroup g ∈ ({[ HolderGroup g ]} : gset Holder)) as Hin
          by (by apply elem_of_singleton).
        rewrite E in Hin. by apply not_elem_of_empty in Hin.
      * intros h Hin. apply elem_of_singleton in Hin as ->. split; [done|].
        rewrite G, lookup_insert_eq. eauto.
    + rewrite lookup_insert_ne by done. intros Hq. destruct (S8 q tq Hq) as [Hnem Hall].
      split; [done|]. intros h Hin. specialize (Hall h Hin).
      destruct h as [g0|t gid]; [|by rewrite C]. destruct Hall as [-> Hs]. split; [done|].
      by apply Gs.
Qed.

Lemma step_secure a s : secure s → secure (step a s).
Proof.
  intros S. destruct a; simpl.
  - split; [apply (step_sound (AConstruct _ _ _)), S|].
    apply WorkerGroup_ctor_safe; apply S.
  - by apply WorkerGroup_dtor_secure.
  - by apply (quantum_secure (QCall _ _)).
  - by apply (quantum_secure (QWorkerThread _)).
  - by apply (quantum_secure (QTick _)).
Qed.

Lemma init_secure : secure init.
Proof.
  split; [apply init_sound|]. split; try done.
  - intros t gid h. unfold client_ctx, thread_local. simpl. rewrite lookup_empty. simpl.
    case_decide; [|by rewrite lookup_empty].
    destruct (replicate (N.to_nat kClientCtxCacheSize) empty_ctx !! N.to_nat gid) as [c|] eqn:E;
      [|done].
    apply lookup_replicate in E as [-> _]. done.
  - intros t gid _. unfold client_ctx, thread_local. simpl. rewrite lookup_empty. simpl.
    case_decide; [|by rewrite lookup_empty].
    destruct (replicate (N.to_nat kClientCtxCacheSize) empty_ctx !! N.to_nat gid) as [c|] eqn:E;
      [|done].
    apply lookup_replicate in E as [-> _]. done.
Qed.

Lemma run_secure acts : ∀ s, secure s → secure (run acts s).
Proof.
  induction acts as [|a acts IH]; intros s S; [done|]. simpl. by apply IH, step_secure.
Qed.

Lemma reachable_secure s : reachable s → secure s.
Proof. intros [acts ->]. apply run_secure, init_secure. Qed.

Lemma registrations_elem t gid tr h :
  h ∈ registrations t gid tr →
  size_t_wrap (oq_queue h) = gid ∧ EvRegister t (oq_queue h) (oq_producer h) ∈ tr.
Proof.
  unfold registrations. rewrite list_elem_of_omap. intros (e & Hin & He).
  destruct e; try done. case_decide as Hd; [|done]. destruct Hd as [-> <-].
  injection He as <-. done.
Qed.

(** A queue is held by a cache entry exactly when the entry is populated
    with a handle into it. *)
Lemma held_by_entry s t gid q :
  safe s → queue_holder (client_ctx t gid s) = Some q →
  ∃ tq, queues s !! q = Some tq ∧ HolderThread t gid ∈ holders tq.
Proof.
  intros S Hq. destruct (out_queue (client_ctx t gid s)) as [h|] eqn:Hh.
  - destruct (sf_entry _ S t gid h Hh) as (Hqh & tq & Hqs & Hin & _).
    rewrite Hq in Hqh. injection Hqh as ->. eauto.
  - rewrite (sf_empty _ S t gid Hh) in Hq. done.
Qed.


(** ** What one scheduling quantum logs and keeps *)

Lemma release_queues h q s q0 tq' :
  queues (release h q s) !! q0 = Some tq' →
  ∃ tq, queues s !! q0 = Some tq ∧ queue_shape tq' = queue_shape tq.
Proof.
  unfold release. destruct (queues s !! q) as [tq|] eqn:Hq; [|eauto].
  case_decide; simpl.
  - intros Hq'. apply lookup_delete_Some in Hq' as [_ Hq']. eauto.
  - destruct (decide (q = q0)) as [<-|Hne].
    + rewrite lookup_insert_eq. intros [= <-]. eauto.
    + rewrite lookup_insert_ne by done. eauto.
Qed.

Lemma release_frame h q s :
  groups (release h q s) = groups s ∧ workers (release h q s) = workers s ∧
  next_addr (release h q s) = next_addr s ∧ trace (release h q s) = trace s ∧
  tls (release h q s) = tls s.
Proof. unfold release. destruct (queues s !! q); [|done]. by case_decide. Qed.



(** Where the queues of the next state come from: a queue that is
    allocated after a quantum was allocated before it, with the same
    capacity and number of lanes, or it is the queue of the group the
    quantum constructed, at the next free address. *)
Lemma step_queues a s q tq' :
  good s → queues (step a s) !! q = Some tq' →
  (∃ tq, queues s !! q = Some tq ∧ queue_shape tq' = queue_shape tq) ∨ q = next_addr s.
Proof.
  intros G. pose proof G as [W _]. revert tq'.
  assert (K : ∀ s' tq', shape_kept s s' → queues s' !! q = Some tq' →
            (∃ tq, queues s !! q = Some tq ∧ queue_shape tq' = queue_shape tq) ∨ q = next_addr s).
  { intros s' tq' [_ Q] Hq. left. specialize (Q q). rewrite Hq in Q.
    destruct (queues s !! q) as [tq|]; [|done]. exists tq. split; [done|]. simpl in Q.
    congruence. }
  intros tq'. destruct a as [n c sup | g late | n call | w | d]; simpl.
  - unfold WorkerGroup_ctor.
    destruct (construct_workers_spec (next_addr s) sup (N.to_nat n) 0 (WorkerGroup_init c s)
                {| group_id_ := s_next_group_id_ s; workers_ := []; queue_ := next_addr s |}
                (TaskQueue_new c (HolderGroup (next_addr s))))
      as (_ & Q & _).
    { simpl. by rewrite lookup_insert_eq. }
    { done. }
    { simpl. by rewrite lookup_insert_eq. }
    rewrite Q. destruct (decide (q = next_addr s)) as [->|Hne]; [by right|].
    rewrite lookup_insert_ne by done. simpl. rewrite lookup_insert_ne by done. eauto.
  - destruct (groups s !! g) as [grp|] eqn:Hg.
    + destruct (WorkerGroup_dtor_spec late s g grp G Hg) as (E & _ & _ & K1 & _).
      rewrite E. simpl. intros Hq'.
      apply release_queues in Hq' as (tq1 & Hq1 & E1).
      destruct (K _ _ K1 Hq1) as [(tq & Hq & E0) | ?]; [|by right].
      left. exists tq. split; [done | congruence].
    + unfold WorkerGroup_dtor. rewrite Hg. eauto.
  - apply K, run_call_shape.
  - apply K, WorkerMainEntry_step_shape.
  - eauto.
Qed.

Lemma step_next_addr a s : good s → (next_addr s ≤ next_addr (step a s))%N.
Proof.
  intros G. pose proof G as [W _]. destruct a as [n c sup | g | n call | w | d]; simpl.
  - unfold WorkerGroup_ctor.
    destruct (construct_workers_spec (next_addr s) sup (N.to_nat n) 0 (WorkerGroup_init c s)
                {| group_id_ := s_next_group_id_ s; workers_ := []; queue_ := next_addr s |}
                (TaskQueue_new c (HolderGroup (next_addr s))))
      as (_ & _ & _ & _ & _ & A & _).
    { simpl. by rewrite lookup_insert_eq. }
    { done. }
    { simpl. by rewrite lookup_insert_eq. }
    rewrite A. simpl. lia.
  - destruct (groups s !! g) as [grp|] eqn:Hg.
    + destruct (WorkerGroup_dtor_spec late s g grp G Hg) as (E & _ & _ & [A _] & _).
      rewrite E. simpl. destruct (release_frame (HolderGroup g) g
        (fold_left (λ s' w, Worker_dtor (late w) w s') (workers_ grp) s)) as (_ & _ & A' & _).
      lia.
    + unfold WorkerGroup_dtor. rewrite Hg. lia.
  - destruct (run_call_shape (ClientThread n) call s) as [A _]. lia.
  - destruct (WorkerMainEntry_step_shape (WorkerThread w) w s) as [A _]. lia.
  - lia.
Qed.

Lemma run_next_addr acts : ∀ s, good s → (next_addr s ≤ next_addr (run acts s))%N.
Proof.
  induction acts as [|a acts IH]; intros s G; simpl; [lia|].
  pose proof (step_next_addr a s G). pose proof (IH (step a s) (step_good a s G)). lia.
Qed.

Lemma run_app acts acts' s : run (acts ++ acts') s = run acts' (run acts s).
Proof. unfold run. by rewrite fold_left_app. Qed.

(** The user code a quantum runs, runs on the thread of a worker. *)
Lemma step_log a s :
  good s → ∃ evs, trace (step a s) = trace s ++ evs ∧ Forall on_worker_thread evs.
Proof.
  intros G. pose proof G as [W _]. destruct a as [n c sup | g | n call | w | d]; simpl.
  - unfold WorkerGroup_ctor.
    destruct (construct_workers_spec (next_addr s) sup (N.to_nat n) 0 (WorkerGroup_init c s)
                {| group_id_ := s_next_group_id_ s; workers_ := []; queue_ := next_addr s |}
                (TaskQueue_new c (HolderGroup (next_addr s))))
      as (_ & _ & _ & T & _).
    { simpl. by rewrite lookup_insert_eq. }
    { done. }
    { simpl. by rewrite lookup_insert_eq. }
    eexists. split; [by rewrite T|]. by repeat constructor.
  - destruct (groups s !! g) as [grp|] eqn:Hg.
    + destruct (WorkerGroup_dtor_spec late s g grp G Hg) as (E & _ & _ & _ & _ & evs & T & F).
      rewrite E. simpl. destruct (release_frame (HolderGroup g) g
        (fold_left (λ s' w, Worker_dtor (late w) w s') (workers_ grp) s)) as (_ & _ & _ & T' & _).
      exists evs. split; [by rewrite T', T | done].
    + unfold WorkerGroup_dtor. rewrite Hg. exists []. split; [by rewrite app_nil_r | constructor].
  - apply (quantum_events (QCall n call)).
  - apply (quantum_events (QWorkerThread w)).
  - apply (quantum_events (QTick d)).
Qed.

(** One pass, with what it leaves in the lane. *)
Lemma pass_step t this s wk :
  workers s !! this = Some wk → phase wk = Running → stop_flag_ wk = false →
  ∃ evs wk',
    trace (WorkerMainEntry_step t this s) = trace s ++ evs ∧
    executed_by this evs
      = take 16 (lane_items (inq_ wk) s ++ pushed (inq_ wk).1 (inq_ wk).2 evs) ∧
    lane_items (inq_ wk) (WorkerMainEntry_step t this s)
      = drop 16 (lane_items (inq_ wk) s ++ pushed (inq_ wk).1 (inq_ wk).2 evs) ∧
    workers (WorkerMainEntry_step t this s) !! this = Some wk' ∧
    fixed_part wk' = fixed_part wk.
Proof.
  intros Hw Hph Hstop. unfold WorkerMainEntry_step. rewrite Hw, Hph, Hstop.
  destruct (loop_body_log t this s wk Hw)
    as (evs & cs & sleep & T & E & _ & P & _ & Hle & L & Hemp).
  destruct (loop_body_spec t this s wk Hw) as (_ & _ & wk' & _ & _ & _ & _ & _ & Hw' & Hfix).
  exists (evs ++ sleep), wk'.
  assert (Ecs : cs = take 16 (lane_items (inq_ wk) s ++ pushed (inq_ wk).1 (inq_ wk).2 evs)).
  { by apply (take_of_bounded_prefix _ _ _ _ L). }
  split_and!; [done | by rewrite E, P | | done | done].
  rewrite P. rewrite Ecs in L.
  rewrite <- (take_drop 16 (lane_items (inq_ wk) s ++ pushed (inq_ wk).1 (inq_ wk).2 evs))
    in L at 2.
  by apply app_inv_head in L.
Qed.

(** ** Handles, histories and processes that construct many groups *)

Lemma constructed_bound s :
  wf s → (N.of_nat (length (constructed (trace s))) ≤ size_t_modulus)%N →
  (next_addr s ≤ size_t_modulus)%N.
Proof. intros W H. rewrite (wf_constructed_len s W) in H. lia. Qed.

(** A cache entry, once populated, keeps its handle. *)
Lemma entry_kept s s' evs t gid h :
  cache_ok s → cache_ok s' → trace s' = trace s ++ evs →
  out_queue (client_ctx t gid s) = Some h → out_queue (client_ctx t gid s') = Some h.
Proof.
  intros C C' T Hh. pose proof (co_reg _ C t gid) as R. pose proof (co_reg _ C' t gid) as R'.
  rewrite T, registrations_app, R, Hh in R'. simpl in R'.
  destruct (out_queue (client_ctx t gid s')) as [h'|]; [|done]. simpl in R'. congruence.
Qed.

Lemma GetOutQueue_secure t g s : secure s → secure (GetOutQueue t g s).2.
Proof.
  intros [[[W Hnd] C] S]. split; [split; [split|]|].
  - eapply (frame_wf (client_event t)); [apply client_event_inert | | done].
    apply rtc_cprim_frame, GetOutQueue_steps.
  - by rewrite GetOutQueue_null_deref.
  - by apply GetOutQueue_cache.
  - by apply GetOutQueue_safe.
Qed.

(** A call that finds the cache entry populated goes where the entry
    points. *)
Lemma GetOutQueue_hit t g grp s h :
  groups s !! g = Some grp → out_queue (client_ctx t (group_id_ grp) s) = Some h →
  GetOutQueue t g s = (Some h, s).
Proof. intros Hg Hh. unfold GetOutQueue, ctx_bool. by rewrite Hg, Hh. Qed.

Lemma post_through_cache t g grp s h tq i f tq' :
  groups s !! g = Some grp → out_queue (client_ctx t (group_id_ grp) s) = Some h →
  queues s !! oq_queue h = Some tq → Push_to (N.to_nat i) f tq = Some tq' →
  PostTask_to t g i f s
  = (true, log (EvPush (oq_queue h) (N.to_nat i) f) (set_queues (insert (oq_queue h) tq') s)).
Proof.
  intros Hg Hh Hq Hp. unfold PostTask_to. rewrite (GetOutQueue_hit t g grp s h Hg Hh).
  unfold OutQueue_Push_to. by rewrite Hq, Hp.
Qed.

Lemma fill_succ n s : fill (N.succ n) s = WorkerGroup_ctor_default 0 0 (fill n s).
Proof. unfold fill. by rewrite N.iter_succ. Qed.

(** Constructing groups without workers leaves what is there alone. *)
Lemma fill_spec n s :
  next_addr (fill n s) = (next_addr s + n)%N ∧
  tls (fill n s) = tls s ∧
  (∀ g, (g < next_addr s)%N →
     groups (fill n s) !! g = groups s !! g ∧ queues (fill n s) !! g = queues s !! g) ∧
  (∀ w, workers (fill n s) !! w = workers s !! w) ∧
  ∃ cs, trace (fill n s) = trace s ++ cs ∧ Forall is_construct cs.
Proof.
  induction n as [|n (A & L & G & W & cs & T & F)] using N.peano_ind.
  - split_and!; try done; [unfold fill; simpl; lia|].
    exists []. split; [by rewrite app_nil_r | constructor].
  - rewrite fill_succ. unfold WorkerGroup_ctor_default.
    destruct (WorkerGroup_ctor_effect 0 0 (λ _, DefaultWorkerPoller) (fill n s))
      as (_ & _ & _ & G1 & W1 & T1 & L1 & A1).
    split_and!.
    + rewrite A1, A. lia.
    + by rewrite L1.
    + intros g Hg. destruct (G1 g) as [E1 E2]; [lia|]. rewrite E1, E2. by apply G.
    + intros w. rewrite W1; [done|]. simpl. lia.
    + exists (cs ++ [EvConstruct (next_addr (fill n s)) (s_next_group_id_ (fill n s))]).
      split; [by rewrite T1, T, <- app_assoc|].
      apply Forall_app. split; [done|]. repeat constructor. by eexists _, _.
Qed.

Lemma fill_reachable n s : reachable s → reachable (fill n s).
Proof.
  intros [acts0 ->]. induction n as [|n [acts IH]] using N.peano_ind.
  - by exists acts0.
  - exists (acts ++ [AConstruct 0 0 (λ _, DefaultWorkerPoller)]).
    by rewrite run_app, <- IH, fill_succ.
Qed.

Lemma step_reachable a s : reachable s → reachable (step a s).
Proof.
  intros [acts ->]. exists (acts ++ [a]). by rewrite run_app.
Qed.

(** [n] groups without workers and then one with a single worker and room
    for one item, constructed from a state the process can reach. *)
Lemma fill_then_construct n s0 :
  reachable s0 →
  let g := (next_addr s0 + n)%N in
  let s := WorkerGroup_ctor_default 1 1 (fill n s0) in
  reachable s ∧
  groups s !! g = Some {| group_id_ := size_t_wrap g; workers_ := [(g, 0%nat)]; queue_ := g |} ∧
  queues s !! g = Some {| capacity := 1; lanes := [[]]; producers := 0; rr_cursor := 0;
                          holders := {[ HolderGroup g ]} |} ∧
  (∀ q, (q < next_addr s0)%N → queues s !! q = queues s0 !! q) ∧
  (∀ w, (w.1 < next_addr s0)%N → workers s !! w = workers s0 !! w) ∧
  is_Some (workers s !! (g, 0%nat)) ∧
  tls s = tls s0 ∧
  ∃ cs, trace s = trace s0 ++ cs ∧ Forall is_construct cs.
Proof.
  intros R0 g s. subst s.
  destruct (fill_spec n s0) as (A & L & G & W & cs & T & F).
  pose proof (fill_reachable n s0 R0) as R.
  set (wb := fill n s0) in *. clearbody wb.
  destruct (reachable_good wb R) as [Wf _].
  pose proof (wf_counter _ Wf) as I. fold g in A. rewrite A in I.
  unfold WorkerGroup_ctor_default.
  pose proof (step_reachable (AConstruct 1 1 (λ _, DefaultWorkerPoller)) wb R) as R1.
  cbn [step] in R1.
  destruct (WorkerGroup_ctor_effect 1 1 (λ _, DefaultWorkerPoller) wb)
    as (G1 & Q1 & N1 & O1 & W1 & T1 & L1 & _).
  rewrite A in G1, Q1, N1, O1, W1, T1. rewrite I in G1, T1.
  set (s := WorkerGroup_ctor 1 1 (λ _, DefaultWorkerPoller) wb) in *. clearbody s.
  split_and!.
  - done.
  - exact G1.
  - exact Q1.
  - intros q Hq. destruct (O1 q) as [_ ->]; [lia|]. by apply G.
  - intros w Hw. rewrite W1; [apply W|]. intros [? _]. lia.
  - rewrite (N1 0%nat); [eauto|]. simpl. lia.
  - by rewrite L1.
  - eexists. split; [rewrite T1, T; by rewrite <- app_assoc|].
    apply Forall_app. split; [done|]. repeat constructor. by eexists _, _.
Qed.

(** * The claims *)

(** C5.  One call of [BatchProcessTasks] by a worker pops at most [max]
    items from the worker's own lane (the run loop passes the cap 16),
    invokes each popped closure before the next pop, takes them in the
    lane's FIFO order (what was invoked, followed by what is left in the
    lane, is what the lane held followed by what was pushed to it
    meanwhile), stops before the cap only when the lane is empty, and
    returns exactly the number of closures it invoked. *)
Theorem BatchProcessTasks_drains t this max s wk :
  workers s !! this = Some wk →
  ∃ evs,
    trace (BatchProcessTasks t this max s).2 = trace s ++ evs ∧
    Forall (batch_event t this) evs ∧
    (BatchProcessTasks t this max s).1 = N.of_nat (length (executed_by this evs)) ∧
    ((BatchProcessTasks t this max s).1 ≤ max)%N ∧
    executed_by this evs ++ lane_items (inq_ wk) (BatchProcessTasks t this max s).2
      = lane_items (inq_ wk) s ++ pushed (inq_ wk).1 (inq_ wk).2 evs ∧
    (((BatchProcessTasks t this max s).1 < max)%N →
       lane_items (inq_ wk) (BatchProcessTasks t this max s).2 = []).
Proof.
  intros Hw. unfold BatchProcessTasks.
  destruct (BatchProcessTasks_loop_spec t this (N.to_nat max) 0%N s wk Hw)
    as (evs & T & Hn & Hle & Hall & Hfifo & Hemp & _).
  exists evs. rewrite Hn. split_and!; try done; [lia|].
  intros Hlt. apply Hemp. lia.
Qed.

(** C2.  What one scheduling quantum of a worker's thread does.  On entry
    the thread records the worker in its [tls_self_].  After that every
    quantum loads the stop flag: when it is set the thread leaves the loop
    and never runs again; when it is clear the thread makes exactly one
    pass, which in the worker's own log is the advance of the timer wheel,
    then the invocations of at most 16 closures taken from the front of the
    worker's own lane, then one call of the poller, with timeout 0 when 16
    closures were drained and [kPollerTimeoutMs] = 1 otherwise; all user
    code of that pass runs on the thread that makes the pass; the thread
    stays in the loop. *)
Theorem WorkerMainEntry_run_loop t this s wk :
  workers s !! this = Some wk →
  match phase wk with
  | Created =>
      trace (WorkerMainEntry_step t this s) = trace s ++ [EvEntry this] ∧
      Worker_self t (WorkerMainEntry_step t this s) = Some this ∧
      phase <$> workers (WorkerMainEntry_step t this s) !! this = Some Running
  | Running =>
      if stop_flag_ wk
      then trace (WorkerMainEntry_step t this s) = trace s ++ [EvExit this] ∧
           phase <$> workers (WorkerMainEntry_step t this s) !! this = Some Exited
      else ∃ evs cs,
           trace (WorkerMainEntry_step t this s) = trace s ++ evs ∧
           loop_events this evs = iteration this (clock s) cs ∧
           (length cs ≤ 16)%nat ∧
           Forall (on_thread t) evs ∧
           cs ++ lane_items (inq_ wk) (WorkerMainEntry_step t this s)
             = lane_items (inq_ wk) s ++ pushed (inq_ wk).1 (inq_ wk).2 evs ∧
           phase <$> workers (WorkerMainEntry_step t this s) !! this = Some Running ∧
           stop_flag_ <$> workers (WorkerMainEntry_step t this s) !! this = Some false
  | Exited => WorkerMainEntry_step t this s = s
  end.
Proof.
  intros Hw. unfold WorkerMainEntry_step. rewrite Hw.
  destruct (phase wk) eqn:Hph; [| |done].
  - split_and!; [done | |].
    + unfold Worker_self, thread_local. simpl. by rewrite lookup_insert_eq.
    + simpl. by rewrite lookup_insert_eq.
  - destruct (stop_flag_ wk) eqn:Hstop.
    + split; [done|]. simpl. by rewrite lookup_insert_eq.
    + destruct (loop_body_spec t this s wk Hw)
        as (evs & cs & wk' & T & Hev & Hle & Hon & Hl & Hw' & Hfix).
      apply fixed_part_fields in Hfix as (Hp & Hs & _).
      exists evs, cs. rewrite Hw'. simpl. split_and!; try done; congruence.
Qed.



(** The capacity bound, for a thread whose cached handle, if it has one for
    the group's id, is a handle on the group's queue. *)
Lemma capacity_local t g s grp tq call :
  groups s !! g = Some grp → queues s !! queue_ grp = Some tq → handle_ok t grp s →
  call_group call = Some g →
  ((capacity tq ≤ N.of_nat (in_flight tq))%N →
     (do_call t call s).1 = false ∧
     (∀ inq, lane_items inq (do_call t call s).2 = lane_items inq s) ∧
     workers (do_call t call s).2 = workers s ∧
     ∃ evs, trace (do_call t call s).2 = trace s ++ evs ∧ push_events evs = []) ∧
  ((N.of_nat (in_flight tq) < capacity tq)%N →
     match call_target call with
     | Some i => (i < N.of_nat (length (lanes tq)))%N
     | None => (0 < length (lanes tq))%nat
     end →
     (do_call t call s).1 = true ∧
     ∃ tq', queues (do_call t call s).2 !! queue_ grp = Some tq' ∧
       in_flight tq' = S (in_flight tq) ∧ capacity tq' = capacity tq) ∧
  (∀ lane c s1, InQueue_Pop (queue_ grp, lane) s = Some (c, s1) →
     ∃ tq1, queues s1 !! queue_ grp = Some tq1 ∧
       S (in_flight tq1) = in_flight tq ∧ capacity tq1 = capacity tq).
Proof.
  intros Hg Hq Hok Hcall.
  destruct (do_call_outcome t g s grp tq call Hg Hq Hok Hcall) as (evs & T & W & H).
  set (lane := match call_target call with Some i => N.to_nat i | None => place tq end) in H.
  split_and!.
  - intros Hfull. destruct (Push_to lane (call_item call) tq) as [tq1|] eqn:Hp.
    + apply Push_to_lanes in Hp as (_ & _ & _ & _ & Hlt). lia.
    + destruct H as (-> & P & L). split_and!; try done. by exists evs.
  - intros Hroom Hlane. destruct (Push_to lane (call_item call) tq) as [tq1|] eqn:Hp.
    + destruct H as (-> & _ & (tq' & Hq' & Hl' & Hc') & _). split; [done|].
      exists tq'. split_and!; try done.
      apply Push_to_in_flight in Hp. unfold in_flight in *. by rewrite Hl'.
    + apply Push_to_None in Hp; [lia|]. subst lane.
      destruct (call_target call); [lia | by apply place_lt].
  - intros l c s1 Hpop. apply InQueue_Pop_Some in Hpop as (_ & _ & _ & tq0 & tq' & Hq0 & Hp & ->).
    simpl in *. rewrite Hq in Hq0. injection Hq0 as <-.
    exists tq'. rewrite lookup_insert_eq. apply Pop_in_flight in Hp as (? & ? & _). done.
Qed.

(** C4, as the code has it.  Every posting member returns a boolean.  As
    long as no more than 2^64 groups have been constructed in the process,
    for a group whose queue has capacity C: while C accepted items are
    still in the lanes, a post is rejected and has no effect on any lane,
    worker or timer (nothing is pushed); while fewer than C are in the
    lanes, a post that names an existing lane (or names none, in a group
    with at least one worker) is accepted and the number in flight grows by
    one; and every item a worker pops lowers the number in flight by one,
    so that after a drain posts are accepted again. *)
Theorem capacity_backpressure acts t g grp tq call :
  (N.of_nat (length (constructed (trace (run acts init)))) ≤ size_t_modulus)%N →
  groups (run acts init) !! g = Some grp → queues (run acts init) !! queue_ grp = Some tq →
  call_group call = Some g →
  ((capacity tq ≤ N.of_nat (in_flight tq))%N →
     (do_call t call (run acts init)).1 = false ∧
     (∀ inq, lane_items inq (do_call t call (run acts init)).2
             = lane_items inq (run acts init)) ∧
     workers (do_call t call (run acts init)).2 = workers (run acts init) ∧
     ∃ evs, trace (do_call t call (run acts init)).2 = trace (run acts init) ++ evs ∧
       push_events evs = []) ∧
  ((N.of_nat (in_flight tq) < capacity tq)%N →
     match call_target call with
     | Some i => (i < N.of_nat (length (lanes tq)))%N
     | None => (0 < length (lanes tq))%nat
     end →
     (do_call t call (run acts init)).1 = true ∧
     ∃ tq', queues (do_call t call (run acts init)).2 !! queue_ grp = Some tq' ∧
       in_flight tq' = S (in_flight tq) ∧ capacity tq' = capacity tq) ∧
  (∀ lane c s1, InQueue_Pop (queue_ grp, lane) (run acts init) = Some (c, s1) →
     ∃ tq1, queues s1 !! queue_ grp = Some tq1 ∧
       S (in_flight tq1) = in_flight tq ∧ capacity tq1 = capacity tq).
Proof.
  intros Hb Hg Hq Hcall.
  assert (R : reachable (run acts init)) by (by exists acts).
  destruct (reachable_good _ R) as [W _].
  apply (capacity_local t g (run acts init) grp tq call Hg Hq); [|done].
  apply (handle_ok_reachable _ t g); [done | by apply constructed_bound | done].
Qed.

(** One call of [GetOutQueue], by the state of the caller's cache entry for
    the group's id: an empty entry is filled with a new producer handle and
    a reference to the group's queue, a populated one is returned as it
    is. *)
Lemma GetOutQueue_entry t g s grp tq :
  groups s !! g = Some grp → queues s !! queue_ grp = Some tq →
  length (tls_client_ctx_cache_ (thread_local t s)) = N.to_nat kClientCtxCacheSize →
  (ctx_bool (client_ctx t (group_id_ grp) s) = false →
     let h := {| oq_queue := queue_ grp; oq_producer := producers tq |} in
     (GetOutQueue t g s).1 = Some h ∧
     trace (GetOutQueue t g s).2 = trace s ++ [EvRegister t (queue_ grp) (producers tq)] ∧
     client_ctx t (group_id_ grp) (GetOutQueue t g s).2
       = {| queue_holder := Some (queue_ grp); out_queue := Some h |} ∧
     (∃ tq', queues (GetOutQueue t g s).2 !! queue_ grp = Some tq' ∧
        producers tq' = (producers tq + 1)%N ∧
        holders tq' = {[ HolderThread t (group_id_ grp) ]} ∪ holders tq ∧
        lanes tq' = lanes tq)) ∧
  (ctx_bool (client_ctx t (group_id_ grp) s) = true →
     GetOutQueue t g s = (out_queue (client_ctx t (group_id_ grp) s), s)) ∧
  GetOutQueue t g (GetOutQueue t g s).2 = GetOutQueue t g s ∧
  (∀ t', t' ≠ t → thread_local t' (GetOutQueue t g s).2 = thread_local t' s).
Proof.
  intros Hg Hq Hlen.
  assert (Hmiss : ctx_bool (client_ctx t (group_id_ grp) s) = false →
    GetOutQueue t g s
    = (Some {| oq_queue := queue_ grp; oq_producer := producers tq |},
       log (EvRegister t (queue_ grp) (producers tq))
         (set_client_ctx t (group_id_ grp)
            {| queue_holder := Some (queue_ grp);
               out_queue := Some {| oq_queue := queue_ grp; oq_producer := producers tq |} |}
            (set_queues (insert (queue_ grp)
               (with_holders ({[ HolderThread t (group_id_ grp) ]} ∪ holders tq)
                  (RegisterProducer tq).2)) s)))).
  { intros Hctx. unfold GetOutQueue. by rewrite Hg, Hctx, Hq. }
  assert (Hhit : ctx_bool (client_ctx t (group_id_ grp) s) = true →
    GetOutQueue t g s = (out_queue (client_ctx t (group_id_ grp) s), s)).
  { intros Hctx. unfold GetOutQueue. by rewrite Hg, Hctx. }
  split_and!; [|done| |].
  - intros Hctx h. rewrite (Hmiss Hctx). cbn [fst snd].
    set (s0 := set_queues _ s).
    split_and!; [done | done | |].
    + change (client_ctx t (group_id_ grp) (log ?e ?x)) with (client_ctx t (group_id_ grp) x).
      by apply client_ctx_set.
    + eexists. split; [subst s0; simpl; by rewrite lookup_insert_eq|]. done.
  - destruct (ctx_bool (client_ctx t (group_id_ grp) s)) eqn:Hctx.
    + rewrite (Hhit eq_refl). cbn [snd]. by rewrite (Hhit eq_refl).
    + rewrite (Hmiss eq_refl). cbn [fst snd]. unfold GetOutQueue at 1.
      change (groups (log ?e (set_client_ctx ?a ?b ?c (set_queues ?f s))) !! g)
        with (groups s !! g).
      rewrite Hg.
      change (client_ctx t (group_id_ grp) (log ?e ?x)) with (client_ctx t (group_id_ grp) x).
      by rewrite client_ctx_set.
  - intros t' Hne. destruct (ctx_bool (client_ctx t (group_id_ grp) s)) eqn:Hctx.
    + by rewrite (Hhit eq_refl).
    + rewrite (Hmiss eq_refl). cbn [snd]. unfold thread_local, set_client_ctx. simpl.
      by rewrite lookup_insert_ne.
Qed.

(** C6, as the code has it.  As long as no more than 2^64 groups have been
    constructed in the process, resolving the output handle is idempotent
    per thread and group.  The first call of thread [t] for a group - [t]
    has not registered with the group's queue so far - registers exactly
    one producer with the group's queue, returns its handle, and stores in
    the thread's cache that handle together with a reference that makes the
    thread a holder of the queue.  Every later call of [t] for the group
    returns the handle of that registration and changes nothing.  In every
    case a second call returns what the first returned and leaves the state
    as the first left it, and no call touches the local storage of another
    thread.  The reference keeps the queue alive when the group is
    destroyed, for a thread that lives on: when [t] is a client thread or
    the thread of a live worker of another group (the threads of the
    group's own workers end in the destructor, and their local storage
    with them), then after [~WorkerGroup], whatever the joined worker
    threads still run, the group is gone, the queue is still allocated with
    its capacity and its lanes, [t] is among its holders, and the cache of
    [t] still holds the handle. *)
Theorem GetOutQueue_idempotent acts t g grp tq :
  (N.of_nat (length (constructed (trace (run acts init)))) ≤ size_t_modulus)%N →
  groups (run acts init) !! g = Some grp → queues (run acts init) !! queue_ grp = Some tq →
  ((∀ p, EvRegister t (queue_ grp) p ∉ trace (run acts init)) →
     let h := {| oq_queue := queue_ grp; oq_producer := producers tq |} in
     (GetOutQueue t g (run acts init)).1 = Some h ∧
     trace (GetOutQueue t g (run acts init)).2
       = trace (run acts init) ++ [EvRegister t (queue_ grp) (producers tq)] ∧
     client_ctx t (group_id_ grp) (GetOutQueue t g (run acts init)).2
       = {| queue_holder := Some (queue_ grp); out_queue := Some h |} ∧
     (∃ tq', queues (GetOutQueue t g (run acts init)).2 !! queue_ grp = Some tq' ∧
        producers tq' = (producers tq + 1)%N ∧
        holders tq' = {[ HolderThread t (group_id_ grp) ]} ∪ holders tq ∧
        lanes tq' = lanes tq)) ∧
  (∀ p, EvRegister t (queue_ grp) p ∈ trace (run acts init) →
     GetOutQueue t g (run acts init)
     = (Some {| oq_queue := queue_ grp; oq_producer := p |}, run acts init)) ∧
  GetOutQueue t g (GetOutQueue t g (run acts init)).2 = GetOutQueue t g (run acts init) ∧
  (∀ t', t' ≠ t →
     thread_local t' (GetOutQueue t g (run acts init)).2 = thread_local t' (run acts init)) ∧
  (∀ late, (∀ w, t = WorkerThread w → w.1 ≠ g ∧ is_Some (workers (run acts init) !! w)) →
     ∃ h tq'',
       (GetOutQueue t g (run acts init)).1 = Some h ∧ oq_queue h = queue_ grp ∧
       groups (WorkerGroup_dtor late g (GetOutQueue t g (run acts init)).2) !! g = None ∧
       queues (WorkerGroup_dtor late g (GetOutQueue t g (run acts init)).2) !! queue_ grp
         = Some tq'' ∧
       HolderThread t (group_id_ grp) ∈ holders tq'' ∧
       queue_shape tq'' = queue_shape tq ∧
       out_queue (client_ctx t (group_id_ grp)
                    (WorkerGroup_dtor late g (GetOutQueue t g (run acts init)).2)) = Some h).
Proof.
  intros Hb Hg Hq. set (s := run acts init) in *.
  assert (R : reachable s) by (by exists acts).
  pose proof (reachable_secure s R) as Sec. pose proof Sec as [[[W Hnd] C] S].
  pose proof (constructed_bound s W Hb) as Hb'.
  destruct (cache_entry_history s t g grp R Hb' Hg) as [Hfirst Hlater].
  destruct (GetOutQueue_entry t g s grp tq Hg Hq (co_len _ C t)) as (Hmiss & Hhit & Hidem & Hconf).
  split_and!; [ | | done | done | ].
  - intros Hnone. apply Hmiss. unfold ctx_bool. by rewrite (Hfirst Hnone).
  - intros p Hin. rewrite Hhit; [by rewrite (Hlater p Hin)|].
    unfold ctx_bool. by rewrite (Hlater p Hin).
  - intros late _.
    assert (∃ h, (GetOutQueue t g s).1 = Some h ∧ oq_queue h = queue_ grp ∧
                 out_queue (client_ctx t (group_id_ grp) (GetOutQueue t g s).2) = Some h)
      as (h & Hr & Hqh & Hent).
    { destruct (out_queue (client_ctx t (group_id_ grp) s)) as [h|] eqn:Hh.
      - exists h. rewrite (GetOutQueue_hit t g grp s h Hg Hh). split_and!; [done | | done].
        by apply (handle_ok_reachable s t g grp R Hb' Hg).
      - destruct Hmiss as (H1 & _ & H3 & _); [unfold ctx_bool; by rewrite Hh|].
        eexists. split_and!; [exact H1 | done | by rewrite H3]. }
    pose proof (GetOutQueue_secure t g s Sec) as Sec1.
    destruct (GetOutQueue_shape t g s) as (_ & G1 & _).
    pose proof (fr_shape _ _ _ (rtc_cprim_frame t _ _ (GetOutQueue_steps t g s)) (queue_ grp))
      as Q1.
    set (s1 := (GetOutQueue t g s).2) in *.
    pose proof (WorkerGroup_dtor_secure late g s1 Sec1) as [[G2 C2] S2].
    destruct (step_log (ADestroy g late) s1) as (evs & T & _); [apply Sec1|]. simpl in T.
    pose proof (entry_kept s1 _ evs t (group_id_ grp) h (proj2 (proj1 Sec1)) C2 T Hent) as Hent2.
    destruct (sf_entry _ S2 t (group_id_ grp) h Hent2) as (_ & tq'' & Hq'' & Hin & _).
    rewrite Hqh in Hq''.
    exists h, tq''. split_and!; try done.
    + destruct (WorkerGroup_dtor_spec late s1 g grp) as (E & _); [apply Sec1 | by rewrite G1 |].
      rewrite E. simpl. apply lookup_delete_eq.
    + destruct (step_queues (ADestroy g late) s1 (queue_ grp) tq'') as [(tq1 & Hq1 & E1) | E1];
        [apply Sec1 | done | |].
      * rewrite Hq1, Hq in Q1. simpl in Q1. congruence.
      * exfalso. destruct (wf_group s W g grp Hg) as (Hqg & Hlt & _).
        destruct (GetOutQueue_shape t g s) as (_ & _ & _ & A1 & _). fold s1 in A1. lia.
Qed.

(** C1, as the code has it.  Within one lane the queue is FIFO and the
    worker keeps that order.  In every state the process can reach, for a
    worker at position [i] of a group: the closures that worker has popped
    and invoked so far, followed by the closures still waiting in lane [i]
    of the group's queue, are exactly the closures accepted into that lane,
    in the order in which they were accepted.  As long as no more than 2^64
    groups have been constructed in the process, a targeted post that is
    accepted adds its closure at the end of that order, and a rejected one
    leaves it alone; so the closures of targeted posts to one worker are
    invoked by that worker in the order in which they were posted. *)
Theorem lane_fifo acts g grp tq :
  (N.of_nat (length (constructed (trace (run acts init)))) ≤ size_t_modulus)%N →
  groups (run acts init) !! g = Some grp →
  queues (run acts init) !! queue_ grp = Some tq →
  (∀ i w, workers_ grp !! i = Some w →
     executed_by w (trace (run acts init)) ++ lane_items (queue_ grp, i) (run acts init)
     = pushed (queue_ grp) i (trace (run acts init))) ∧
  (∀ t worker_id func,
     pushed (queue_ grp) (N.to_nat worker_id)
       (trace (PostTask_to t g worker_id func (run acts init)).2)
     = pushed (queue_ grp) (N.to_nat worker_id) (trace (run acts init))
         ++ (if (PostTask_to t g worker_id func (run acts init)).1 then [func] else [])).
Proof.
  intros Hb Hg Hq.
  assert (R : reachable (run acts init)) by (by exists acts).
  destruct (reachable_good _ R) as [W _].
  destruct (wf_group _ W g grp Hg) as (B1 & _ & _ & B4 & _).
  split.
  - intros i w Hi. rewrite (B4 i w Hi), B1.
    pose proof (wf_fifo _ W g i) as H. rewrite B1 in Hq. by rewrite Hq in H.
  - intros t worker_id func.
    assert (Hok : handle_ok t grp (run acts init)).
    { apply (handle_ok_reachable _ t g); [done | by apply constructed_bound | done]. }
    destruct (do_call_outcome t g _ grp tq (CallPostTaskTo g worker_id func) Hg Hq Hok eq_refl)
      as (evs & T & _ & H).
    simpl in T, H. rewrite T, pushed_app. f_equal. rewrite pushed_of_push_events.
    destruct (Push_to (N.to_nat worker_id) func tq).
    + destruct H as (-> & -> & _). simpl. by rewrite decide_True.
    + by destruct H as (-> & -> & _).
Qed.

(** C7, as the code has it.  The counter starts at 0, and the n-th group
    constructed in the process (counting from 0) is given the id n reduced
    to [size_t], that is n mod 2^64.  A group keeps that id for as long as
    it lives.  Hence the ids of the groups constructed so far are pairwise
    different as long as no more than 2^64 groups have been constructed. *)
Theorem group_ids_unique_until_wrap acts :
  s_next_group_id_ init = 0%N ∧
  (∀ n a gid, constructed (trace (run acts init)) !! n = Some (a, gid) →
     gid = size_t_wrap (N.of_nat n)) ∧
  (∀ g grp, groups (run acts init) !! g = Some grp →
     constructed (trace (run acts init)) !! N.to_nat g = Some (g, group_id_ grp)) ∧
  ((N.of_nat (length (constructed (trace (run acts init)))) ≤ size_t_modulus)%N →
     NoDup (constructed (trace (run acts init))).*2).
Proof.
  destruct (reachable_good (run acts init)) as [W _]; [by exists acts|].
  split_and!; [done | | |].
  - intros n a gid H. by destruct (wf_constructed _ W n a gid H) as [-> ->].
  - intros g grp Hg. destruct (wf_group _ W g grp Hg) as (_ & Hlt & Hid & _).
    destruct (constructed (trace (run acts init)) !! N.to_nat g) as [[a gid]|] eqn:E.
    + destruct (wf_constructed _ W _ a gid E) as [-> ->]. by rewrite N2Nat.id, Hid.
    + apply lookup_ge_None in E. rewrite (wf_constructed_len _ W) in E. lia.
  - intros Hlen. apply NoDup_alt. intros i j gid Hi Hj.
    rewrite list_lookup_fmap in Hi, Hj.
    destruct (constructed (trace (run acts init)) !! i) as [[a1 g1]|] eqn:E1; [|done].
    destruct (constructed (trace (run acts init)) !! j) as [[a2 g2]|] eqn:E2; [|done].
    simpl in Hi, Hj. injection Hi as ->. injection Hj as ->.
    apply lookup_lt_Some in E1 as L1. apply lookup_lt_Some in E2 as L2.
    destruct (wf_constructed _ W _ _ _ E1) as [-> H1].
    destruct (wf_constructed _ W _ _ _ E2) as [-> H2].
    rewrite H2 in H1. rewrite !size_t_wrap_small in H1 by lia. lia.
Qed.

(** C8, as the code has it.  As long as no more than 2^64 groups have been
    constructed in the process, a targeted post (plain, delayed or
    periodic) that names a [worker_id] at or beyond the number of workers
    of the group is rejected: the call returns false, no lane of any queue
    receives the closure, no worker or timer changes, and the log shows no
    push.  The closure is neither accepted and dropped nor placed in
    another lane. *)
Theorem misrouted_target_rejected acts t g grp tq call worker_id :
  (N.of_nat (length (constructed (trace (run acts init)))) ≤ size_t_modulus)%N →
  groups (run acts init) !! g = Some grp →
  queues (run acts init) !! queue_ grp = Some tq →
  call_group call = Some g → call_target call = Some worker_id →
  (N.of_nat (length (workers_ grp)) ≤ worker_id)%N →
  (do_call t call (run acts init)).1 = false ∧
  (∀ inq, lane_items inq (do_call t call (run acts init)).2 = lane_items inq (run acts init)) ∧
  workers (do_call t call (run acts init)).2 = workers (run acts init) ∧
  ∃ evs, trace (do_call t call (run acts init)).2 = trace (run acts init) ++ evs ∧
    push_events evs = [].
Proof.
  intros Hb Hg Hq Hcg Hct Hge.
  assert (R : reachable (run acts init)) by (by exists acts).
  destruct (reachable_good _ R) as [W _].
  assert (Hok : handle_ok t grp (run acts init)).
  { apply (handle_ok_reachable _ t g); [done | by apply constructed_bound | done]. }
  destruct (wf_group _ W g grp Hg) as (B1 & _ & _ & _ & B5).
  rewrite B1 in Hq. specialize (B5 tq Hq). rewrite <- B1 in Hq.
  destruct (do_call_outcome t g _ grp tq call Hg Hq Hok Hcg) as (evs & T & Hw & H).
  rewrite Hct in H. simpl in H.
  assert (Hnone : Push_to (N.to_nat worker_id) (call_item call) tq = None).
  { unfold Push_to. rewrite lookup_ge_None_2; [done | lia]. }
  rewrite Hnone in H. destruct H as (Hr & Hp & Hl). split_and!; try done. by exists evs.
Qed.

(** C9.  In every state the process can reach, for a live worker [w] that
    sits at position [i] in the worker list of group [g], [w.PostTask(func)]
    called on any thread is [g.PostTask(i, func)]: same result, same next
    state. *)
Theorem Worker_PostTask_targets_own_lane acts t g grp i w wk func :
  groups (run acts init) !! g = Some grp →
  workers_ grp !! i = Some w →
  workers (run acts init) !! w = Some wk →
  id_ wk = N.of_nat i ∧
  Worker_PostTask t w func (run acts init) = PostTask_to t g (N.of_nat i) func (run acts init).
Proof.
  intros Hg Hi Hw.
  destruct (reachable_good (run acts init)) as [W _]; [by exists acts|].
  destruct (wf_group _ W g grp Hg) as (_ & _ & _ & B4 & _).
  rewrite (B4 i w Hi) in *.
  destruct (wf_worker _ W _ wk Hw) as (_ & A2 & A3 & _). simpl in A2, A3.
  split; [done|]. unfold Worker_PostTask. by rewrite Hw, A2, A3.
Qed.

(** C10.  In every state the process can reach: no closure has
    dereferenced a null [Worker::self()]; every worker whose thread has
    entered [WorkerMainEntry] has [tls_self_] of its thread pointing at
    itself; and in the log of what a worker's thread did with closures, if
    anything is there at all, the first event is the entry, where
    [tls_self_] is assigned, and no second entry follows it: the
    assignment happens once, before any timer fires or task runs. *)
Theorem tls_self_set_before_use acts :
  null_deref (run acts init) = false ∧
  (∀ w wk, workers (run acts init) !! w = Some wk → phase wk ≠ Created →
     Worker_self (thread_ wk) (run acts init) = Some w) ∧
  (∀ w, thread_events w (trace (run acts init)) = []
        ∨ entered w (thread_events w (trace (run acts init)))).
Proof.
  destruct (reachable_good (run acts init)) as [W Hnd]; [by exists acts|].
  split_and!; [done | | apply W].
  intros w wk Hw Hph. destruct (wf_worker _ W _ wk Hw) as (_ & _ & _ & -> & _).
  by apply (wf_self _ W w wk).
Qed.

Lemma many_groups_succ n :
  many_groups (N.succ n) = WorkerGroup_init 0 (many_groups n).
Proof. unfold many_groups. by rewrite N.iter_succ. Qed.

Lemma many_groups_spec n :
  next_addr (many_groups n) = n ∧
  s_next_group_id_ (many_groups n) = size_t_wrap n ∧
  ∀ a, (a < n)%N →
    groups (many_groups n) !! a
    = Some {| group_id_ := size_t_wrap a; workers_ := []; queue_ := a |}.
Proof.
  induction n as [|n (IH1 & IH2 & IH3)] using N.peano_ind.
  - split_and!; [done | done | intros a Ha; lia].
  - rewrite many_groups_succ. unfold WorkerGroup_init.
    cbn [next_addr s_next_group_id_ groups]. rewrite IH1, IH2. split_and!.
    + lia.
    + rewrite size_t_wrap_succ. f_equal. lia.
    + intros a Ha. destruct (decide (n = a)) as [<-|Hne].
      * by rewrite lookup_insert_eq.
      * rewrite lookup_insert_ne by done. apply IH3. lia.
Qed.

Lemma run_snoc acts a s : run (acts ++ [a]) s = step a (run acts s).
Proof. unfold run. by rewrite fold_left_app. Qed.

(** The process of [many_groups] is one the scheduler can run. *)
Lemma many_groups_reachable n : reachable (many_groups n).
Proof.
  induction n as [|n [acts IH]] using N.peano_ind.
  - by exists [].
  - exists (acts ++ [AConstruct 0 0 (λ _, DefaultWorkerPoller)]).
    by rewrite run_snoc, <- IH, many_groups_succ.
Qed.

(** C7, as the claim states it, fails: a process that constructs 2^64 + 1
    groups and destroys none has two live groups, the first and the last
    one constructed, that carry the same id 0. *)
Lemma group_id_reused :
  ∃ grp1 grp2,
    groups (many_groups 18446744073709551617) !! 0%N = Some grp1 ∧
    groups (many_groups 18446744073709551617) !! 18446744073709551616%N = Some grp2 ∧
    group_id_ grp1 = group_id_ grp2.
Proof.
  destruct (many_groups_spec 18446744073709551617) as (_ & _ & H).
  eexists _, _. split_and!.
  - apply H. lia.
  - apply H. lia.
  - reflexivity.
Qed.

(** * Further properties of the code *)

(** X1 (batch, nothing to do).  [BatchProcessTasks] returns 0 exactly when
    it was called with [max = 0] or the worker's lane is empty at the call,
    and then it leaves the whole state as it found it. *)
Theorem BatchProcessTasks_nothing_to_do t this max s wk :
  workers s !! this = Some wk →
  ((BatchProcessTasks t this max s).1 = 0%N ↔ max = 0%N ∨ lane_items (inq_ wk) s = []) ∧
  ((BatchProcessTasks t this max s).1 = 0%N → (BatchProcessTasks t this max s).2 = s).
Proof.
  intros Hw. unfold BatchProcessTasks.
  destruct (decide (max = 0%N)) as [->|Hmax]; [simpl; split; [split; by auto | done]|].
  destruct (N.to_nat max) as [|k] eqn:Hk; [lia|]. simpl. rewrite Hw.
  destruct (InQueue_Pop (inq_ wk) s) as [[c s1]|] eqn:Hpop.
  - pose proof (BatchProcessTasks_loop_ge t this k (0 + 1)
                  (run_closure t c (log (EvExec this c) s1))) as Hge.
    apply InQueue_Pop_Some in Hpop as (Hlane & _).
    split; [split|]; [lia | | lia]. intros [?|E]; [done|]. by rewrite E in Hlane.
  - simpl. split; [|done]. split; [|done]. intros _. right. by apply InQueue_Pop_None.
Qed.

(** X2 (batch, composition).  Draining with the cap [a + b] is draining
    with the cap [a] and, when that batch was full, draining again with the
    cap [b]; the counts add up.  A batch that stopped short of its cap is
    not resumed. *)
Theorem BatchProcessTasks_split t this a b s :
  BatchProcessTasks t this (a + b) s
  = if decide ((BatchProcessTasks t this a s).1 < a)%N
    then BatchProcessTasks t this a s
    else (((BatchProcessTasks t this a s).1
           + (BatchProcessTasks t this b (BatchProcessTasks t this a s).2).1)%N,
          (BatchProcessTasks t this b (BatchProcessTasks t this a s).2).2).
Proof.
  unfold BatchProcessTasks. rewrite N2Nat.inj_add, BatchProcessTasks_loop_split.
  rewrite N.add_0_l, N2Nat.id. case_decide; [done|].
  by rewrite BatchProcessTasks_loop_count.
Qed.

(** X3 (pass, progress).  A pass of the run loop does not stop early: the
    closures the worker invokes in it are the first 16 (all, when there are
    fewer) of what waits in its lane at the start of the pass followed by
    what is accepted into the lane during the pass.  In particular the 16
    closures at the front of the lane at the start of the pass are invoked
    in this pass, in order, before anything posted later. *)
Theorem pass_takes_waiting_tasks t this s wk :
  workers s !! this = Some wk → phase wk = Running → stop_flag_ wk = false →
  ∃ evs,
    trace (WorkerMainEntry_step t this s) = trace s ++ evs ∧
    executed_by this evs
      = take 16 (lane_items (inq_ wk) s ++ pushed (inq_ wk).1 (inq_ wk).2 evs) ∧
    take 16 (lane_items (inq_ wk) s) `prefix_of` executed_by this evs.
Proof.
  intros Hw Hph Hstop. unfold WorkerMainEntry_step. rewrite Hw, Hph, Hstop.
  destruct (loop_body_log t this s wk Hw)
    as (evs & cs & sleep & T & E & _ & P & _ & Hle & L & Hemp).
  exists (evs ++ sleep).
  assert (Ecs : cs = take 16 (lane_items (inq_ wk) s ++ pushed (inq_ wk).1 (inq_ wk).2 evs)).
  { by apply (take_of_bounded_prefix _ _ _ _ L). }
  split_and!; [done | by rewrite E, P |].
  rewrite E, Ecs. apply take_prefix_app.
Qed.

(** X4 (pass, poller).  A pass of the run loop of a worker that uses the
    default poller ends in one sleep of 1000 microseconds when fewer than
    16 closures were invoked in it, and does not sleep at all when 16 were;
    a pass sleeps nowhere else, and a sleep is the last thing in the pass,
    at a moment when the worker's lane is empty.  With a poller supplied by
    the user the library never sleeps. *)
Theorem pass_sleeps_only_when_idle t this s wk :
  workers s !! this = Some wk → phase wk = Running → stop_flag_ wk = false →
  ∃ evs,
    trace (WorkerMainEntry_step t this s) = trace s ++ evs ∧
    usleeps evs
      = (match poller_ wk with
         | DefaultWorkerPoller =>
             if decide (length (executed_by this evs) < 16)%nat then [1000%N] else []
         | UserPoller _ => []
         end) ∧
    (usleeps evs ≠ [] →
       (∃ evs0, evs = evs0 ++ [EvUsleep 1000]) ∧
       lane_items (inq_ wk) (WorkerMainEntry_step t this s) = []).
Proof.
  intros Hw Hph Hstop. unfold WorkerMainEntry_step. rewrite Hw, Hph, Hstop.
  destruct (loop_body_log t this s wk Hw)
    as (evs & cs & sleep & T & E & U & _ & S & _ & _ & Hemp).
  exists (evs ++ sleep). rewrite usleeps_app, U, E. simpl.
  change (N.to_nat kMaxBatchProcessTasks) with 16%nat in *.
  split_and!; [done | |].
  - rewrite S. destruct (poller_ wk); [|done]. by case_decide.
  - rewrite S. destruct (poller_ wk); [|done].
    case_decide; [|done]. intros _. split; [by exists evs | by apply Hemp].
Qed.

(** X5 (constructor).  What [WorkerGroup(worker_num, queue_size,
    poller_supplier)] builds, from any state: the new group takes the next
    id of the counter; its queue has the requested capacity, one empty lane
    per worker, no producer yet, and the group as its only holder; worker
    [i], for every [i] below [worker_num], is a new object with [id_ = i],
    its back-reference on the new group, lane [i] of the queue as its
    input, the poller the supplier returns for [i], the stop flag clear, no
    timer armed and a thread of its own that has not run yet.  Nothing else
    changes: no other group, queue or worker, and no thread's local
    storage; the log grows by the construction alone. *)
Theorem WorkerGroup_ctor_builds worker_num queue_size supplier s :
  let g := next_addr s in
  let s' := WorkerGroup_ctor worker_num queue_size supplier s in
  groups s' !! g = Some {| group_id_ := s_next_group_id_ s;
                           workers_ := (λ i, (g, i)) <$> seq 0 (N.to_nat worker_num);
                           queue_ := g |} ∧
  queues s' !! g = Some {| capacity := queue_size;
                           lanes := replicate (N.to_nat worker_num) [];
                           producers := 0; rr_cursor := 0;
                           holders := {[ HolderGroup g ]} |} ∧
  (∀ i, (i < N.to_nat worker_num)%nat →
     workers s' !! (g, i)
     = Some {| group_ := g; id_ := N.of_nat i; inq_ := (g, i);
               poller_ := supplier (N.of_nat i); stop_flag_ := false;
               thread_ := WorkerThread (g, i); timers_ := []; phase := Created |}) ∧
  (∀ g', g' ≠ g → groups s' !! g' = groups s !! g' ∧ queues s' !! g' = queues s !! g') ∧
  (∀ w, ¬ (w.1 = g ∧ (w.2 < N.to_nat worker_num)%nat) → workers s' !! w = workers s !! w) ∧
  trace s' = trace s ++ [EvConstruct g (s_next_group_id_ s)] ∧
  tls s' = tls s ∧ next_addr s' = (g + 1)%N ∧
  s_next_group_id_ s' = size_t_wrap (s_next_group_id_ s + 1).
Proof.
  intros g s'. subst s'. unfold WorkerGroup_ctor. fold g.
  destruct (construct_workers_spec g supplier (N.to_nat worker_num) 0
              (WorkerGroup_init queue_size s)
              {| group_id_ := s_next_group_id_ s; workers_ := []; queue_ := g |}
              (TaskQueue_new queue_size (HolderGroup g)))
    as (G & Q & W & T & L & A & I & _).
  { simpl. by rewrite lookup_insert_eq. }
  { done. }
  { simpl. by rewrite lookup_insert_eq. }
  split_and!.
  - rewrite G. by rewrite lookup_insert_eq.
  - rewrite Q. by rewrite lookup_insert_eq.
  - intros i Hi. rewrite W. simpl. rewrite decide_True by (split; [done | lia]).
    unfold Worker_ctor. simpl. by rewrite Nat.sub_0_r.
  - intros g' Hne. rewrite G, Q. simpl. by rewrite !lookup_insert_ne.
  - intros w Hw. rewrite W. rewrite decide_False; [done|]. intros [? ?]. apply Hw. split; [done | lia].
  - by rewrite T.
  - by rewrite L.
  - by rewrite A.
  - by rewrite I.
Qed.


(** X7 (posting, what a call does).  Every posting member, and
    [Worker::PostTask], returns after at most one registration of the
    calling thread as a producer followed by at most one push, the push
    being there exactly when the call returns true: the closure is handed
    over, never invoked by the call itself.  The call changes no group, no
    worker, no timer and no other thread's local storage. *)
Theorem post_hands_over_without_running t call s :
  workers (do_call t call s).2 = workers s ∧
  groups (do_call t call s).2 = groups s ∧
  (∀ t', t' ≠ t → thread_local t' (do_call t call s).2 = thread_local t' s) ∧
  Worker_self t (do_call t call s).2 = Worker_self t s ∧
  ∃ reg push,
    trace (do_call t call s).2 = trace s ++ reg ++ push ∧
    (reg = [] ∨ ∃ q p, reg = [EvRegister t q p]) ∧
    (if (do_call t call s).1 then ∃ q l, push = [EvPush q l (call_item call)] else push = []).
Proof.
  destruct (do_call_shape t call s) as [W G _ _ _ _ L S T]. by split_and!.
Qed.

(** X8 (posting, registration on failure).  A posting member resolves the
    output handle before it pushes.  So the first post of a thread to a
    group registers the thread as a producer, makes the thread a holder of
    the queue and populates the thread's cache entry for the group's id
    whatever the push then answers: a post that is rejected is not without
    effect on the calling thread and on the queue's producer count. *)
Theorem first_post_registers_even_if_rejected t g s grp tq call :
  groups s !! g = Some grp → queues s !! queue_ grp = Some tq →
  length (tls_client_ctx_cache_ (thread_local t s)) = N.to_nat kClientCtxCacheSize →
  call_group call = Some g →
  ctx_bool (client_ctx t (group_id_ grp) s) = false →
  client_ctx t (group_id_ grp) (do_call t call s).2
    = {| queue_holder := Some (queue_ grp);
         out_queue := Some {| oq_queue := queue_ grp; oq_producer := producers tq |} |} ∧
  (∃ tq', queues (do_call t call s).2 !! queue_ grp = Some tq' ∧
     producers tq' = (producers tq + 1)%N ∧
     HolderThread t (group_id_ grp) ∈ holders tq') ∧
  ∃ evs, trace (do_call t call s).2
         = trace s ++ EvRegister t (queue_ grp) (producers tq) :: evs.
Proof.
  intros Hg Hq Hlen Hcall Hctx.
  rewrite (do_call_group t call g s Hcall).
  rewrite (GetOutQueue_miss_eq t g s grp tq Hg Hq Hctx). cbn [fst snd].
  set (h := {| oq_queue := queue_ grp; oq_producer := producers tq |}).
  set (s1 := log _ _).
  assert (Hq1 : queues s1 !! queue_ grp
                = Some (with_holders ({[ HolderThread t (group_id_ grp) ]} ∪ holders tq)
                          (RegisterProducer tq).2)).
  { subst s1. simpl. by rewrite lookup_insert_eq. }
  assert (Hc1 : client_ctx t (group_id_ grp) s1
                = {| queue_holder := Some (queue_ grp); out_queue := Some h |}).
  { subst s1.
    change (client_ctx t (group_id_ grp) (log ?e ?x)) with (client_ctx t (group_id_ grp) x).
    by apply client_ctx_set. }
  assert (A : ∀ push : option OutQueue → Closure → State → bool * State,
    (∀ o c s0, push o c s0 = (false, s0) ∨
       ∃ h tq tq' l, o = Some h ∧ queues s0 !! oq_queue h = Some tq ∧
         producers tq' = producers tq ∧ holders tq' = holders tq ∧
         push o c s0 = (true, log (EvPush (oq_queue h) l c)
                                (set_queues (insert (oq_queue h) tq') s0))) →
    client_ctx t (group_id_ grp) (push (Some h) (call_item call) s1).2
      = {| queue_holder := Some (queue_ grp); out_queue := Some h |} ∧
    (∃ tq', queues (push (Some h) (call_item call) s1).2 !! queue_ grp = Some tq' ∧
       producers tq' = (producers tq + 1)%N ∧
       HolderThread t (group_id_ grp) ∈ holders tq') ∧
    ∃ evs, trace (push (Some h) (call_item call) s1).2
           = trace s ++ EvRegister t (queue_ grp) (producers tq) :: evs).
  { intros push Hpush.
    destruct (push_through_handle push Hpush (Some h) (call_item call) s1)
      as (L & (evs & T) & Q).
    destruct (Q _ _ Hq1) as (tq' & Hq' & Hp & Hhold).
    split_and!.
    - by rewrite (client_ctx_tls _ _ _ _ L).
    - exists tq'. split; [done|]. split; [by rewrite Hp|].
      assert (HolderThread t (group_id_ grp)
              ∈ holders (with_holders ({[HolderThread t (group_id_ grp)]} ∪ holders tq)
                           (RegisterProducer tq).2)) as Hin
        by (simpl; apply elem_of_union; left; by apply elem_of_singleton).
      congruence.
    - exists evs. rewrite T. subst s1. simpl. by rewrite <- app_assoc. }
  destruct (call_target call) as [i|].
  - apply (A (λ o c s0, OutQueue_Push_to o i c s0)). intros. apply OutQueue_Push_to_handle.
  - apply (A OutQueue_Push). intros. apply OutQueue_Push_handle.
Qed.

(** X9 (cache, one entry per call).  Resolving the handle of a group touches
    one cache entry only, the calling thread's entry for that group's id:
    every other entry, of this thread or of another, reads as before.  The
    entry lives in the fixed array when the id is below
    [kClientCtxCacheSize] and in the map otherwise; the store that is not
    used is left as it is, and the array keeps its length. *)
Theorem GetOutQueue_touches_one_entry t g s grp :
  groups s !! g = Some grp →
  (∀ t' gid', (t', gid') ≠ (t, group_id_ grp) →
     client_ctx t' gid' (GetOutQueue t g s).2 = client_ctx t' gid' s) ∧
  ((group_id_ grp < kClientCtxCacheSize)%N →
     tls_client_ctx_ (thread_local t (GetOutQueue t g s).2) = tls_client_ctx_ (thread_local t s)) ∧
  ((kClientCtxCacheSize ≤ group_id_ grp)%N →
     tls_client_ctx_cache_ (thread_local t (GetOutQueue t g s).2)
     = tls_client_ctx_cache_ (thread_local t s)) ∧
  length (tls_client_ctx_cache_ (thread_local t (GetOutQueue t g s).2))
  = length (tls_client_ctx_cache_ (thread_local t s)).
Proof.
  intros Hg.
  destruct (GetOutQueue_cases t g s) as [[r ->] | (grp' & tq & Hg' & Hq & Hctx)]; [done|].
  rewrite Hg in Hg'. injection Hg' as <-.
  rewrite (GetOutQueue_miss_eq t g s grp tq Hg Hq Hctx). cbn [snd].
  set (c := {| queue_holder := _; out_queue := _ |}).
  set (s0 := set_queues _ s).
  assert (TL : ∀ x, thread_local t (log x (set_client_ctx t (group_id_ grp) c s0))
                    = thread_local t (set_client_ctx t (group_id_ grp) c s0)) by done.
  assert (T0 : thread_local t s0 = thread_local t s) by done.
  split_and!.
  - intros t' gid' Hne.
    change (client_ctx t' gid' (log ?e ?x)) with (client_ctx t' gid' x).
    by rewrite client_ctx_set_other.
  - intros Hlt. rewrite TL, thread_local_set_client_ctx, T0. by rewrite decide_True.
  - intros Hge. rewrite TL, thread_local_set_client_ctx, T0.
    by rewrite decide_False by lia.
  - rewrite TL. by rewrite thread_local_set_client_ctx_len.
Qed.

(** X10 (cache, history).  In every state the process can reach, the handles
    a thread has registered for groups of one id (the group at address [q]
    has the id [q mod 2^64]) are what its cache entry for that id holds:
    none while the entry is empty, and afterwards the one handle of its
    first registration.  A thread therefore registers at most once per
    group id over the whole run, and a populated entry is never
    replaced. *)
Theorem cache_agrees_with_history acts t gid :
  registrations t gid (trace (run acts init))
    = option_list (out_queue (client_ctx t gid (run acts init))) ∧
  (length (registrations t gid (trace (run acts init))) ≤ 1)%nat.
Proof.
  destruct (reachable_sound (run acts init)) as [_ C]; [by exists acts|].
  pose proof (co_reg _ C t gid) as H. split; [done|]. rewrite H.
  destruct (out_queue _); simpl; lia.
Qed.

(** X12 (cache, no dangling handle).  In every state the process can reach,
    a populated cache entry of a thread holds a handle into a queue that is
    still allocated, together with a reference to that same queue, which
    counts the thread among the queue's holders; the handle is one the
    queue has given out, to a group whose id is the entry's key.  A push
    through a cached handle never reaches a queue that has been freed, even
    after the group was destroyed. *)
Theorem cached_handle_never_dangles acts t gid h :
  out_queue (client_ctx t gid (run acts init)) = Some h →
  queue_holder (client_ctx t gid (run acts init)) = Some (oq_queue h) ∧
  size_t_wrap (oq_queue h) = gid ∧
  ∃ tq, queues (run acts init) !! oq_queue h = Some tq ∧
    HolderThread t gid ∈ holders tq ∧ (oq_producer h < producers tq)%N.
Proof.
  destruct (reachable_secure (run acts init)) as [[_ C] S]; [by exists acts|].
  intros Hh. destruct (sf_entry _ S t gid h Hh) as (Hq & tq & Hqs & Hin & Hp).
  split_and!; [done | | eauto].
  pose proof (co_reg _ C t gid) as R. rewrite Hh in R. simpl in R.
  apply (registrations_elem t gid (trace (run acts init))). rewrite R.
  apply elem_of_cons. by left.
Qed.

(** X13 (queue lifetime).  In every state the process can reach, a queue is
    allocated exactly as long as somebody holds it: its group, while that
    is allocated, or a cache entry of some thread.  A queue is never
    freed while it is held and never kept when nobody holds it. *)
Theorem queue_lives_while_held acts q :
  is_Some (queues (run acts init) !! q) ↔
  is_Some (groups (run acts init) !! q) ∨
  ∃ t gid, queue_holder (client_ctx t gid (run acts init)) = Some q.
Proof.
  destruct (reachable_secure (run acts init)) as [[[W _] _] S]; [by exists acts|].
  split.
  - intros [tq Hq]. destruct (sf_holders _ S q tq Hq) as [Hne Hall].
    apply set_choose_L in Hne as [h Hin]. specialize (Hall h Hin).
    destruct h as [g|t gid]; [left | right; eauto]. by destruct Hall as [-> ?].
  - intros [[grp Hg] | (t & gid & Hq)].
    + destruct (sf_queue _ S q grp Hg) as (tq & Hqs & _).
      destruct (wf_group _ W q grp Hg) as (E & _). rewrite E in Hqs. eauto.
    + destruct (held_by_entry _ t gid q S Hq) as (tq & Hqs & _). eauto.
Qed.

(** X14 (Worker::self).  In every state the process can reach, [tls_self_]
    is null on every thread that is not the thread of a worker, and on the
    thread of a worker it is null or points to that worker: no thread ever
    sees another thread's worker through [Worker::self()]. *)
Theorem Worker_self_names_own_worker acts :
  (∀ n, Worker_self (ClientThread n) (run acts init) = None) ∧
  (∀ w w', Worker_self (WorkerThread w) (run acts init) = Some w' → w' = w).
Proof.
  destruct (reachable_secure (run acts init)) as [_ S]; [by exists acts|].
  split.
  - intros n. destruct (Worker_self (ClientThread n) (run acts init)) as [w|] eqn:E; [|done].
    by apply (sf_self _ S) in E.
  - intros w w' E. apply (sf_self _ S) in E. by injection E.
Qed.


(** X16 (thread name, short ids).  The constructor of a worker names the
    thread [w<group id>-<worker id>], both numbers in decimal.  When the two
    numbers are printed with no more than 13 digits together, the whole
    name fits the 16-byte buffer; and any two pairs of ids that both are so
    short and differ have different names, however their digits are
    divided between group id and worker id: the name identifies the
    worker. *)
Theorem Worker_thread_name_short grp_id id grp_id' id' :
  (length (print_lu grp_id) + length (print_lu id) ≤ 13)%nat →
  (length (print_lu grp_id') + length (print_lu id') ≤ 13)%nat →
  Worker_thread_name grp_id id = Worker_thread_name_full grp_id id ∧
  (Worker_thread_name grp_id id = Worker_thread_name grp_id' id' →
     grp_id = grp_id' ∧ id = id').
Proof.
  intros H H'.
  assert (F : ∀ g i, (length (print_lu g) + length (print_lu i) ≤ 13)%nat →
            Worker_thread_name g i = Worker_thread_name_full g i).
  { intros g i Hl. unfold Worker_thread_name, snprintf_stored. apply take_ge.
    unfold Worker_thread_name_full. cbn [length]. rewrite length_app. cbn [length]. lia. }
  assert (B : ∀ n, (length (print_lu n) ≤ 13)%nat → (n < 10 ^ 20)%N).
  { intros n Hl. destruct (decide (n < 10 ^ 19)%N) as [Hlt|Hge]; [lia|].
    pose proof (print_lu_fuel_length_ge 20 n 19) as Hlen. fold (print_lu n) in Hlen.
    change (N.of_nat 19) with 19%N in Hlen. lia. }
  split; [by apply F|]. rewrite !F by done. unfold Worker_thread_name_full.
  intros [= E]. apply app_cons_split in E as [E1 E2]; try apply print_lu_no_dash.
  split; apply print_lu_inj; try done; apply B; lia.
Qed.

(** X17 (thread name, long ids).  The name of a worker's thread never has
    more than 15 characters: [snprintf] cuts what does not fit the 16-byte
    buffer.  For a group whose id has 14 digits or more, that is from the
    id 10^13 on, the cut removes the worker's id altogether, so that all
    workers of such a group carry the same thread name. *)
Theorem Worker_thread_name_truncated grp_id id id' :
  (length (Worker_thread_name grp_id id) ≤ 15)%nat ∧
  ((10 ^ 13 ≤ grp_id)%N → Worker_thread_name grp_id id = Worker_thread_name grp_id id').
Proof.
  unfold Worker_thread_name, snprintf_stored. split.
  { rewrite length_take. lia. }
  intros Hg. unfold Worker_thread_name_full.
  pose proof (print_lu_fuel_length_ge 20 grp_id 13 Hg) as Hlen. fold (print_lu grp_id) in Hlen.
  change (16 - 1)%nat with (S 14). cbn [take]. f_equal.
  rewrite !take_app_le by lia. done.
Qed.

(** X18 (default poller).  A group built by the two-argument constructor
    gives every worker the shared default poller.  The thread of such a
    worker, scheduled twice right after the construction, enters and then
    makes one idle pass: it advances its timer wheel, finds its lane empty,
    polls with the timeout 1 and sleeps 1000 microseconds. *)
Theorem default_group_first_pass_idles worker_num queue_size s i :
  (i < N.to_nat worker_num)%nat →
  let w := (next_addr s, i) in
  let s1 := WorkerGroup_ctor_default worker_num queue_size s in
  let s2 := WorkerMainEntry_step (WorkerThread w) w s1 in
  let s3 := WorkerMainEntry_step (WorkerThread w) w s2 in
  poller_ <$> workers s1 !! w = Some DefaultWorkerPoller ∧
  trace s2 = trace s1 ++ [EvEntry w] ∧
  trace s3 = trace s2 ++ [EvMoveOn w (clock s); EvPoll w 1; EvUsleep 1000].
Proof.
  intros Hi w s1 s2 s3. subst s3 s2 s1. unfold WorkerGroup_ctor_default.
  destruct (WorkerGroup_ctor_state worker_num queue_size (λ _, DefaultWorkerPoller) s i Hi)
    as (Hw & Hq & Hc & _).
  fold w in Hw. set (g := next_addr s) in *.
  set (s1 := WorkerGroup_ctor worker_num queue_size (λ _, DefaultWorkerPoller) s) in *.
  split; [by rewrite Hw|].
  set (wk1 := with_phase Running (Worker_ctor w g (N.of_nat i) w DefaultWorkerPoller)).
  assert (E2 : WorkerMainEntry_step (WorkerThread w) w s1
               = log (EvEntry w)
                   (set_workers (insert w wk1)
                      (set_tls (insert (WorkerThread w)
                                  (with_self (Some w) (thread_local (WorkerThread w) s1))) s1))).
  { unfold WorkerMainEntry_step. by rewrite Hw. }
  rewrite E2. split; [done|].
  set (s2 := log (EvEntry w) _).
  assert (Hw2 : workers s2 !! w = Some wk1).
  { subst s2. simpl. by rewrite lookup_insert_eq. }
  assert (Hq2 : queues s2 !! g = queues s1 !! g) by done.
  unfold WorkerMainEntry_step. rewrite Hw2. cbn [phase wk1 with_phase stop_flag_ Worker_ctor].
  unfold loop_body, MoveOn. rewrite Hw2.
  cbn [timers_ wk1 with_phase Worker_ctor List.filter omap app fold_left].
  set (s3 := log (EvMoveOn w (clock s2)) _).
  assert (Hw3 : workers s3 !! w = Some (with_timers [] wk1)).
  { subst s3. simpl. by rewrite lookup_insert_eq. }
  assert (Hpop : InQueue_Pop (inq_ (with_timers [] wk1)) s3 = None).
  { unfold InQueue_Pop. cbn [inq_ with_timers wk1 with_phase Worker_ctor fst snd].
    change (queues s3 !! w.1) with (queues s1 !! g). change (w.2) with i. rewrite Hq.
    unfold Pop.
    cbn [lanes with_lanes]. by rewrite lookup_replicate_2. }
  rewrite (BatchProcessTasks_empty _ w _ s3 _ Hw3 Hpop). rewrite Hw3.
  cbn [poller_ with_timers wk1 with_phase Worker_ctor].
  rewrite decide_True by done. unfold Poll. rewrite decide_True by done.
  subst s3. cbn [trace log]. change (clock s2) with (clock s1). rewrite Hc.
  by rewrite <- !app_assoc.
Qed.

(** X19 (where user code runs).  Over any run of the process, every user
    closure that is invoked is invoked on the thread of a worker: posting,
    constructing and destroying never run a closure on the caller's
    thread. *)
Theorem user_code_runs_on_worker_threads acts :
  Forall on_worker_thread (trace (run acts init)) ∧
  (∀ n tag, EvUser (ClientThread n) tag ∉ trace (run acts init)).
Proof.
  assert (F : Forall on_worker_thread (trace (run acts init))).
  { induction acts as [|a acts IH] using rev_ind; [constructor|].
    rewrite run_snoc.
    destruct (step_log a (run acts init)) as (evs & T & H).
    { apply reachable_good. by exists acts. }
    rewrite T. apply Forall_app. by split. }
  split; [done|]. intros n tag Hin. rewrite Forall_forall in F.
  by destruct (F _ Hin) as [w ?].
Qed.

(** X20 (queue shape).  The capacity of a queue and the number of its lanes
    are fixed when the group is constructed: whatever the process does
    between two states in which the queue is allocated, both are the same
    in the two states. *)
Theorem queue_shape_fixed acts acts' q tq tq' :
  queues (run acts init) !! q = Some tq →
  queues (run (acts ++ acts') init) !! q = Some tq' →
  capacity tq' = capacity tq ∧ length (lanes tq') = length (lanes tq).
Proof.
  intros Hq. revert tq'. induction acts' as [|a acts' IH] using rev_ind; intros tq' Hq'.
  { rewrite app_nil_r in Hq'. rewrite Hq in Hq'. by injection Hq' as <-. }
  rewrite app_assoc, run_snoc in Hq'.
  assert (G : good (run (acts ++ acts') init)) by (apply reachable_good; by eexists).
  destruct (step_queues a _ q tq' G Hq') as [(tq1 & Hq1 & E) | ->].
  - destruct (IH tq1 Hq1) as [<- <-]. unfold queue_shape in E. by injection E.
  - exfalso.
    assert (G0 : good (run acts init)) by (apply reachable_good; by eexists).
    pose proof (wf_queue _ (proj1 G0) _ tq Hq) as Hlt.
    pose proof (run_next_addr acts' _ G0) as Hle. rewrite <- run_app in Hle. lia.
Qed.

(** X21 (lanes and workers).  In every state the process can reach, an
    allocated worker consumes lane [id_] of the queue of its own group:
    that queue is allocated, the lane exists, the queue has exactly one
    lane per worker of the group, and no two allocated workers share a
    lane. *)
Theorem worker_owns_its_lane acts :
  (∀ w wk, workers (run acts init) !! w = Some wk →
     ∃ grp tq, groups (run acts init) !! group_ wk = Some grp ∧
       queues (run acts init) !! queue_ grp = Some tq ∧
       inq_ wk = (queue_ grp, N.to_nat (id_ wk)) ∧
       (N.to_nat (id_ wk) < length (lanes tq))%nat ∧
       length (lanes tq) = length (workers_ grp)) ∧
  (∀ w wk w' wk', workers (run acts init) !! w = Some wk →
     workers (run acts init) !! w' = Some wk' → inq_ wk = inq_ wk' → w = w').
Proof.
  destruct (reachable_secure (run acts init)) as [[[W _] _] S]; [by exists acts|].
  split.
  - intros w wk Hw.
    destruct (wf_worker _ W w wk Hw) as (Hinq & Hgrp & Hid & _ & _ & Hlt).
    destruct (sf_back _ S w wk Hw) as [grp Hg].
    destruct (sf_queue _ S _ grp Hg) as (tq & Hq & _).
    destruct (wf_group _ W _ grp Hg) as (Hqg & _ & _ & _ & Hlen).
    rewrite Hqg in Hq. specialize (Hlen tq Hq). specialize (Hlt grp Hg).
    exists grp, tq. rewrite Hgrp, Hqg, Hid, Nat2N.id, Hinq.
    split_and!; [done | done | by destruct w | lia | done].
  - intros w wk w' wk' Hw Hw' E.
    destruct (wf_worker _ W w wk Hw) as (Hinq & _).
    destruct (wf_worker _ W w' wk' Hw') as (Hinq' & _). congruence.
Qed.

(** X22 (passes, progress).  After [n] passes in a row of a worker's thread
    the first [16 * n] closures that waited in the worker's lane before the
    first of them have been invoked, in order (all of them when fewer
    waited): a closure with [k] closures ahead of it in its lane is run
    within [k / 16 + 1] passes, however many closures are posted
    meanwhile. *)
Theorem passes_drain_lane n t this : ∀ s wk,
  workers s !! this = Some wk → phase wk = Running → stop_flag_ wk = false →
  ∃ evs,
    trace (passes n t this s) = trace s ++ evs ∧
    take (16 * n) (lane_items (inq_ wk) s) `prefix_of` executed_by this evs.
Proof.
  induction n as [|n IH]; intros s wk Hw Hph Hstop.
  { exists []. simpl. rewrite app_nil_r. split; [done|]. by exists []. }
  cbn [passes].
  destruct (pass_step t this s wk Hw Hph Hstop) as (evs1 & wk' & T1 & E1 & L1 & Hw' & Hfix).
  apply fixed_part_fields in Hfix as (Hph' & Hstop' & _ & Hinq & _).
  destruct (IH _ wk' Hw') as (evs2 & T2 & P2); [congruence | congruence |].
  rewrite Hinq, L1 in P2.
  exists (evs1 ++ evs2). split; [by rewrite T2, T1, <- app_assoc|].
  rewrite executed_by_app, E1.
  set (L := lane_items (inq_ wk) s) in *.
  set (P := pushed (inq_ wk).1 (inq_ wk).2 evs1) in *.
  replace (16 * S n)%nat with (16 + 16 * n)%nat by lia.
  trans (take (16 + 16 * n) (L ++ P)); [apply take_prefix_app|].
  rewrite <- take_take_drop. by apply prefix_app.
Qed.
End WorkerGroup.

(** * The statements at work on the small process

    The cache-size constant of the header is taken to be 2 here, so that
    the array slot is the one in use. *)

Lemma lane_fifo_witness :
  ∃ grp tq,
    (N.of_nat (length (constructed (trace (run 2 demo_acts init)))) ≤ size_t_modulus)%N ∧
    groups (run 2 demo_acts init) !! 0%N = Some grp ∧
    queues (run 2 demo_acts init) !! queue_ grp = Some tq ∧
    executed_by (0%N, 1%nat) (trace (run 2 demo_acts init))
      ++ lane_items (queue_ grp, 1%nat) (run 2 demo_acts init)
    = pushed (queue_ grp) 1 (trace (run 2 demo_acts init)) ∧
    pushed (queue_ grp) (N.to_nat 1)
      (trace (PostTask_to 2 (ClientThread 0) 0 1 (demo_user 9) (run 2 demo_acts init)).2)
    = pushed (queue_ grp) (N.to_nat 1) (trace (run 2 demo_acts init))
        ++ (if (PostTask_to 2 (ClientThread 0) 0 1 (demo_user 9) (run 2 demo_acts init)).1
            then [demo_user 9] else []).
Proof.
  with_some (groups (demo 2) !! 0%N) ltac:(fun grp =>
  with_some (queues (demo 2) !! 0%N) ltac:(fun tq =>
    assert (Hb : (N.of_nat (length (constructed (trace (run 2 demo_acts init))))
                  ≤ size_t_modulus)%N) by by_compute;
    assert (Hg : groups (run 2 demo_acts init) !! 0%N = Some grp) by by_compute;
    assert (Hq : queues (run 2 demo_acts init) !! queue_ grp = Some tq) by by_compute;
    assert (Hi : workers_ grp !! 1%nat = Some (0%N, 1%nat)) by by_compute;
    exists grp, tq; split; [exact Hb|]; split; [exact Hg|]; split; [exact Hq|];
    exact (conj (proj1 (lane_fifo 2 demo_acts 0%N grp tq Hb Hg Hq) 1%nat (0%N, 1%nat) Hi)
                (proj2 (lane_fifo 2 demo_acts 0%N grp tq Hb Hg Hq)
                   (ClientThread 0) 1%N (demo_user 9))))).
Defined.

Lemma WorkerMainEntry_run_loop_witness :
  ∃ wk, workers (demo_entered 2) !! (0%N, 1%nat) = Some wk ∧
  ∃ evs cs,
    trace (WorkerMainEntry_step 2 (WorkerThread (0%N, 1%nat)) (0%N, 1%nat) (demo_entered 2))
    = trace (demo_entered 2) ++ evs ∧
    loop_events (0%N, 1%nat) evs = iteration (0%N, 1%nat) (clock (demo_entered 2)) cs ∧
    (length cs ≤ 16)%nat ∧
    Forall (on_thread (WorkerThread (0%N, 1%nat))) evs ∧
    cs ++ lane_items (inq_ wk)
            (WorkerMainEntry_step 2 (WorkerThread (0%N, 1%nat)) (0%N, 1%nat) (demo_entered 2))
    = lane_items (inq_ wk) (demo_entered 2) ++ pushed (inq_ wk).1 (inq_ wk).2 evs ∧
    phase <$> workers (WorkerMainEntry_step 2 (WorkerThread (0%N, 1%nat)) (0%N, 1%nat)
                         (demo_entered 2)) !! (0%N, 1%nat) = Some Running ∧
    stop_flag_ <$> workers (WorkerMainEntry_step 2 (WorkerThread (0%N, 1%nat)) (0%N, 1%nat)
                              (demo_entered 2)) !! (0%N, 1%nat) = Some false.
Proof.
  with_some (workers (demo_entered 2) !! (0%N, 1%nat)) ltac:(fun wk =>
    assert (Hw : workers (demo_entered 2) !! (0%N, 1%nat) = Some wk) by by_compute;
    exists wk; split; [exact Hw|];
    exact (WorkerMainEntry_run_loop 2 (WorkerThread (0%N, 1%nat)) (0%N, 1%nat)
             (demo_entered 2) wk Hw)).
Defined.


Lemma capacity_backpressure_witness :
  ∃ grp tq tq1,
    (N.of_nat (length (constructed (trace (run 2 demo_posts init)))) ≤ size_t_modulus)%N ∧
    groups (run 2 demo_posts init) !! 0%N = Some grp ∧
    queues (run 2 demo_posts init) !! queue_ grp = Some tq ∧
    (capacity tq ≤ N.of_nat (in_flight tq))%N ∧
    (do_call 2 (ClientThread 1) (CallPostTask 0 (demo_user 9)) (run 2 demo_posts init)).1
      = false ∧
    (N.of_nat (length (constructed (trace (run 2 demo_acts init)))) ≤ size_t_modulus)%N ∧
    groups (run 2 demo_acts init) !! 0%N = Some grp ∧
    queues (run 2 demo_acts init) !! queue_ grp = Some tq1 ∧
    (N.of_nat (in_flight tq1) < capacity tq1)%N ∧
    (do_call 2 (ClientThread 1) (CallPostTask 0 (demo_user 9)) (run 2 demo_acts init)).1
      = true.
Proof.
  with_some (groups (demo_full 2) !! 0%N) ltac:(fun grp =>
  with_some (queues (demo_full 2) !! 0%N) ltac:(fun tq =>
  with_some (queues (demo 2) !! 0%N) ltac:(fun tq1 =>
    assert (Hb : (N.of_nat (length (constructed (trace (run 2 demo_posts init))))
                  ≤ size_t_modulus)%N) by by_compute;
    assert (Hg : groups (run 2 demo_posts init) !! 0%N = Some grp) by by_compute;
    assert (Hq : queues (run 2 demo_posts init) !! queue_ grp = Some tq) by by_compute;
    assert (Hfull : (capacity tq ≤ N.of_nat (in_flight tq))%N) by by_compute;
    assert (Hb1 : (N.of_nat (length (constructed (trace (run 2 demo_acts init))))
                   ≤ size_t_modulus)%N) by by_compute;
    assert (Hg1 : groups (run 2 demo_acts init) !! 0%N = Some grp) by by_compute;
    assert (Hq1 : queues (run 2 demo_acts init) !! queue_ grp = Some tq1) by by_compute;
    assert (Hroom : (N.of_nat (in_flight tq1) < capacity tq1)%N) by by_compute;
    assert (Hlane : (0 < length (lanes tq1))%nat) by (vm_compute; lia);
    exists grp, tq, tq1;
    split; [exact Hb|]; split; [exact Hg|]; split; [exact Hq|]; split; [exact Hfull|];
    split; [exact (proj1 (proj1 (capacity_backpressure 2 demo_posts (ClientThread 1) 0%N grp tq
                                   (CallPostTask 0 (demo_user 9)) Hb Hg Hq eq_refl) Hfull))|];
    split; [exact Hb1|]; split; [exact Hg1|]; split; [exact Hq1|]; split; [exact Hroom|];
    exact (proj1 (proj1 (proj2 (capacity_backpressure 2 demo_acts (ClientThread 1) 0%N grp tq1
                                  (CallPostTask 0 (demo_user 9)) Hb1 Hg1 Hq1 eq_refl))
                    Hroom Hlane))))).
Defined.

Lemma BatchProcessTasks_drains_witness :
  ∃ wk,
    workers (demo_entered 2) !! (0%N, 1%nat) = Some wk ∧
    ∃ evs,
      trace (BatchProcessTasks 2 (WorkerThread (0%N, 1%nat)) (0%N, 1%nat) 16 (demo_entered 2)).2
      = trace (demo_entered 2) ++ evs ∧
      Forall (batch_event (WorkerThread (0%N, 1%nat)) (0%N, 1%nat)) evs ∧
      (BatchProcessTasks 2 (WorkerThread (0%N, 1%nat)) (0%N, 1%nat) 16 (demo_entered 2)).1
      = N.of_nat (length (executed_by (0%N, 1%nat) evs)) ∧
      ((BatchProcessTasks 2 (WorkerThread (0%N, 1%nat)) (0%N, 1%nat) 16 (demo_entered 2)).1
       ≤ 16)%N ∧
      executed_by (0%N, 1%nat) evs
        ++ lane_items (inq_ wk)
             (BatchProcessTasks 2 (WorkerThread (0%N, 1%nat)) (0%N, 1%nat) 16 (demo_entered 2)).2
      = lane_items (inq_ wk) (demo_entered 2) ++ pushed (inq_ wk).1 (inq_ wk).2 evs ∧
      (((BatchProcessTasks 2 (WorkerThread (0%N, 1%nat)) (0%N, 1%nat) 16 (demo_entered 2)).1
        < 16)%N →
       lane_items (inq_ wk)
         (BatchProcessTasks 2 (WorkerThread (0%N, 1%nat)) (0%N, 1%nat) 16 (demo_entered 2)).2
       = []).
Proof.
  with_some (workers (demo_entered 2) !! (0%N, 1%nat)) ltac:(fun wk =>
    assert (Hw : workers (demo_entered 2) !! (0%N, 1%nat) = Some wk) by by_compute;
    exists wk; split; [exact Hw|];
    exact (BatchProcessTasks_drains 2 (WorkerThread (0%N, 1%nat)) (0%N, 1%nat) 16
             (demo_entered 2) wk Hw)).
Defined.

Lemma GetOutQueue_idempotent_witness :
  ∃ grp tq,
    (N.of_nat (length (constructed (trace (run 2 demo_posts init)))) ≤ size_t_modulus)%N ∧
    groups (run 2 demo_posts init) !! 0%N = Some grp ∧
    queues (run 2 demo_posts init) !! queue_ grp = Some tq ∧
    (∀ p, EvRegister (ClientThread 2) (queue_ grp) p ∉ trace (run 2 demo_posts init)) ∧
    (GetOutQueue 2 (ClientThread 2) 0 (run 2 demo_posts init)).1
      = Some {| oq_queue := queue_ grp; oq_producer := producers tq |} ∧
    EvRegister (ClientThread 1) (queue_ grp) 1 ∈ trace (run 2 demo_posts init) ∧
    GetOutQueue 2 (ClientThread 1) 0 (run 2 demo_posts init)
      = (Some {| oq_queue := queue_ grp; oq_producer := 1 |}, run 2 demo_posts init) ∧
    ∃ h tq'',
      (GetOutQueue 2 (ClientThread 2) 0 (run 2 demo_posts init)).1 = Some h ∧
      oq_queue h = queue_ grp ∧
      groups (WorkerGroup_dtor 2 (λ w, [QWorkerThread w; QWorkerThread w]) 0
                (GetOutQueue 2 (ClientThread 2) 0 (run 2 demo_posts init)).2) !! 0%N = None ∧
      queues (WorkerGroup_dtor 2 (λ w, [QWorkerThread w; QWorkerThread w]) 0
                (GetOutQueue 2 (ClientThread 2) 0 (run 2 demo_posts init)).2) !! queue_ grp
        = Some tq'' ∧
      HolderThread (ClientThread 2) (group_id_ grp) ∈ holders tq'' ∧
      queue_shape tq'' = queue_shape tq ∧
      out_queue (client_ctx 2 (ClientThread 2) (group_id_ grp)
                   (WorkerGroup_dtor 2 (λ w, [QWorkerThread w; QWorkerThread w]) 0
                      (GetOutQueue 2 (ClientThread 2) 0 (run 2 demo_posts init)).2)) = Some h.
Proof.
  with_some (groups (demo_full 2) !! 0%N) ltac:(fun grp =>
  with_some (queues (demo_full 2) !! 0%N) ltac:(fun tq =>
    assert (Hb : (N.of_nat (length (constructed (trace (run 2 demo_posts init))))
                  ≤ size_t_modulus)%N) by by_compute;
    assert (Hg : groups (run 2 demo_posts init) !! 0%N = Some grp) by by_compute;
    assert (Hq : queues (run 2 demo_posts init) !! queue_ grp = Some tq) by by_compute;
    assert (Hfirst : ∀ p, EvRegister (ClientThread 2) (queue_ grp) p
                          ∉ trace (run 2 demo_posts init))
      by (intros p; absent_from_log (trace (run 2 demo_posts init)));
    assert (Hlater : EvRegister (ClientThread 1) (queue_ grp) 1 ∈ trace (run 2 demo_posts init))
      by present_in_log;
    assert (Hlive : ∀ w, ClientThread 2 = WorkerThread w →
                         w.1 ≠ 0%N ∧ is_Some (workers (run 2 demo_posts init) !! w))
      by (intros w; discriminate);
    exists grp, tq;
    split; [exact Hb|]; split; [exact Hg|]; split; [exact Hq|]; split; [exact Hfirst|];
    split; [exact (proj1 (proj1 (GetOutQueue_idempotent 2 demo_posts (ClientThread 2) 0%N grp tq
                                   Hb Hg Hq) Hfirst))|];
    split; [exact Hlater|];
    split; [exact (proj1 (proj2 (GetOutQueue_idempotent 2 demo_posts (ClientThread 1) 0%N grp tq
                                   Hb Hg Hq)) 1%N Hlater)|];
    exact (proj2 (proj2 (proj2 (proj2 (GetOutQueue_idempotent 2 demo_posts (ClientThread 2) 0%N
                                         grp tq Hb Hg Hq))))
             (λ w, [QWorkerThread w; QWorkerThread w]) Hlive))).
Defined.

Lemma group_ids_unique_until_wrap_witness :
  (N.of_nat (length (constructed (trace (run 2 demo_two_groups init)))) ≤ size_t_modulus)%N ∧
  constructed (trace (run 2 demo_two_groups init)) = [(0%N, 0%N); (1%N, 1%N)] ∧
  NoDup (constructed (trace (run 2 demo_two_groups init))).*2.
Proof.
  assert (H : (N.of_nat (length (constructed (trace (run 2 demo_two_groups init))))
               ≤ size_t_modulus)%N) by by_compute.
  assert (E : constructed (trace (run 2 demo_two_groups init)) = [(0%N, 0%N); (1%N, 1%N)])
    by by_compute.
  split; [exact H|]. split; [exact E|].
  exact (proj2 (proj2 (proj2 (group_ids_unique_until_wrap 2 demo_two_groups))) H).
Defined.

Lemma misrouted_target_rejected_witness :
  ∃ grp tq,
    (N.of_nat (length (constructed (trace (run 2 demo_acts init)))) ≤ size_t_modulus)%N ∧
    groups (run 2 demo_acts init) !! 0%N = Some grp ∧
    queues (run 2 demo_acts init) !! queue_ grp = Some tq ∧
    (N.of_nat (length (workers_ grp)) ≤ 7)%N ∧
    (do_call 2 (ClientThread 0) (CallPostTaskTo 0 7 (demo_user 9)) (run 2 demo_acts init)).1
    = false.
Proof.
  with_some (groups (demo 2) !! 0%N) ltac:(fun grp =>
  with_some (queues (demo 2) !! 0%N) ltac:(fun tq =>
    assert (Hb : (N.of_nat (length (constructed (trace (run 2 demo_acts init))))
                  ≤ size_t_modulus)%N) by by_compute;
    assert (Hg : groups (run 2 demo_acts init) !! 0%N = Some grp) by by_compute;
    assert (Hq : queues (run 2 demo_acts init) !! queue_ grp = Some tq) by by_compute;
    assert (Hge : (N.of_nat (length (workers_ grp)) ≤ 7)%N) by by_compute;
    exists grp, tq; split; [exact Hb|]; split; [exact Hg|]; split; [exact Hq|];
    split; [exact Hge|];
    exact (proj1 (misrouted_target_rejected 2 demo_acts (ClientThread 0) 0%N grp tq
                    (CallPostTaskTo 0 7 (demo_user 9)) 7%N Hb Hg Hq eq_refl eq_refl Hge)))).
Defined.

Lemma Worker_PostTask_targets_own_lane_witness :
  ∃ grp wk,
    groups (run 2 demo_acts init) !! 0%N = Some grp ∧
    workers_ grp !! 1%nat = Some (0%N, 1%nat) ∧
    workers (run 2 demo_acts init) !! (0%N, 1%nat) = Some wk ∧
    Worker_PostTask 2 (ClientThread 0) (0%N, 1%nat) (demo_user 9) (run 2 demo_acts init)
    = PostTask_to 2 (ClientThread 0) 0 (N.of_nat 1) (demo_user 9) (run 2 demo_acts init).
Proof.
  with_some (groups (demo 2) !! 0%N) ltac:(fun grp =>
  with_some (workers (demo 2) !! (0%N, 1%nat)) ltac:(fun wk =>
    assert (Hg : groups (run 2 demo_acts init) !! 0%N = Some grp) by by_compute;
    assert (Hi : workers_ grp !! 1%nat = Some (0%N, 1%nat)) by by_compute;
    assert (Hw : workers (run 2 demo_acts init) !! (0%N, 1%nat) = Some wk) by by_compute;
    exists grp, wk; split; [exact Hg|]; split; [exact Hi|]; split; [exact Hw|];
    exact (proj2 (Worker_PostTask_targets_own_lane 2 demo_acts (ClientThread 0) 0%N grp
                    1%nat (0%N, 1%nat) wk (demo_user 9) Hg Hi Hw)))).
Defined.

Lemma tls_self_set_before_use_witness :
  ∃ wk,
    workers (run 2 demo_acts init) !! (0%N, 0%nat) = Some wk ∧
    phase wk ≠ Created ∧
    null_deref (run 2 demo_acts init) = false ∧
    Worker_self 2 (thread_ wk) (run 2 demo_acts init) = Some (0%N, 0%nat).
Proof.
  with_some (workers (demo 2) !! (0%N, 0%nat)) ltac:(fun wk =>
    assert (Hw : workers (run 2 demo_acts init) !! (0%N, 0%nat) = Some wk) by by_compute;
    assert (Hp : phase wk ≠ Created) by by_compute;
    exists wk; split; [exact Hw|]; split; [exact Hp|];
    exact (conj (proj1 (tls_self_set_before_use 2 demo_acts))
                (proj1 (proj2 (tls_self_set_before_use 2 demo_acts)) (0%N, 0%nat) wk Hw Hp))).
Defined.

(** The round trip of the capacity bound on the small process: three posts
    fill the queue, the fourth is rejected, a worker drains its lane, and
    the next post is accepted. *)
Example capacity_round_trip :
  (do_call 2 (ClientThread 1) (CallPostTask 0 (demo_user 4))
     (run 2 [AConstruct 2 3 (λ _, DefaultWorkerPoller);
             ACall 0 (CallPostTaskTo 0 1 (demo_user 1));
             ACall 0 (CallPostTaskTo 0 1 (demo_user 2));
             ACall 0 (CallPostTaskDelay 0 (demo_user 3) 5)] init)).1 = false ∧
  (do_call 2 (ClientThread 1) (CallPostTask 0 (demo_user 4)) (demo 2)).1 = true.
Proof. split; vm_compute; reflexivity. Qed.

(** * Beyond 2^64 groups

    The process of [wrap_prefix], continued by the construction of
    [2^64 - 1] groups without workers and of one group with one worker and
    room for one item.  The last group sits at address [2^64] and has the
    id 0, like the first; client thread 0 still holds, under the id 0, its
    handle on the first group's queue, which has two empty lanes and room
    for three items; the thread has never registered with the queue of the
    last group. *)
Lemma wrap_process :
  ∃ acts,
    groups (run 2 acts init) !! wrapped_group
      = Some {| group_id_ := 0; workers_ := [(wrapped_group, 0%nat)];
                queue_ := wrapped_group |} ∧
    queues (run 2 acts init) !! wrapped_group
      = Some {| capacity := 1; lanes := [[]]; producers := 0; rr_cursor := 0;
                holders := {[ HolderGroup wrapped_group ]} |} ∧
    (∃ tq, queues (run 2 acts init) !! 0%N = Some tq ∧ capacity tq = 3%N ∧
           lanes tq = [[]; []]) ∧
    (∃ wk, workers (run 2 acts init) !! (0%N, 0%nat) = Some wk ∧ inq_ wk = (0%N, 0%nat) ∧
           phase wk = Running ∧ stop_flag_ wk = false) ∧
    is_Some (workers (run 2 acts init) !! (wrapped_group, 0%nat)) ∧
    out_queue (client_ctx 2 (ClientThread 0) 0 (run 2 acts init))
      = Some {| oq_queue := 0; oq_producer := 0 |} ∧
    (∀ p, EvRegister (ClientThread 0) wrapped_group p ∉ trace (run 2 acts init)) ∧
    (size_t_modulus < N.of_nat (length (constructed (trace (run 2 acts init)))))%N.
Proof.
  assert (R0 : reachable 2 (run 2 wrap_prefix init)) by (by exists wrap_prefix).
  assert (A0 : next_addr (run 2 wrap_prefix init) = 1%N) by by_compute.
  destruct (fill_then_construct 2 18446744073709551615 (run 2 wrap_prefix init) R0)
    as (R & G & Q & Qo & Wo & Wn & L & cs & T & F).
  rewrite A0 in G, Q, Qo, Wo, Wn.
  assert (Eg : (1 + 18446744073709551615)%N = wrapped_group) by by_compute.
  assert (Ei : size_t_wrap wrapped_group = 0%N) by by_compute.
  rewrite Eg in G, Q, Wn. rewrite Ei in G.
  set (s := WorkerGroup_ctor_default 1 1 _) in *. clearbody s.
  destruct R as [acts ->]. exists acts.
  split_and!; [done | done | | | done | | |].
  - rewrite Qo by lia.
    with_some (queues (run 2 wrap_prefix init) !! 0%N) ltac:(fun tq =>
      exists tq; split_and!; by_compute).
  - rewrite (Wo (0%N, 0%nat)) by (simpl; lia).
    with_some (workers (run 2 wrap_prefix init) !! (0%N, 0%nat)) ltac:(fun wk =>
      exists wk; split_and!; by_compute).
  - rewrite (client_ctx_tls 2 _ _ _ _ L). by_compute.
  - intros p. rewrite T, elem_of_app. intros [Hin | Hin].
    + revert Hin. absent_from_log (trace (run 2 wrap_prefix init)).
    + rewrite Forall_forall in F. by destruct (F _ Hin) as (? & ? & ?).
  - destruct (reachable_good 2 (run 2 acts init)) as [W _]; [by exists acts|].
    rewrite (wf_constructed_len _ _ W).
    destruct (wf_group _ _ W _ _ G) as (_ & Hlt & _).
    assert (Em : size_t_modulus = wrapped_group) by by_compute.
    rewrite Em, N2Nat.id. exact Hlt.
Qed.

(** C1, as the claim states it, fails beyond 2^64 groups: the last group of
    [wrap_process] has one worker, [w]; a post of client thread 0 targeted
    at worker 0 of that group is accepted, and on its next pass worker 0 of
    the first group invokes the closure, which [w] never sees. *)
Lemma targeted_post_run_by_other_worker :
  ∃ acts grp w,
    groups (run 2 acts init) !! wrapped_group = Some grp ∧
    workers_ grp !! 0%nat = Some w ∧ is_Some (workers (run 2 acts init) !! w) ∧
    w ≠ (0%N, 0%nat) ∧
    (PostTask_to 2 (ClientThread 0) wrapped_group 0 (demo_user 9) (run 2 acts init)).1 = true ∧
    ∃ evs rest,
      trace (WorkerMainEntry_step 2 (WorkerThread (0%N, 0%nat)) (0%N, 0%nat)
               (PostTask_to 2 (ClientThread 0) wrapped_group 0 (demo_user 9)
                  (run 2 acts init)).2)
      = trace (PostTask_to 2 (ClientThread 0) wrapped_group 0 (demo_user 9)
                 (run 2 acts init)).2 ++ evs ∧
      executed_by (0%N, 0%nat) evs = demo_user 9 :: rest ∧
      executed_by w evs = [].
Proof.
  destruct wrap_process as (acts & G & _ & (tq & Hq & Hc & Hl) & (wk & Hw & Hinq & Hph & Hst)
                            & Hn & Hh & _).
  exists acts. eexists. exists (wrapped_group, 0%nat).
  split; [exact G|]. split; [done|]. split; [exact Hn|]. split; [done|].
  set (s := run 2 acts init) in *. clearbody s.
  assert (Hp : Push_to (N.to_nat 0) (demo_user 9) tq
               = Some (with_lanes [[demo_user 9]; []] tq)).
  { unfold Push_to, in_flight. rewrite Hl, Hc. reflexivity. }
  rewrite (post_through_cache 2 (ClientThread 0) wrapped_group _ s _ tq 0 (demo_user 9) _
             G Hh Hq Hp).
  cbn [fst snd oq_queue]. split; [done|].
  set (s1 := log _ _).
  assert (Hw1 : workers s1 !! (0%N, 0%nat) = Some wk) by exact Hw.
  assert (Hl1 : lane_items (inq_ wk) s1 = [demo_user 9]).
  { rewrite Hinq. subst s1. unfold lane_items. simpl. by rewrite lookup_insert_eq. }
  destruct (pass_step 2 (WorkerThread (0%N, 0%nat)) (0%N, 0%nat) s1 wk Hw1 Hph Hst)
    as (evs & wk' & T & E & _).
  destruct (WorkerMainEntry_step_events 2 (WorkerThread (0%N, 0%nat)) (0%N, 0%nat) s1)
    as (evs' & T' & F).
  rewrite T in T'. apply app_inv_head in T'. subst evs'.
  rewrite Hl1 in E. exists evs, (take 15 (pushed (inq_ wk).1 (inq_ wk).2 evs)).
  split; [exact T|]. split; [exact E|].
  unfold executed_by. apply omap_inert with (P := worker_event (WorkerThread (0%N, 0%nat))
                                                    (0%N, 0%nat)); [|done].
  intros e He. destruct e; try done. simpl in He. subst. by rewrite decide_False.
Qed.

(** C4, as the claim states it, fails beyond 2^64 groups: the last group of
    [wrap_process] has a queue of capacity 1, yet two posts to it in a row
    are both accepted, with nothing drained in between; they are judged by
    the capacity of the first group's queue. *)
Lemma capacity_exceeded_after_wrap :
  ∃ acts grp tq,
    groups (run 2 acts init) !! wrapped_group = Some grp ∧
    queues (run 2 acts init) !! queue_ grp = Some tq ∧ capacity tq = 1%N ∧
    (do_call 2 (ClientThread 0) (CallPostTaskTo wrapped_group 0 (demo_user 8))
       (run 2 acts init)).1 = true ∧
    (do_call 2 (ClientThread 0) (CallPostTaskTo wrapped_group 0 (demo_user 9))
       (do_call 2 (ClientThread 0) (CallPostTaskTo wrapped_group 0 (demo_user 8))
          (run 2 acts init)).2).1 = true.
Proof.
  destruct wrap_process as (acts & G & Q & (tq & Hq & Hc & Hl) & _ & _ & Hh & _).
  exists acts. do 2 eexists. split; [exact G|]. split; [exact Q|]. split; [done|].
  set (s := run 2 acts init) in *. clearbody s. cbn [do_call].
  assert (Hp : Push_to (N.to_nat 0) (demo_user 8) tq
               = Some (with_lanes [[demo_user 8]; []] tq)).
  { unfold Push_to, in_flight. rewrite Hl, Hc. reflexivity. }
  rewrite (post_through_cache 2 (ClientThread 0) wrapped_group _ s _ tq 0 (demo_user 8) _
             G Hh Hq Hp).
  cbn [fst snd oq_queue]. split; [done|].
  set (s1 := log _ _).
  assert (Hq1 : queues s1 !! 0%N = Some (with_lanes [[demo_user 8]; []] tq)).
  { subst s1. simpl. by rewrite lookup_insert_eq. }
  assert (Hp1 : Push_to (N.to_nat 0) (demo_user 9) (with_lanes [[demo_user 8]; []] tq)
                = Some (with_lanes [[demo_user 8; demo_user 9]; []]
                          (with_lanes [[demo_user 8]; []] tq))).
  { unfold Push_to, in_flight. simpl. rewrite Hc. reflexivity. }
  by rewrite (post_through_cache 2 (ClientThread 0) wrapped_group _ s1 _ _ 0 (demo_user 9) _
                G Hh Hq1 Hp1).
Qed.

(** C6, as the claim states it, fails beyond 2^64 groups: client thread 0
    has never registered with the queue of the last group of
    [wrap_process], yet its first call for that group registers nothing and
    returns the handle the thread holds on the queue of the first group. *)
Lemma first_call_returns_stale_handle :
  ∃ acts grp,
    groups (run 2 acts init) !! wrapped_group = Some grp ∧
    queue_ grp = wrapped_group ∧
    (∀ p, EvRegister (ClientThread 0) (queue_ grp) p ∉ trace (run 2 acts init)) ∧
    GetOutQueue 2 (ClientThread 0) wrapped_group (run 2 acts init)
    = (Some {| oq_queue := 0; oq_producer := 0 |}, run 2 acts init).
Proof.
  destruct wrap_process as (acts & G & _ & _ & _ & _ & Hh & Hno & _).
  exists acts. eexists. split; [exact G|]. split; [done|]. split; [exact Hno|].
  exact (GetOutQueue_hit 2 (ClientThread 0) wrapped_group _ _ _ G Hh).
Qed.

(** C8, as the claim states it, fails beyond 2^64 groups: the last group of
    [wrap_process] has one worker, yet a post of client thread 0 to that
    group that names worker 1 returns true, and the closure is placed in
    lane 1 of the queue of the first group. *)
Lemma misrouted_after_wrap :
  ∃ acts grp,
    groups (run 2 acts init) !! wrapped_group = Some grp ∧
    length (workers_ grp) = 1%nat ∧
    (do_call 2 (ClientThread 0) (CallPostTaskTo wrapped_group 1 (demo_user 9))
       (run 2 acts init)).1 = true ∧
    lane_items (0%N, 1%nat)
      (do_call 2 (ClientThread 0) (CallPostTaskTo wrapped_group 1 (demo_user 9))
         (run 2 acts init)).2 = [demo_user 9].
Proof.
  destruct wrap_process as (acts & G & _ & (tq & Hq & Hc & Hl) & _ & _ & Hh & _).
  exists acts. eexists. split; [exact G|]. split; [done|].
  set (s := run 2 acts init) in *. clearbody s. cbn [do_call].
  assert (Hp : Push_to (N.to_nat 1) (demo_user 9) tq
               = Some (with_lanes [[]; [demo_user 9]] tq)).
  { unfold Push_to, in_flight. rewrite Hl, Hc. reflexivity. }
  rewrite (post_through_cache 2 (ClientThread 0) wrapped_group _ s _ tq 1 (demo_user 9) _
             G Hh Hq Hp).
  cbn [fst snd oq_queue]. split; [done|].
  unfold lane_items. simpl. by rewrite lookup_insert_eq.
Qed.

(** * The further properties at work on the small process *)

Lemma BatchProcessTasks_nothing_to_do_witness :
  ∃ wk, workers (demo_entered 2) !! (0%N, 1%nat) = Some wk ∧
    (BatchProcessTasks 2 (WorkerThread (0%N, 1%nat)) (0%N, 1%nat) 0 (demo_entered 2)).2
    = demo_entered 2.
Proof.
  with_some (workers (demo_entered 2) !! (0%N, 1%nat)) ltac:(fun wk =>
    assert (Hw : workers (demo_entered 2) !! (0%N, 1%nat) = Some wk) by by_compute;
    exists wk; split; [exact Hw|];
    exact (proj2 (BatchProcessTasks_nothing_to_do 2 (WorkerThread (0%N, 1%nat)) (0%N, 1%nat)
                    0%N (demo_entered 2) wk Hw)
             (proj2 (proj1 (BatchProcessTasks_nothing_to_do 2 (WorkerThread (0%N, 1%nat))
                              (0%N, 1%nat) 0%N (demo_entered 2) wk Hw))
                (or_introl eq_refl)))).
Defined.

Lemma pass_takes_waiting_tasks_witness :
  ∃ wk, workers (demo_entered 2) !! (0%N, 1%nat) = Some wk ∧
    phase wk = Running ∧ stop_flag_ wk = false ∧
    lane_items (inq_ wk) (demo_entered 2) = [demo_user 1; demo_user 2] ∧
    ∃ evs,
      trace (WorkerMainEntry_step 2 (WorkerThread (0%N, 1%nat)) (0%N, 1%nat) (demo_entered 2))
      = trace (demo_entered 2) ++ evs ∧
      executed_by (0%N, 1%nat) evs
      = take 16 (lane_items (inq_ wk) (demo_entered 2)
                   ++ pushed (inq_ wk).1 (inq_ wk).2 evs) ∧
      take 16 (lane_items (inq_ wk) (demo_entered 2)) `prefix_of` executed_by (0%N, 1%nat) evs.
Proof.
  with_some (workers (demo_entered 2) !! (0%N, 1%nat)) ltac:(fun wk =>
    assert (Hw : workers (demo_entered 2) !! (0%N, 1%nat) = Some wk) by by_compute;
    assert (Hp : phase wk = Running) by by_compute;
    assert (Hs : stop_flag_ wk = false) by by_compute;
    assert (Hl : lane_items (inq_ wk) (demo_entered 2) = [demo_user 1; demo_user 2])
      by by_compute;
    exists wk; split; [exact Hw|]; split; [exact Hp|]; split; [exact Hs|]; split; [exact Hl|];
    exact (pass_takes_waiting_tasks 2 (WorkerThread (0%N, 1%nat)) (0%N, 1%nat)
             (demo_entered 2) wk Hw Hp Hs)).
Defined.

Lemma pass_sleeps_only_when_idle_witness :
  ∃ wk, workers (demo_entered 2) !! (0%N, 1%nat) = Some wk ∧
    phase wk = Running ∧ stop_flag_ wk = false ∧ poller_ wk = DefaultWorkerPoller ∧
    ∃ evs,
      trace (WorkerMainEntry_step 2 (WorkerThread (0%N, 1%nat)) (0%N, 1%nat) (demo_entered 2))
      = trace (demo_entered 2) ++ evs ∧
      usleeps evs
      = (match poller_ wk with
         | DefaultWorkerPoller =>
             if decide (length (executed_by (0%N, 1%nat) evs) < 16)%nat then [1000%N] else []
         | UserPoller _ => []
         end) ∧
      (usleeps evs ≠ [] →
         (∃ evs0, evs = evs0 ++ [EvUsleep 1000]) ∧
         lane_items (inq_ wk)
           (WorkerMainEntry_step 2 (WorkerThread (0%N, 1%nat)) (0%N, 1%nat) (demo_entered 2))
         = []).
Proof.
  with_some (workers (demo_entered 2) !! (0%N, 1%nat)) ltac:(fun wk =>
    assert (Hw : workers (demo_entered 2) !! (0%N, 1%nat) = Some wk) by by_compute;
    assert (Hp : phase wk = Running) by by_compute;
    assert (Hs : stop_flag_ wk = false) by by_compute;
    assert (Hd : poller_ wk = DefaultWorkerPoller) by by_compute;
    exists wk; split; [exact Hw|]; split; [exact Hp|]; split; [exact Hs|]; split; [exact Hd|];
    exact (pass_sleeps_only_when_idle 2 (WorkerThread (0%N, 1%nat)) (0%N, 1%nat)
             (demo_entered 2) wk Hw Hp Hs)).
Defined.


Lemma first_post_registers_even_if_rejected_witness :
  ∃ grp tq,
    groups (demo_full 2) !! 0%N = Some grp ∧
    queues (demo_full 2) !! queue_ grp = Some tq ∧
    ctx_bool (client_ctx 2 (ClientThread 2) (group_id_ grp) (demo_full 2)) = false ∧
    (do_call 2 (ClientThread 2) (CallPostTask 0 (demo_user 9)) (demo_full 2)).1 = false ∧
    ∃ tq', queues (do_call 2 (ClientThread 2) (CallPostTask 0 (demo_user 9)) (demo_full 2)).2
             !! queue_ grp = Some tq' ∧
      producers tq' = (producers tq + 1)%N ∧
      HolderThread (ClientThread 2) (group_id_ grp) ∈ holders tq'.
Proof.
  with_some (groups (demo_full 2) !! 0%N) ltac:(fun grp =>
  with_some (queues (demo_full 2) !! 0%N) ltac:(fun tq =>
    assert (Hg : groups (demo_full 2) !! 0%N = Some grp) by by_compute;
    assert (Hq : queues (demo_full 2) !! queue_ grp = Some tq) by by_compute;
    assert (Hlen : length (tls_client_ctx_cache_ (thread_local 2 (ClientThread 2) (demo_full 2)))
                   = N.to_nat 2) by by_compute;
    assert (Hctx : ctx_bool (client_ctx 2 (ClientThread 2) (group_id_ grp) (demo_full 2))
                   = false) by by_compute;
    assert (Hr : (do_call 2 (ClientThread 2) (CallPostTask 0 (demo_user 9)) (demo_full 2)).1
                 = false) by by_compute;
    exists grp, tq; split; [exact Hg|]; split; [exact Hq|]; split; [exact Hctx|];
    split; [exact Hr|];
    exact (proj1 (proj2 (first_post_registers_even_if_rejected 2 (ClientThread 2) 0%N
                           (demo_full 2) grp tq (CallPostTask 0 (demo_user 9))
                           Hg Hq Hlen eq_refl Hctx))))).
Defined.

Lemma GetOutQueue_touches_one_entry_witness :
  ∃ grp, groups (demo_full 2) !! 0%N = Some grp ∧
    ∀ t' gid', (t', gid') ≠ (ClientThread 2, group_id_ grp) →
      client_ctx 2 t' gid' (GetOutQueue 2 (ClientThread 2) 0 (demo_full 2)).2
      = client_ctx 2 t' gid' (demo_full 2).
Proof.
  with_some (groups (demo_full 2) !! 0%N) ltac:(fun grp =>
    assert (Hg : groups (demo_full 2) !! 0%N = Some grp) by by_compute;
    exists grp; split; [exact Hg|];
    exact (proj1 (GetOutQueue_touches_one_entry 2 (ClientThread 2) 0%N (demo_full 2) grp Hg))).
Defined.

Lemma cached_handle_never_dangles_witness :
  ∃ h, out_queue (client_ctx 2 (ClientThread 0) 0 (run 2 demo_acts init)) = Some h ∧
    queue_holder (client_ctx 2 (ClientThread 0) 0 (run 2 demo_acts init))
    = Some (oq_queue h) ∧
    size_t_wrap (oq_queue h) = 0%N ∧
    ∃ tq, queues (run 2 demo_acts init) !! oq_queue h = Some tq ∧
      HolderThread (ClientThread 0) 0 ∈ holders tq ∧ (oq_producer h < producers tq)%N.
Proof.
  with_some (out_queue (client_ctx 2 (ClientThread 0) 0 (run 2 demo_acts init))) ltac:(fun h =>
    assert (Hh : out_queue (client_ctx 2 (ClientThread 0) 0 (run 2 demo_acts init)) = Some h)
      by by_compute;
    exists h; split; [exact Hh|];
    exact (cached_handle_never_dangles 2 demo_acts (ClientThread 0) 0%N h Hh)).
Defined.


Lemma Worker_thread_name_short_witness :
  (length (print_lu 100000000000) + length (print_lu 0) ≤ 13)%nat ∧
  (length (print_lu 0) + length (print_lu 100000000000) ≤ 13)%nat ∧
  Worker_thread_name 100000000000 0 = Worker_thread_name_full 100000000000 0 ∧
  (Worker_thread_name 100000000000 0 = Worker_thread_name 0 100000000000 →
     100000000000%N = 0%N ∧ 0%N = 100000000000%N).
Proof.
  assert (H1 : (length (print_lu 100000000000) + length (print_lu 0) ≤ 13)%nat)
    by (vm_compute; lia).
  assert (H2 : (length (print_lu 0) + length (print_lu 100000000000) ≤ 13)%nat)
    by (vm_compute; lia).
  split; [exact H1|]. split; [exact H2|].
  exact (Worker_thread_name_short 100000000000 0 0 100000000000 H1 H2).
Defined.

Lemma default_group_first_pass_idles_witness :
  (1 < N.to_nat 2)%nat ∧
  trace (WorkerMainEntry_step 2 (WorkerThread (0%N, 1%nat)) (0%N, 1%nat)
           (WorkerMainEntry_step 2 (WorkerThread (0%N, 1%nat)) (0%N, 1%nat)
              (WorkerGroup_ctor_default 2 3 init)))
  = trace (WorkerMainEntry_step 2 (WorkerThread (0%N, 1%nat)) (0%N, 1%nat)
             (WorkerGroup_ctor_default 2 3 init))
      ++ [EvMoveOn (0%N, 1%nat) 0; EvPoll (0%N, 1%nat) 1; EvUsleep 1000].
Proof.
  assert (Hi : (1 < N.to_nat 2)%nat) by (simpl; lia).
  split; [exact Hi|].
  exact (proj2 (proj2 (default_group_first_pass_idles 2 2 3 init 1%nat Hi))).
Defined.

Lemma queue_shape_fixed_witness :
  ∃ tq tq',
    queues (run 2 demo_posts init) !! 0%N = Some tq ∧
    queues (run 2 (demo_posts ++ [AWorkerThread (0%N, 1%nat); AWorkerThread (0%N, 1%nat)]) init)
      !! 0%N = Some tq' ∧
    capacity tq' = capacity tq ∧ length (lanes tq') = length (lanes tq).
Proof.
  with_some (queues (run 2 demo_posts init) !! 0%N) ltac:(fun tq =>
  with_some (queues (run 2 (demo_posts ++ [AWorkerThread (0%N, 1%nat);
                                            AWorkerThread (0%N, 1%nat)]) init) !! 0%N)
    ltac:(fun tq' =>
    assert (Hq : queues (run 2 demo_posts init) !! 0%N = Some tq) by by_compute;
    assert (Hq' : queues (run 2 (demo_posts ++ [AWorkerThread (0%N, 1%nat);
                                                 AWorkerThread (0%N, 1%nat)]) init) !! 0%N
                  = Some tq') by by_compute;
    exists tq, tq'; split; [exact Hq|]; split; [exact Hq'|];
    exact (queue_shape_fixed 2 demo_posts
             [AWorkerThread (0%N, 1%nat); AWorkerThread (0%N, 1%nat)] 0%N tq tq' Hq Hq'))).
Defined.

Lemma passes_drain_lane_witness :
  ∃ wk, workers (demo_entered 2) !! (0%N, 1%nat) = Some wk ∧
    phase wk = Running ∧ stop_flag_ wk = false ∧
    ∃ evs,
      trace (passes 2 1 (WorkerThread (0%N, 1%nat)) (0%N, 1%nat) (demo_entered 2))
      = trace (demo_entered 2) ++ evs ∧
      take (16 * 1) (lane_items (inq_ wk) (demo_entered 2))
        `prefix_of` executed_by (0%N, 1%nat) evs.
Proof.
  with_some (workers (demo_entered 2) !! (0%N, 1%nat)) ltac:(fun wk =>
    assert (Hw : workers (demo_entered 2) !! (0%N, 1%nat) = Some wk) by by_compute;
    assert (Hp : phase wk = Running) by by_compute;
    assert (Hs : stop_flag_ wk = false) by by_compute;
    exists wk; split; [exact Hw|]; split; [exact Hp|]; split; [exact Hs|];
    exact (passes_drain_lane 2 1 (WorkerThread (0%N, 1%nat)) (0%N, 1%nat)
             (demo_entered 2) wk Hw Hp Hs)).
Defined.
